(** * Range-check, bit-slicing and foreign-field gadgets of o1js (bn254 fork)

    A shallow embedding of the gadget layer in its concrete (proving) mode:
    a native-field value is its canonical representative in [[0, p)], a
    witness block is run on the concrete values, and every assertion that
    the gadget emits is checked on them.  A gadget that throws, or whose
    constraints are not satisfied by the honestly computed witness, returns
    [Err]; otherwise it returns [Ok] with what the TypeScript returns.

    Sources embedded from the code:
    - [src/lib/gadgets/arithmetic.ts]        ([divMod32], [addMod32])
    - [src/lib/gadgets/arithmetic.unit-test.ts] ([divMod32Helper] and the
      reference side of the equivalence test)
    - [src/lib/gadgets/bit-slices-bn254.ts]  ([bytesToWord], [wordToBytes],
      [wordsToBytes], [bytesToWords], [sliceField], [sliceField3])
    - [src/lib/elliptic-curve.ts]            ([ForeignGroup]: [assertEquals],
      [toFields], [fromFields], [sizeInFields])
    - [src/lib/gates-bn254.ts]               (the documented constraints of
      the [foreignFieldAdd] row, the cells of the [foreignFieldMul] row)

    [range-check-bn254.ts], [foreign-field-bn254.ts] and [util/arrays.ts]
    are not among the sources; what the development needs of them is
    modelled from the specification and marked as such. *)

From Stdlib Require Import ZArith List Bool Lia Znumtheory.
Import ListNotations.
Local Open Scope Z_scope.

(** ** Failures *)

(** The ways a gadget can stop: an [assert(...)] of the helper library, a
    range check that rejects its input, an equality or boolean constraint
    that the witness does not satisfy, a witness block that cannot produce
    a value, a JavaScript [TypeError] (a property read on [undefined]), and
    a loop that does not come to an end. *)
Inductive error : Type :=
| AssertionError
| RangeViolation
| ConstraintUnsatisfied
| WitnessAborted
| TypeError
| Diverges.

Inductive result (A : Type) : Type :=
| Ok (a : A)
| Err (e : error).
Arguments Ok {A} a.
Arguments Err {A} e.

Definition bind {A B : Type} (m : result A) (k : A -> result B) : result B :=
  match m with
  | Ok a => k a
  | Err e => Err e
  end.

Declare Scope gadget_scope.
Delimit Scope gadget_scope with gadget.
Notation "x <- m ;; k" := (bind m (fun x => k))
  (at level 61, m at next level, right associativity) : gadget_scope.
Notation "' pat <- m ;; k" := (bind m (fun pat => k))
  (at level 61, pat pattern, m at next level, right associativity) : gadget_scope.
Notation "m ;;; k" := (bind m (fun _ => k))
  (at level 61, right associativity) : gadget_scope.
Local Open Scope gadget_scope.

Definition isOk {A : Type} (m : result A) : bool :=
  match m with Ok _ => true | Err _ => false end.

(** [assert(cond)] of errors.ts / common.ts. *)
Definition assert (cond : bool) : result unit :=
  if cond then Ok tt else Err AssertionError.

(** Runs a check on every element of an array, left to right. *)
Fixpoint forEach {A : Type} (f : A -> result unit) (xs : list A) : result unit :=
  match xs with
  | [] => Ok tt
  | x :: rest => f x ;;; forEach f rest
  end.

(** [Array.prototype.reduce] with the element index passed to the callback. *)
Fixpoint reduceFrom {A B : Type} (f : B -> A -> nat -> B) (idx : nat)
         (xs : list A) (acc : B) : B :=
  match xs with
  | [] => acc
  | x :: rest => reduceFrom f (S idx) rest (f acc x idx)
  end.

Definition reduce {A B : Type} (f : B -> A -> nat -> B) (xs : list A) (init : B) : B :=
  reduceFrom f 0 xs init.

(** [Array.prototype.flatMap] with a callback that can throw: the first
    element on which it throws stops the traversal. *)
Fixpoint flatMap {A B : Type} (f : A -> result (list B)) (xs : list A)
  : result (list B) :=
  match xs with
  | [] => Ok []
  | x :: rest => ys <- f x ;; zs <- flatMap f rest ;; Ok (ys ++ zs)
  end.

(** ** The data of elliptic-curve.ts *)

(** A [ForeignField] of foreign-field.ts as [ForeignGroup] reads it: its
    [value], the tuple [[0, l0, l1, l2]] of a tag and the limbs. *)
Module ForeignField.
Record t : Type := mk { value : list Z }.
End ForeignField.

(** [class ForeignGroup { x: ForeignField; y: ForeignField }]. *)
Module ForeignGroup.
Record t : Type := mk { x : ForeignField.t; y : ForeignField.t }.
End ForeignGroup.

(** ** Native moduli used to instantiate the development

    The gadgets are generic in the native modulus [p], which the sources do
    not contain.  The general statements are instantiated at two primes of
    the size of a native field: a 254-bit one for the [FieldBn254] gadgets
    and a 255-bit one for the [Field] gadgets of arithmetic.ts. *)

(** The order of the scalar field of the curve bn254. *)
Definition bn254_order : Z :=
  21888242871839275222246405745257275088548364400416034343698204186575808495617.

(** The order of the base field of the curve Pallas. *)
Definition pallas_order : Z :=
  28948022309329048855892746252171976963363056481941560715954676764349967630337.

(** ** Limb sizes *)

(** Modelled from the spec: [l], exported by range-check-bn254.ts
    (missing), is the limb size, "3 limbs x 88 bits". *)
Definition l : Z := 88.

(** Modelled from the spec: two limbs, 176 bits. *)
Definition l2 : Z := 176.

(** Modelled from the spec: the mask of one limb. *)
Definition lMask : Z := 2 ^ 88 - 1.

(** Modelled from the spec: the mask of two limbs. *)
Definition l2Mask : Z := 2 ^ 176 - 1.

(** ** Reference notions used in the statements *)

(** The weighted sum [ds[0]*2^(b*i) + ds[1]*2^(b*(i+1)) + ...] over the
    integers. *)
Fixpoint weightedSum (b : Z) (i : nat) (ds : list Z) : Z :=
  match ds with
  | [] => 0
  | d :: rest => d * 2 ^ (b * Z.of_nat i) + weightedSum b (S i) rest
  end.

(** The [n] least significant base-[2^b] digits of [x], little endian. *)
Fixpoint digits (b : Z) (n : nat) (x : Z) : list Z :=
  match n with
  | O => []
  | S n' => x mod 2 ^ b :: digits b n' (x / 2 ^ b)
  end.

(** The number of chunks of [chunkSize] bits that cover the bits
    [i .. maxBits - 1]: the number of iterations of the slicing loop. *)
Definition chunkCount (maxBits chunkSize i : nat) : nat :=
  ((maxBits - i + chunkSize - 1) / chunkSize)%nat.

Section NativeField.

Variable p : Z.

(** *** Field operations on canonical representatives

    The classes [Field] and [FieldBn254] are not among the sources; the
    specification lists what the gadgets use of a native-field value:
    "arithmetic (add, mul, sub, equality assertion), constant/variable
    introspection, big-integer conversion". *)

(** Modelled from the spec: [FieldBn254.from(z)] / [new Field(z)], the
    reduction of a big integer into [[0, p)]. *)
Definition Ffrom (z : Z) : Z := z mod p.

(** Modelled from the spec: [x.add(y)] in the native field. *)
Definition Fadd (x y : Z) : Z := (x + y) mod p.

(** Modelled from the spec: [x.sub(y)] in the native field. *)
Definition Fsub (x y : Z) : Z := (x - y) mod p.

(** Modelled from the spec: [x.mul(y)] in the native field; a bigint
    operand is reduced by the product. *)
Definition Fmul (x y : Z) : Z := (x * y) mod p.

(** Modelled from the spec: [x.assertEquals(y)], the equality assertion. *)
Definition assertEquals (x y : Z) : result unit :=
  if x =? y then Ok tt else Err ConstraintUnsatisfied.

(** Modelled from the spec: [Bool.check(Bool.Unsafe.ofField(x))] of
    bool.ts (missing), the boolean constraint [x * (x - 1) = 0]. *)
Definition Bool_check (x : Z) : result unit :=
  if Fmul x (Fsub x 1) =? 0 then Ok tt else Err ConstraintUnsatisfied.

(** ** Range-check primitives *)

(** Modelled from the spec: range-check.ts and range-check-bn254.ts are
    missing.  "The 64-bit and 8/16-bit checks compile to single fixed-shape
    primitive rows": each asserts [0 <= x < 2^w] on the canonical
    representative and raises a range violation otherwise. *)
Definition rangeCheckPrimitive (w : Z) (x : Z) : result unit :=
  if x <? 2 ^ w then Ok tt else Err RangeViolation.

(** Modelled from the spec: the 8-bit primitive check. *)
Definition rangeCheck8 (x : Z) : result unit := rangeCheckPrimitive 8 x.

(** Modelled from the spec: the 16-bit primitive check. *)
Definition rangeCheck16 (x : Z) : result unit := rangeCheckPrimitive 16 x.

(** Modelled from the spec: the 64-bit primitive check. *)
Definition rangeCheck64 (x : Z) : result unit := rangeCheckPrimitive 64 x.

(** Modelled from the spec: the witnessed 16-bit segments of the general
    n-bit check, least significant first. *)
Fixpoint segments16 (count : nat) (x : Z) : list Z :=
  match count with
  | O => []
  | S count' => Z.land x (2 ^ 16 - 1) :: segments16 count' (Z.shiftr x 16)
  end.

(** Modelled from the spec: range-check.ts is missing.  "The general n-bit
    check decomposes n into 16-bit-aligned segments and chains primitive
    checks, accumulating a running weighted sum that must equal x"; the
    bit-width "must be a multiple of 16" (doc comment of
    [GadgetsBn254.rangeCheckN]), any other width is rejected. *)
Definition rangeCheckN (n : Z) (x : Z) : result unit :=
  assert (n mod 16 =? 0) ;;;
  let segs := segments16 (Z.to_nat (n / 16)) x in
  forEach rangeCheck16 segs ;;;
  let sum := reduce (fun acc seg idx => Fadd acc (Fmul seg (Z.shiftl 1 (16 * Z.of_nat idx))))
                    segs (Ffrom 0) in
  if sum =? x then Ok tt else Err RangeViolation.

(** Modelled from the spec: the 32-bit check is the general check at n = 32. *)
Definition rangeCheck32 (x : Z) : result unit := rangeCheckN 32 x.

(** Modelled from the spec: range-check-bn254.ts is missing.
    "[multiRangeCheck(x,y,z)] proves all three limbs are in [0, 2^88)". *)
Definition multiRangeCheck (limbs : Z * Z * Z) : result unit :=
  let '(x, y, z) := limbs in
  rangeCheckPrimitive l x ;;;
  rangeCheckPrimitive l y ;;;
  rangeCheckPrimitive l z.

(** Modelled from the spec: range-check-bn254.ts is missing.
    "[compactMultiRangeCheck(xy, z)] accepts xy encoding two 88-bit values
    packed as x + 2^88*y, unpacks them, proves the packing identity
    xy = x + 2^88*y, and range-checks x, y, z, returning the split limbs." *)
Definition compactMultiRangeCheck (xy z : Z) : result (Z * Z * Z) :=
  let x := Z.land xy lMask in
  let y := Z.shiftr xy l in
  assertEquals (Fadd x (Fmul y (Z.shiftl 1 l))) xy ;;;
  multiRangeCheck (x, y, z) ;;;
  Ok (x, y, z).

(** ** arithmetic.ts *)

(** A [Field] of core.ts: the gadgets of arithmetic.ts branch on whether
    the value is a constant or a variable of the circuit. *)
Record Field : Type := mkField { isConstant : bool; toBigInt : Z }.

(** [new Field(z)] builds a constant. *)
Definition Field_new (z : Z) : Field := mkField true (Ffrom z).
(** A value bound by [Provable.witness] is a variable. *)
Definition Field_witness (z : Z) : Field := mkField false (Ffrom z).
(** [x.add(y)] is a constant exactly when both operands are. *)
Definition Field_add (x y : Field) : Field :=
  mkField (isConstant x && isConstant y) (Fadd (toBigInt x) (toBigInt y)).
(** [x.mul(c)] with a bigint [c]. *)
Definition Field_mul_bigint (x : Field) (c : Z) : Field :=
  mkField (isConstant x) (Fmul (toBigInt x) (Ffrom c)).

Record DivMod32 : Type := mkDivMod32 { remainder : Field; quotient : Field }.

Definition divMod32 (n : Field) (quotientBits : Z) : result DivMod32 :=
  if isConstant n then
    assert (toBigInt n <? Z.shiftl 1 64) ;;;
    let nBigInt := toBigInt n in
    let q := Z.shiftr nBigInt 32 in
    let r := nBigInt - Z.shiftl q 32 in
    Ok {| remainder := Field_new r; quotient := Field_new q |}
  else
    let nBigInt := toBigInt n in
    let q := Z.shiftr nBigInt 32 in
    let r := nBigInt - Z.shiftl q 32 in
    let quotient := Field_witness q in
    let remainder := Field_witness r in
    (if quotientBits =? 1
     then Bool_check (toBigInt quotient)
     else rangeCheckN quotientBits (toBigInt quotient)) ;;;
    rangeCheck32 (toBigInt remainder) ;;;
    assertEquals (toBigInt n)
                 (toBigInt (Field_add (Field_mul_bigint quotient (Z.shiftl 1 32)) remainder)) ;;;
    Ok {| remainder := remainder; quotient := quotient |}.

(** The default argument [quotientBits = 32]. *)
Definition divMod32_default (n : Field) : result DivMod32 := divMod32 n 32.

Definition addMod32 (x y : Field) : result Field :=
  out <- divMod32 (Field_add x y) 1 ;;
  Ok (remainder out).

(** ** bit-slices-bn254.ts *)

(** Modelled from the spec: int.ts is missing.  A [UInt8] is represented
    by its [value]; bytes are "range-checked ... to 8 bits, via an external
    byte type", which is what witnessing one runs. *)
Definition UInt8_check (byte : Z) : result unit := rangeCheck8 byte.

Definition bytesToWord (wordBytes : list Z) : Z :=
  reduce (fun acc byte idx =>
            let shift := Z.shiftl 1 (8 * Z.of_nat idx) in
            Fadd acc (Fmul byte shift))
         wordBytes (Ffrom 0).

Definition wordToBytes (word : Z) (bytesPerWord : nat) : result (list Z) :=
  let bytes :=
    let w := word in
    map (fun k => Z.land (Z.shiftr w (8 * Z.of_nat k)) 255) (seq 0 bytesPerWord) in
  forEach UInt8_check bytes ;;;
  (* check decomposition *)
  assertEquals (bytesToWord bytes) word ;;;
  Ok bytes.

(** The witness block of [sliceField]: the little-endian bits of [x]
    ([bigIntToBits], missing, modelled as the binary digits), cut or padded
    with zeros to [maxBits] entries. *)
Definition witnessBits (x : Z) (maxBits : nat) : list Z :=
  map (fun i => Z.b2z (Z.testbit x (Z.of_nat i))) (seq 0 maxBits).

(** The two inner loops of [sliceField]:
    [for (j = 0; j < size; j++) { bit = bits[start + j]; check; acc += bit << j }].
    Reading past the end of [bits] yields [undefined], on which the
    boolean check throws. *)
Fixpoint sumBits (bits : list Z) (start j count : nat) (acc : Z) : result Z :=
  match count with
  | O => Ok acc
  | S count' =>
      match nth_error bits (start + j) with
      | None => Err TypeError
      | Some bit =>
          Bool_check bit ;;;
          sumBits bits start (S j) count' (Fadd acc (Fmul bit (Z.shiftl 1 (Z.of_nat j))))
      end
  end.

(** The outer loop [for (; i < maxBits; i += chunkSize)]; it returns the
    chunks, the running sum and the final [i]. *)
Fixpoint sliceLoop (fuel : nat) (bits : list Z) (maxBits chunkSize i : nat)
         (chunks : list Z) (sum : Z) : result (list Z * Z * nat) :=
  if (i <? maxBits)%nat then
    match fuel with
    | O => Err Diverges
    | S fuel' =>
        let size := Nat.min (maxBits - i) chunkSize in
        chunk <- sumBits bits i 0 size (Ffrom 0) ;;
        sliceLoop fuel' bits maxBits chunkSize (i + chunkSize)
                  (chunks ++ [chunk])
                  (Fadd sum (Fmul chunk (Z.shiftl 1 (Z.of_nat i))))
    end
  else Ok (chunks, sum, i).

Record Slice : Type := mkSlice { chunks : list Z; leftoverSize : nat }.

(** [previous[previous.length - 1]] and the assignment to it. *)
Definition lastChunk (previous : list Z) : option Z :=
  nth_error previous (length previous - 1).
Definition setLastChunk (previous : list Z) (v : Z) : list Z :=
  removelast previous ++ [v].

(** [sliceField] mutates the [chunks] array of the [leftover] it is given;
    the first component of the result is that array after the call (empty
    when there was no leftover), the second is the returned object. *)
Definition sliceField (x : Z) (maxBits chunkSize : nat) (leftover : option Slice)
  : result (list Z * Slice) :=
  let bits := witnessBits x maxBits in
  '(sum, previous') <-
    match leftover with
    | None => Ok (Ffrom 0, [])
    | Some lo =>
        let previous := chunks lo in
        let size := leftoverSize lo in
        remainingChunk <- sumBits bits 0 0 size (Ffrom 0) ;;
        match lastChunk previous with
        | None => Err TypeError
        | Some chunk =>
            Ok (remainingChunk,
                setLastChunk previous
                  (Fadd chunk
                        (Fmul remainingChunk
                              (Z.shiftl 1 (Z.of_nat chunkSize - Z.of_nat size)))))
        end
    end ;;
  let i := match leftover with Some lo => leftoverSize lo | None => O end in
  '(chunks, sum, i) <- sliceLoop maxBits bits maxBits chunkSize i [] sum ;;
  assertEquals sum x ;;;
  Ok (previous', {| chunks := chunks; leftoverSize := i - maxBits |}).

Definition sliceField3 (x : Z * Z * Z) (maxBits chunkSize : nat) : result (list Z) :=
  let '(x0, x1, x2) := x in
  let l_ := Z.to_nat l in
  assert (maxBits <=? 3 * l_)%nat ;;;
  (* first limb *)
  '(_, result0) <- sliceField x0 (Nat.min l_ maxBits) chunkSize None ;;
  if (maxBits <=? l_)%nat then Ok (chunks result0) else
  let maxBits := (maxBits - l_)%nat in
  (* second limb *)
  '(chunks0, result1) <- sliceField x1 (Nat.min l_ maxBits) chunkSize (Some result0) ;;
  if (maxBits <=? l_)%nat then Ok (chunks0 ++ chunks result1) else
  let maxBits := (maxBits - l_)%nat in
  (* third limb *)
  '(chunks1, result2) <- sliceField x2 maxBits chunkSize (Some result1) ;;
  Ok (chunks0 ++ chunks1 ++ chunks result2).

(** ** Limb representation *)

(** Modelled from the spec: foreign-field-bn254.ts is missing; the type
    [Field3] of three native-field limbs. *)
Definition Field3 : Type := (Z * Z * Z)%type.

(** Modelled from the spec: foreign-field-bn254.ts is missing.  A Field3
    is "an ordered 3-tuple of native-field values, each representing 88
    bits of a big integer in little-endian limb order", with "conversions
    to/from plain big integers". *)
Definition Field3_toBigint (x : Field3) : Z :=
  let '(x0, x1, x2) := x in x0 + Z.shiftl x1 l + Z.shiftl x2 l2.

(** Modelled from the spec: foreign-field-bn254.ts is missing; the
    conversion from a big integer to its three 88-bit limbs. *)
Definition Field3_from (x : Z) : Field3 :=
  (Z.land x lMask, Z.land (Z.shiftr x l) lMask, Z.land (Z.shiftr x l2) lMask).

(** The most significant limb, [x[2]]. *)
Definition limb2 (x : Field3) : Z := snd x.

(** Each limb is in [[0, 2^88)]: what a multi-range check establishes. *)
Definition rangeChecked (x : Field3) : Prop :=
  let '(x0, x1, x2) := x in
  0 <= x0 < 2 ^ l /\ 0 <= x1 < 2 ^ l /\ 0 <= x2 < 2 ^ l.

(** Modelled from the spec: "a Field3 x is almost-reduced modulo f when
    (a) each limb is in [0, 2^88), and (b) its most-significant limb
    satisfies x[2] <= f[2]". *)
Definition almostReduced (x : Field3) (f : Z) : Prop :=
  rangeChecked x /\ limb2 x <= limb2 (Field3_from f).

(** ** Foreign-field arithmetic *)

(** Modelled from the spec: [exists(3, ...)] of common-bn254.ts (missing);
    three witnessed big integers become native-field values. *)
Definition witness3 (x : Field3) : Field3 :=
  let '(x0, x1, x2) := x in (Ffrom x0, Ffrom x1, Ffrom x2).

(** Modelled from the spec: foreign-field-bn254.ts is missing.  A limb
    tuple as the gadgets receive it: "an ordered 3-tuple of native-field
    values", each of which "has two modes -- constant (concrete, known at
    circuit-construction time) and variable".  [Field3] above is the triple
    of the values alone. *)
Definition Fields3 : Type := (Field * Field * Field)%type.

(** Modelled from the spec: the values of the three limbs. *)
Definition Fields3_toBigints (x : Fields3) : Field3 :=
  let '(x0, x1, x2) := x in (toBigInt x0, toBigInt x1, toBigInt x2).

(** Modelled from the spec: the "conversion to a plain big integer" of a
    limb tuple of the circuit. *)
Definition Fields3_toBigint (x : Fields3) : Z :=
  Field3_toBigint (Fields3_toBigints x).

(** Modelled from the spec: "every operand is constant", for one operand:
    each of its limbs is a constant. *)
Definition Fields3_isConstant (x : Fields3) : bool :=
  let '(x0, x1, x2) := x in isConstant x0 && isConstant x1 && isConstant x2.

(** Modelled from the spec: the "conversion from a plain big integer", which
    gives three constant limbs. *)
Definition Fields3_from (v : Z) : Fields3 :=
  let '(v0, v1, v2) := Field3_from v in (Field_new v0, Field_new v1, Field_new v2).

(** Modelled from the spec: three values of the circuit that a gadget has
    witnessed or constrained are variables. *)
Definition Fields3_variables (v : Field3) : Fields3 :=
  let '(v0, v1, v2) := v in (mkField false v0, mkField false v1, mkField false v2).

(** Modelled from the spec: foreign-field-bn254.ts is missing.  The value
    that [assertAlmostReduced] range-checks per element, as the
    specification and the doc comment of [mul] write it:
    [2^88 - x[2] - (f[2] + 1)], computed in the native field. *)
Definition almostReducedBound (x2 f2 : Z) : Z :=
  Fsub (Fsub (Ffrom (2 ^ l)) x2) (Ffrom (f2 + 1)).

(** Modelled from the spec: foreign-field-bn254.ts is missing.  The value
    whose 88-bit range check proves what [assertAlmostReduced] is for, "the
    most significant limb is less or equal than the modulus,
    [x[2] <= f[2]]" (doc comment of
    [GadgetsBn254.ForeignFieldBn254.assertAlmostReduced]):
    [x[2] + 2^88 - (f[2] + 1)], which is below [2^88] exactly when
    [x[2] <= f[2]]. *)
Definition weakBound (x2 f : Z) : Z :=
  Fadd x2 (Ffrom (lMask - Z.shiftr f l2)).

(** Modelled from the spec: foreign-field-bn254.ts is missing.
    "[assertAlmostReduced(xs, f, skipMrc)]: batches limb-range-checks and,
    per element, an 88-bit check ... to prove [x[2] <= f[2]]"; it "throws if
    any of the assumptions is violated".  Batching by three only groups the
    same checks into fewer rows. *)
Definition assertAlmostReduced (xs : list Field3) (f : Z) (skipMrc : bool) : result unit :=
  forEach (fun x =>
             (if skipMrc then Ok tt else multiRangeCheck x) ;;;
             rangeCheckPrimitive l (weakBound (limb2 x) f))
          xs.

(** gates-bn254.ts, [foreignFieldAdd]: the constraints of the row as its
    doc comment states them, on the operands, the witnessed overflow and
    carry, and the result placed in the next row:
    - [l01 + sign*r01 - overflow*f01 - carry*2^2l === res01]
    - [l2  + sign*r2  - overflow*f2  + carry      === res2]
    - overflow is 0 or sign
    - carry is 0, 1 or -1 *)
Definition foreignFieldAdd (left right : Field3) (overflow carry : Z)
           (modulus : Field3) (sign : Z) (res : Field3) : result unit :=
  let '(a0, a1, a2) := left in
  let '(b0, b1, b2) := right in
  let '(f0, f1, f2) := modulus in
  let '(r0, r1, r2) := res in
  let a01 := a0 + Z.shiftl a1 l in
  let b01 := b0 + Z.shiftl b1 l in
  let f01 := f0 + Z.shiftl f1 l in
  let r01 := r0 + Z.shiftl r1 l in
  if ((a01 + sign * b01 - overflow * f01 - carry * Z.shiftl 1 l2 - r01) mod p =? 0)
     && ((a2 + sign * b2 - overflow * f2 + carry - r2) mod p =? 0)
     && ((overflow =? 0) || (overflow =? sign))
     && ((carry =? 0) || (carry =? 1) || (carry =? -1))
  then Ok tt else Err ConstraintUnsatisfied.

(** Modelled from the spec: foreign-field-bn254.ts is missing.  The
    overflow term of one addition, "exactly 0, +-1 times the modulus": the
    modulus is subtracted once when a sum reaches it and added once when a
    difference is negative. *)
Definition overflowOf (sign f r : Z) : Z :=
  if (sign =? 1) && (f <=? r) then 1
  else if (sign =? -1) && (r <? 0) then -1
  else 0.

(** Modelled from the spec: foreign-field-bn254.ts is missing.  One
    "constrained limb-wise addition with an overflow/carry term proved to
    be exactly 0, +-1 times the modulus": the witness subtracts the modulus
    once when a sum reaches it and adds it once when a difference is
    negative, the limbs are added with a carry out of the two low limbs,
    and the [foreignFieldAdd] row constrains the result. *)
Definition singleAdd (x y : Field3) (sign : Z) (f : Z) : result Field3 :=
  let '(x0, x1, x2) := x in
  let '(y0, y1, y2) := y in
  let '(f0, f1, f2) := Field3_from f in
  let r := Field3_toBigint x + sign * Field3_toBigint y in
  let overflow := overflowOf sign f r in
  let r01 := (x0 + Z.shiftl x1 l) + sign * (y0 + Z.shiftl y1 l)
             - overflow * (f0 + Z.shiftl f1 l) in
  let carry := Z.shiftr r01 l2 in
  let r01 := Z.land r01 l2Mask in
  let r0 := Z.land r01 lMask in
  let r1 := Z.shiftr r01 l in
  let r2 := x2 + sign * y2 - overflow * f2 + carry in
  let res := witness3 (r0, r1, r2) in
  foreignFieldAdd x y overflow carry (f0, f1, f2) sign res ;;;
  Ok res.

(** Modelled from the spec: "[sum(xs, signs, f)]: a chain of signed
    additions ... intermediate sums need not be individually range-checked
    -- only the final result is". *)
Fixpoint sumChain (acc : Field3) (xs : list Field3) (signs : list Z) (f : Z)
  : result Field3 :=
  match xs, signs with
  | [], [] => Ok acc
  | x :: xs', s :: signs' => r <- singleAdd acc x s f ;; sumChain r xs' signs' f
  | _, _ => Err AssertionError
  end.

(** Modelled from the spec: the plain arithmetic of [sum] on big integers,
    [xs[0] + signs[0] * xs[1] + ... + signs[n-1] * xs[n]], started at
    [acc = xs[0]]. *)
Fixpoint signedSum (acc : Z) (xs signs : list Z) : Z :=
  match xs, signs with
  | x :: xs', s :: signs' => signedSum (acc + s * x) xs' signs'
  | _, _ => acc
  end.

(** Modelled from the spec: foreign-field-bn254.ts is missing.  "This
    gadget takes a list of inputs and a list of signs (of size one less
    than the inputs)" (doc comment of [GadgetsBn254.ForeignFieldBn254.sum]).
    "All gadgets must behave correctly in both modes, short-circuiting to
    plain arithmetic when every operand is constant": on constants the
    result is the signed sum reduced modulo [f].  Otherwise [sum] folds the
    chain of constrained additions and range-checks "only the final
    result". *)
Definition sum (x : list Fields3) (sign : list Z) (f : Z) : result Fields3 :=
  assert (length x =? length sign + 1)%nat ;;;
  match x with
  | [] => Err AssertionError
  | x0 :: rest =>
      if forallb Fields3_isConstant x then
        (* constant case *)
        let s := signedSum (Fields3_toBigint x0) (map Fields3_toBigint rest) sign in
        Ok (Fields3_from (s mod f))
      else
        (* provable case *)
        result <- sumChain (Fields3_toBigints x0) (map Fields3_toBigints rest) sign f ;;
        multiRangeCheck result ;;;
        Ok (Fields3_variables result)
  end.

(** Modelled from the spec: [add(x, y, f)] is the sum of two terms. *)
Definition add (x y : Fields3) (f : Z) : result Fields3 := sum [x; y] [1] f.

(** Modelled from the spec: [sub(x, y, f)] is the signed sum of two terms;
    it "fails if x - y < -f", on the range check of the result. *)
Definition sub (x y : Fields3) (f : Z) : result Fields3 := sum [x; y] [-1] f.

(** Modelled from the spec: [bitSlice(x, start, length)] of
    common-bn254.ts (missing), the [length] bits of [x] from bit [start]. *)
Definition bitSlice (x : Z) (start length : Z) : Z :=
  Z.land (Z.shiftr x start) (Z.shiftl 1 length - 1).

(** gates-bn254.ts, [foreignFieldMul]: the cells of the row are those of
    the source, the operands, the remainder as [(r01, r2)], the three limbs
    of the quotient, the bound on its top limb, the three parts of the
    middle product, [carry0], and [carry1] in seven 12-bit and four smaller
    parts, with the coefficients [foreignFieldModulus2] and
    [negForeignFieldModulus], the limbs of [2^264 - f].

    Modelled from the spec: the constraints are held by the gate emission
    engine, which is not among the sources.  The row "verifies this
    identity limb-by-limb with explicit carry terms": with
    [p0 = a0*b0 + q0*f'0], [p1 = a0*b1 + a1*b0 + q0*f'1 + q1*f'0] and
    [p2 = a0*b2 + a1*b1 + a2*b0 + q0*f'2 + q1*f'1 + q2*f'0],
    - [p1 = p10 + 2^l*p110 + 2^2l*p111], and [p111] has two bits
    - [2^2l*carry0 = p0 + 2^l*p10 - r01], and [carry0] has two bits
    - [2^l*carry1 = p2 + p11 + carry0 - r2], and [carry1] has 91 bits
    - [quotientHiBound = q2 + 2^l - foreignFieldModulus2 - 1]
    - [a*b + q*f' = q*2^3l + r] in the native field. *)
Definition foreignFieldMul (left right : Field3) (remainder : Z * Z)
           (quotient : Field3) (quotientHiBound : Z) (product1 : Field3)
           (carry0 : Z) (carry1p carry1c : list Z)
           (foreignFieldModulus2 : Z) (negForeignFieldModulus : Field3)
  : result unit :=
  let '(a0, a1, a2) := left in
  let '(b0, b1, b2) := right in
  let '(r01, r2) := remainder in
  let '(q0, q1, q2) := quotient in
  let '(p10, p110, p111) := product1 in
  let '(f_0, f_1, f_2) := negForeignFieldModulus in
  let p0 := a0 * b0 + q0 * f_0 in
  let p1 := a0 * b1 + a1 * b0 + q0 * f_1 + q1 * f_0 in
  let p2 := a0 * b2 + a1 * b1 + a2 * b0 + q0 * f_2 + q1 * f_1 + q2 * f_0 in
  let p11 := p110 + Z.shiftl p111 l in
  let carry1 := weightedSum 12 0 carry1p + Z.shiftl (weightedSum 2 0 carry1c) 84 in
  let a := Field3_toBigint left in
  let b := Field3_toBigint right in
  let q := Field3_toBigint quotient in
  let f_ := Field3_toBigint negForeignFieldModulus in
  let r := r01 + Z.shiftl r2 l2 in
  if ((p1 - (p10 + Z.shiftl p11 l)) mod p =? 0)
     && (p111 <? 4)
     && ((p0 + Z.shiftl p10 l - r01 - Z.shiftl carry0 l2) mod p =? 0)
     && (carry0 <? 4)
     && ((p2 + p11 + carry0 - r2 - Z.shiftl carry1 l) mod p =? 0)
     && forallb (fun c => c <? 2 ^ 12) carry1p
     && forallb (fun c => c <? 4) (firstn 3 carry1c)
     && forallb (fun c => c <? 2) (skipn 3 carry1c)
     && ((quotientHiBound - (q2 + Z.shiftl 1 l - foreignFieldModulus2 - 1)) mod p =? 0)
     && ((a * b + q * f_ - q * Z.shiftl 1 (3 * l) - r) mod p =? 0)
  then Ok tt else Err ConstraintUnsatisfied.

(** Modelled from the spec: foreign-field-bn254.ts is missing.  The
    multiplication without the range checks of its quotient and remainder:
    it "computes [q], [r] such that [x*y = q*f + r] with [r] the canonical
    result" in a witness block, together with the parts of the middle
    product and the two carries that the row [foreignFieldMul] takes, emits
    the row, and range-checks the two low parts of the middle product and
    the bound of the top limb of the quotient against the top limb of the
    modulus.  It returns the remainder as [(r01, r2)] and the quotient. *)
Definition multiplyNoRangeCheck (a b : Field3) (f : Z) : result (Z * Z * Field3) :=
  (* notation follows the row: f_ is the negated modulus, f2 its top limb *)
  let f_ := Z.shiftl 1 (3 * l) - f in
  let '(f_0, f_1, f_2) := Field3_from f_ in
  let f2 := Z.shiftr f l2 in
  let f2Bound := Z.shiftl 1 l - f2 - 1 in
  let '(a0, a1, a2) := a in
  let '(b0, b1, b2) := b in
  (* the witness block *)
  let ab := Field3_toBigint a * Field3_toBigint b in
  let q := ab / f in
  let r := ab - q * f in
  let '(q0, q1, q2) := Field3_from q in
  let '(r0, r1, r2) := Field3_from r in
  let r01 := r0 + Z.shiftl r1 l in
  let p0 := a0 * b0 + q0 * f_0 in
  let p1 := a0 * b1 + a1 * b0 + q0 * f_1 + q1 * f_0 in
  let p2 := a0 * b2 + a1 * b1 + a2 * b0 + q0 * f_2 + q1 * f_1 + q2 * f_0 in
  let '(p10, p110, p111) := Field3_from p1 in
  let p11 := p110 + Z.shiftl p111 l in
  let c0 := Z.shiftr (p0 + Z.shiftl p10 l - r01) l2 in
  let c1 := Z.shiftr (p2 - r2 + p11 + c0) l in
  let c1p := [bitSlice c1 0 12; bitSlice c1 12 12; bitSlice c1 24 12;
              bitSlice c1 36 12; bitSlice c1 48 12; bitSlice c1 60 12;
              bitSlice c1 72 12] in
  let c1c := [bitSlice c1 84 2; bitSlice c1 86 2; bitSlice c1 88 2;
              bitSlice c1 90 1] in
  let q2Bound := q2 + f2Bound in
  (* the witnessed values become native-field values *)
  let r01 := Ffrom r01 in
  let r2 := Ffrom r2 in
  let '(q0, q1, q2) := witness3 (q0, q1, q2) in
  let q2Bound := Ffrom q2Bound in
  let '(p10, p110, p111) := witness3 (p10, p110, p111) in
  let c0 := Ffrom c0 in
  let c1p := map Ffrom c1p in
  let c1c := map Ffrom c1c in
  foreignFieldMul a b (r01, r2) (q0, q1, q2) q2Bound (p10, p110, p111)
                  c0 c1p c1c f2 (f_0, f_1, f_2) ;;;
  (* limb range checks on the products, and on the quotient bound *)
  multiRangeCheck (p10, p110, q2Bound) ;;;
  Ok (r01, r2, (q0, q1, q2)).

(** Modelled from the spec: foreign-field-bn254.ts is missing.
    "[mul(x, y, f)]: computes q, r such that x*y = q*f + r with r the
    canonical result, emitting constraints that verify this identity
    limb-by-limb with explicit carry terms"; "mul/inv/div require
    f < 2^259".  On constants it short-circuits "to plain arithmetic".
    Otherwise the limbs of the quotient and of the remainder are
    range-checked, the remainder in its compact form, and the split
    remainder is the result: "range checks on outputs are added by the
    gadget itself". *)
Definition mul (x y : Fields3) (f : Z) : result Fields3 :=
  assert (f <? Z.shiftl 1 259) ;;;
  if Fields3_isConstant x && Fields3_isConstant y then
    (* constant case *)
    Ok (Fields3_from ((Fields3_toBigint x * Fields3_toBigint y) mod f))
  else
    (* provable case *)
    '(r01, r2, q) <- multiplyNoRangeCheck (Fields3_toBigints x) (Fields3_toBigints y) f ;;
    multiRangeCheck q ;;;
    r <- compactMultiRangeCheck r01 r2 ;;
    Ok (Fields3_variables r).

(** Modelled from the spec: the witness of [inv] and [div] is "the modular
    inverse/quotient" computed directly.  The extended Euclidean algorithm
    on [(f, y mod f)] keeps the remainder pair and the coefficients of [y];
    it returns the last non-zero remainder and its coefficient. *)
Fixpoint egcdLoop (fuel : nat) (r0 r1 s0 s1 : Z) : Z * Z :=
  match fuel with
  | O => (r0, s0)
  | S fuel' =>
      if r1 =? 0 then (r0, s0)
      else egcdLoop fuel' r1 (r0 mod r1) s1 (s0 - (r0 / r1) * s1)
  end.

(** Modelled from the spec: the inverse of [y] modulo [f], when there is one. *)
Definition modInverse (y f : Z) : option Z :=
  let fuel := Z.to_nat (2 * Z.log2 f + 2) in
  let '(g, s) := egcdLoop fuel f (y mod f) 0 1 in
  if g =? 1 then Some (s mod f) else None.

(** Modelled from the spec: the limb-wise equality assertion of [div]. *)
Definition assertEquals3 (x y : Field3) : result unit :=
  let '(x0, x1, x2) := x in
  let '(y0, y1, y2) := y in
  assertEquals x0 y0 ;;; assertEquals x1 y1 ;;; assertEquals x2 y2.

(** Modelled from the spec: [b.assertFalse()] on a boolean of the circuit. *)
Definition assertFalse (b : bool) : result unit :=
  if b then Err ConstraintUnsatisfied else Ok tt.

(** Modelled from the spec: foreign-field-bn254.ts is missing.
    "[inv(x, f)] / [div(x, y, f)]: computed by witnessing the modular
    inverse/quotient directly, then proving correctness via mul, e.g. div
    asserts x == (x/y)*y mod f"; "mul/inv/div require f < 2^259".

    On constants [div] short-circuits "to plain arithmetic": it returns
    [x * y^(-1) mod f], and throws when [y] has no inverse modulo [f].

    Otherwise the quotient [z] is witnessed, and the witness block "returns
    a value" also when [y] has no inverse: zero.  The circuit range-checks
    [z], multiplies it by [y] and asserts that the product equals [x] limb
    by limb, and "adds an extra bound check on the result" (doc comment of
    [GadgetsBn254.ForeignFieldBn254.div]).  Since [0 * 0 = 0] would leave
    the quotient free, [div] last asserts that [y] is not zero modulo [f]:
    that its limbs are neither those of [0] nor those of [f]. *)
Definition div (x y : Fields3) (f : Z) : result Fields3 :=
  assert (f <? Z.shiftl 1 259) ;;;
  let xBig := Fields3_toBigint x in
  let yBig := Fields3_toBigint y in
  if Fields3_isConstant x && Fields3_isConstant y then
    (* constant case *)
    match modInverse yBig f with
    | None => Err AssertionError
    | Some yInv => Ok (Fields3_from ((xBig * yInv) mod f))
    end
  else
    (* provable case *)
    let z := witness3 (match modInverse yBig f with
                       | None => (0, 0, 0)
                       | Some yInv => Field3_from ((xBig * yInv) mod f)
                       end) in
    multiRangeCheck z ;;;
    let z2Bound := weakBound (limb2 z) f in
    xExpected <- mul (Fields3_variables z) y f ;;
    assertEquals3 (Fields3_toBigints xExpected) (Fields3_toBigints x) ;;;
    multiRangeCheck (z2Bound, Ffrom 0, Ffrom 0) ;;;
    let '(y0, y1, y2) := Fields3_toBigints y in
    let '(f0, f1, f2) := Field3_from f in
    let y01 := Fadd y0 (Fmul y1 (Z.shiftl 1 l)) in
    assertFalse ((y01 =? 0) && (y2 =? 0)) ;;;
    assertFalse ((y01 =? f0 + Z.shiftl f1 l) && (y2 =? f2)) ;;;
    Ok (Fields3_variables z).

(** ** bit-slices-bn254.ts: arrays of words *)

Definition wordsToBytes (words : list Z) (bytesPerWord : nat) : result (list Z) :=
  flatMap (fun w => wordToBytes w bytesPerWord) words.

(** Modelled from the spec: util/arrays.ts is missing.  [chunk(array, size)]
    cuts the array into the groups of [size] elements that
    "[wordsToBytes]/[bytesToWords] apply these per fixed-size group" refers
    to; an array whose length is not a multiple of [size] has no such
    grouping and is rejected. *)
Definition chunk {A : Type} (array : list A) (size : nat) : result (list (list A)) :=
  assert ((0 <? size)%nat && (length array mod size =? 0)%nat) ;;;
  Ok (map (fun i => firstn size (skipn (size * i) array))
          (seq 0 (length array / size))).

Definition bytesToWords (bytes : list Z) (bytesPerWord : nat) : result (list Z) :=
  groups <- chunk bytes bytesPerWord ;;
  Ok (map bytesToWord groups).

(** ** arithmetic.unit-test.ts *)

(** The reference the unit test compares [divMod32] with; the pair is
    [(remainder, quotient)]. *)
Definition divMod32Helper (x : Z) : Z * Z :=
  let quotient := Z.shiftr x 32 in
  let remainder := x - Z.shiftl quotient 32 in
  (remainder, quotient).

(** The reference side of the test:
    [assert(x < 1n << 64n); return divMod32Helper(x)]. *)
Definition divMod32Expected (x : Z) : result (Z * Z) :=
  assert (x <? Z.shiftl 1 64) ;;;
  Ok (divMod32Helper x).

(** ** elliptic-curve.ts *)

(** [#foreignFieldtoFieldsBn254]: [let [, ...limbs] = x.value] drops the
    tag; wrapping a limb in a [FieldBn254] keeps its value. *)
Definition foreignFieldtoFieldsBn254 (x : ForeignField.t) : list Z :=
  let limbs := tl (ForeignField.value x) in
  map (fun x => x) limbs.

(** [#assertEqualBn254(otherX)]: the limbs of [this.x] against those of
    [otherX], index by index; an index past the end of either array reads
    [undefined], on which the assertion throws. *)
Definition assertEqualBn254 (this : ForeignGroup.t) (otherX : ForeignField.t)
  : result unit :=
  let thisXs := foreignFieldtoFieldsBn254 (ForeignGroup.x this) in
  let otherXs := foreignFieldtoFieldsBn254 otherX in
  forEach (fun i =>
             match nth_error thisXs i, nth_error otherXs i with
             | Some a, Some b => assertEquals a b
             | _, _ => Err TypeError
             end)
          (seq 0 (length thisXs)).

(** [ForeignGroup.assertEquals(other)]. *)
Definition ForeignGroup_assertEquals (this other : ForeignGroup.t) : result unit :=
  assertEqualBn254 this (ForeignGroup.x other) ;;;
  assertEqualBn254 this (ForeignGroup.y other).

(** [ForeignGroup.sizeInFields()]. *)
Definition ForeignGroup_sizeInFields : nat := 6.

(** [toFields()]; [toFieldsBn254] is the serialisation of the foreign field
    class built by [createForeignField] (foreign-field.ts, missing), passed
    in. *)
Definition ForeignGroup_toFields (toFieldsBn254 : ForeignField.t -> list Z)
           (this : ForeignGroup.t) : list Z :=
  let xFields := toFieldsBn254 (ForeignGroup.x this) in
  let yFields := toFieldsBn254 (ForeignGroup.y this) in
  xFields ++ yFields.

(** [fromFields(fields)]; [fields.slice(0, 3)] and [fields.slice(3)] are
    the two coordinates. *)
Definition ForeignGroup_fromFields (fromFieldsBn254 : list Z -> ForeignField.t)
           (fields : list Z) : ForeignGroup.t :=
  let xFields := firstn 3 fields in
  let yFields := skipn 3 fields in
  ForeignGroup.mk (fromFieldsBn254 xFields) (fromFieldsBn254 yFields).

(** * Properties *)

(** ** Weighted sums and digits *)

Lemma weightedSum_succ (b : Z) (ds : list Z) :
  0 <= b -> forall i, weightedSum b (S i) ds = 2 ^ b * weightedSum b i ds.
Proof.
  intros Hb. induction ds as [|d rest IH]; intros i; cbn [weightedSum].
  - lia.
  - rewrite IH. rewrite Nat2Z.inj_succ.
    replace (b * Z.succ (Z.of_nat i)) with (b + b * Z.of_nat i) by lia.
    rewrite Z.pow_add_r by lia. ring.
Qed.

Lemma weightedSum_cons0 (b d : Z) (rest : list Z) :
  0 <= b -> weightedSum b 0 (d :: rest) = d + 2 ^ b * weightedSum b 0 rest.
Proof.
  intros Hb. cbn [weightedSum]. rewrite weightedSum_succ by assumption.
  rewrite Z.mul_0_r. simpl. lia.
Qed.

Lemma weightedSum_digits (b : Z) (n : nat) :
  0 <= b -> forall x, 0 <= x ->
  weightedSum b 0 (digits b n x) = x mod 2 ^ (b * Z.of_nat n).
Proof.
  intros Hb. induction n as [|n IH]; intros x Hx.
  - simpl. rewrite Z.mul_0_r. simpl. now rewrite Z.mod_1_r.
  - cbn [digits]. rewrite weightedSum_cons0 by assumption.
    assert (Hpos : 0 < 2 ^ b) by (apply Z.pow_pos_nonneg; lia).
    rewrite IH by (apply Z.div_pos; lia).
    rewrite Nat2Z.inj_succ.
    replace (b * Z.succ (Z.of_nat n)) with (b + b * Z.of_nat n) by lia.
    rewrite Z.pow_add_r by lia.
    rewrite Z.rem_mul_r; [reflexivity | lia |].
    apply Z.pow_pos_nonneg; lia.
Qed.

Lemma digits_bound (b : Z) (n : nat) :
  0 <= b -> forall x, Forall (fun d => 0 <= d < 2 ^ b) (digits b n x).
Proof.
  intros Hb. induction n as [|n IH]; intros x; cbn [digits]; constructor.
  - apply Z.mod_pos_bound. apply Z.pow_pos_nonneg; lia.
  - apply IH.
Qed.

Lemma digits_length (b : Z) (n : nat) (x : Z) : length (digits b n x) = n.
Proof. revert x. induction n; intros; cbn [digits length]; auto. Qed.

Lemma weightedSum_range (b : Z) (ds : list Z) :
  0 <= b -> Forall (fun d => 0 <= d < 2 ^ b) ds ->
  0 <= weightedSum b 0 ds < 2 ^ (b * Z.of_nat (length ds)).
Proof.
  intros Hb H. induction H as [|d rest Hd _ IH].
  - simpl. rewrite Z.mul_0_r. simpl. lia.
  - rewrite weightedSum_cons0 by assumption. cbn [length].
    rewrite Nat2Z.inj_succ.
    replace (b * Z.succ (Z.of_nat (length rest))) with (b + b * Z.of_nat (length rest)) by lia.
    rewrite Z.pow_add_r by lia.
    assert (0 < 2 ^ b) by (apply Z.pow_pos_nonneg; lia).
    nia.
Qed.

Lemma digits_weightedSum (b : Z) (ds : list Z) :
  0 <= b -> Forall (fun d => 0 <= d < 2 ^ b) ds ->
  digits b (length ds) (weightedSum b 0 ds) = ds.
Proof.
  intros Hb H. induction H as [|d rest Hd Hrest IH].
  - reflexivity.
  - cbn [length digits]. rewrite weightedSum_cons0 by assumption.
    assert (Hpos : 0 < 2 ^ b) by (apply Z.pow_pos_nonneg; lia).
    replace (d + 2 ^ b * weightedSum b 0 rest)
      with (d + weightedSum b 0 rest * 2 ^ b) by ring.
    f_equal.
    + rewrite Z.mod_add by lia. now apply Z.mod_small.
    + rewrite Z.div_add by lia.
      rewrite (Z.div_small d) by assumption. rewrite Z.add_0_l. exact IH.
Qed.

(** The digits as the gadgets witness them: by shifting and masking. *)
Lemma shift_mask_digits (b : Z) (x : Z) (n : nat) :
  0 <= b -> forall s : nat,
  map (fun k => Z.land (Z.shiftr x (b * Z.of_nat k)) (2 ^ b - 1)) (seq s n)
  = digits b n (x / 2 ^ (b * Z.of_nat s)).
Proof.
  intros Hb. induction n as [|n IH]; intros s; cbn [seq map digits].
  - reflexivity.
  - f_equal.
    + rewrite Z.shiftr_div_pow2 by lia.
      replace (2 ^ b - 1) with (Z.ones b) by (rewrite Z.ones_equiv; lia).
      now rewrite Z.land_ones.
    + rewrite IH. f_equal.
      rewrite Nat2Z.inj_succ.
      replace (b * Z.succ (Z.of_nat s)) with (b * Z.of_nat s + b) by lia.
      rewrite Z.pow_add_r by lia.
      assert (0 < 2 ^ (b * Z.of_nat s)) by (apply Z.pow_pos_nonneg; lia).
      assert (0 < 2 ^ b) by (apply Z.pow_pos_nonneg; lia).
      rewrite Z.div_div by lia. reflexivity.
Qed.

Lemma segments16_digits (n : nat) : forall x, segments16 n x = digits 16 n x.
Proof.
  induction n as [|n IH]; intros x; cbn [segments16 digits].
  - reflexivity.
  - rewrite IH. f_equal.
    + change (2 ^ 16 - 1) with (Z.ones 16). now rewrite Z.land_ones.
    + now rewrite Z.shiftr_div_pow2.
Qed.

(** A running field sum of weighted digits is the integer sum, reduced. *)
Lemma reduceFrom_weightedSum (b : Z) (ds : list Z) :
  0 <= b -> forall (i : nat) (a : Z),
  reduceFrom (fun acc d idx => Fadd acc (Fmul d (Z.shiftl 1 (b * Z.of_nat idx)))) i ds (a mod p)
  = (a + weightedSum b i ds) mod p.
Proof.
  intros Hb. induction ds as [|d rest IH]; intros i a; cbn [reduceFrom weightedSum].
  - now rewrite Z.add_0_r.
  - unfold Fadd at 2, Fmul at 2. rewrite <- Zplus_mod.
    rewrite IH. rewrite Z.shiftl_1_l. f_equal. lia.
Qed.

Lemma forEach_rangeCheck (w : Z) (xs : list Z) :
  Forall (fun d => 0 <= d < 2 ^ w) xs -> forEach (rangeCheckPrimitive w) xs = Ok tt.
Proof.
  induction 1 as [|d rest Hd _ IH]; cbn [forEach]; [reflexivity|].
  unfold rangeCheckPrimitive at 1.
  destruct (Z.ltb_spec d (2 ^ w)); [|lia]. cbn [bind]. exact IH.
Qed.

(** ** Range checks *)

Lemma rangeCheckN_eval (n x : Z) :
  0 <= x < p -> 0 <= n -> n mod 16 = 0 ->
  rangeCheckN n x = if x <? 2 ^ n then Ok tt else Err RangeViolation.
Proof.
  intros Hx Hn Hmod. unfold rangeCheckN.
  rewrite Hmod. cbn [Z.eqb assert bind].
  rewrite segments16_digits.
  unfold rangeCheck16.
  rewrite forEach_rangeCheck by (apply digits_bound; lia).
  cbn [bind]. unfold reduce, Ffrom.
  rewrite (reduceFrom_weightedSum 16) by lia.
  rewrite weightedSum_digits by lia.
  assert (Hk : 16 * Z.of_nat (Z.to_nat (n / 16)) = n).
  { rewrite Z2Nat.id by (apply Z.div_pos; lia).
    pose proof (Z.div_mod n 16). lia. }
  rewrite Hk. rewrite Z.add_0_l.
  assert (Hpow : 0 < 2 ^ n) by (apply Z.pow_pos_nonneg; lia).
  pose proof (Z.mod_pos_bound x (2 ^ n) Hpow) as Hb.
  pose proof (Z.mod_le x (2 ^ n) ltac:(lia) Hpow) as Hle.
  rewrite (Z.mod_small (x mod 2 ^ n) p) by lia.
  destruct (Z.ltb_spec x (2 ^ n)) as [Hlt | Hge].
  - rewrite Z.mod_small by lia. now rewrite Z.eqb_refl.
  - destruct (Z.eqb_spec (x mod 2 ^ n) x); [lia | reflexivity].
Qed.

Lemma rangeCheckPrimitive_eval (w x : Z) :
  rangeCheckPrimitive w x = if x <? 2 ^ w then Ok tt else Err RangeViolation.
Proof. reflexivity. Qed.

(** C4 (amended).  For every positive multiple of 16 [n] and every
    native-field value [x], [rangeCheckN(n, x)] succeeds when the canonical
    representative of [x] is below [2^n] and raises a range violation when
    it is at least [2^n]; the fixed widths 8, 16, 32 and 64 behave the same
    through [rangeCheck8], [rangeCheck16], [rangeCheck32] and
    [rangeCheck64]; and a field element [p - k] close to the modulus is
    rejected whenever [2^n <= p - k]. *)
Theorem rangeCheckN_spec (x : Z) :
  0 <= x < p ->
  (forall n, 0 < n -> n mod 16 = 0 ->
     (x < 2 ^ n -> rangeCheckN n x = Ok tt) /\
     (2 ^ n <= x -> rangeCheckN n x = Err RangeViolation) /\
     (forall k, 0 < k <= p -> 2 ^ n <= p - k ->
        rangeCheckN n (p - k) = Err RangeViolation))
  /\ ((x < 2 ^ 8 -> rangeCheck8 x = Ok tt) /\
      (2 ^ 8 <= x -> rangeCheck8 x = Err RangeViolation))
  /\ ((x < 2 ^ 16 -> rangeCheck16 x = Ok tt) /\
      (2 ^ 16 <= x -> rangeCheck16 x = Err RangeViolation))
  /\ ((x < 2 ^ 32 -> rangeCheck32 x = Ok tt) /\
      (2 ^ 32 <= x -> rangeCheck32 x = Err RangeViolation))
  /\ ((x < 2 ^ 64 -> rangeCheck64 x = Ok tt) /\
      (2 ^ 64 <= x -> rangeCheck64 x = Err RangeViolation)).
Proof.
  intros Hx.
  assert (Hprim : forall w, (x < 2 ^ w -> rangeCheckPrimitive w x = Ok tt) /\
                            (2 ^ w <= x -> rangeCheckPrimitive w x = Err RangeViolation)).
  { intros w. rewrite rangeCheckPrimitive_eval.
    destruct (Z.ltb_spec x (2 ^ w)); split; intros; (reflexivity || lia). }
  assert (HN : forall n y, 0 <= y < p -> 0 < n -> n mod 16 = 0 ->
             (y < 2 ^ n -> rangeCheckN n y = Ok tt) /\
             (2 ^ n <= y -> rangeCheckN n y = Err RangeViolation)).
  { intros n y Hy Hn Hmod. rewrite rangeCheckN_eval by lia.
    destruct (Z.ltb_spec y (2 ^ n)); split; intros; (reflexivity || lia). }
  split; [|split; [|split; [|split]]].
  - intros n Hn Hmod. destruct (HN n x Hx Hn Hmod) as [H1 H2].
    split; [exact H1 | split; [exact H2 |]].
    intros k Hk Hbig. apply (HN n (p - k)); lia.
  - apply Hprim.
  - apply Hprim.
  - unfold rangeCheck32. apply (HN 32 x); [assumption | lia | reflexivity].
  - apply Hprim.
Qed.

(** C5.  For [xy < 2^176] and [z < 2^88], [compactMultiRangeCheck(xy, z)]
    succeeds and returns the split form [(a, b, z)] with
    [a + 2^88 * b = xy] and [a], [b], [z] in [[0, 2^88)]; it raises a range
    violation when [xy >= 2^176] or [z >= 2^88]. *)
Theorem compactMultiRangeCheck_spec (xy z : Z) :
  0 <= xy < p -> 0 <= z < p ->
  (xy < 2 ^ 176 -> z < 2 ^ 88 ->
     exists a b, compactMultiRangeCheck xy z = Ok (a, b, z)
                 /\ a + 2 ^ 88 * b = xy
                 /\ 0 <= a < 2 ^ 88 /\ 0 <= b < 2 ^ 88 /\ 0 <= z < 2 ^ 88)
  /\ (2 ^ 176 <= xy \/ 2 ^ 88 <= z ->
        compactMultiRangeCheck xy z = Err RangeViolation).
Proof.
  intros Hxy Hz.
  unfold compactMultiRangeCheck, multiRangeCheck, assertEquals, Fadd, Fmul, lMask, l.
  change (2 ^ 88 - 1) with (Z.ones 88).
  rewrite Z.land_ones, Z.shiftr_div_pow2, Z.shiftl_1_l by lia.
  rewrite Zplus_mod_idemp_r.
  pose proof (Z.div_mod xy (2 ^ 88) ltac:(lia)) as Hdm.
  pose proof (Z.mod_pos_bound xy (2 ^ 88) ltac:(lia)) as Hlo.
  replace (xy mod 2 ^ 88 + xy / 2 ^ 88 * 2 ^ 88) with xy by lia.
  rewrite (Z.mod_small xy p) by lia. rewrite Z.eqb_refl. cbn [bind].
  rewrite !rangeCheckPrimitive_eval.
  destruct (Z.ltb_spec (xy mod 2 ^ 88) (2 ^ 88)) as [_|]; [|lia]. cbn [bind].
  assert (Hq : 0 <= xy / 2 ^ 88) by (apply Z.div_pos; lia).
  split.
  - intros Hxy' Hz'.
    exists (xy mod 2 ^ 88), (xy / 2 ^ 88).
    assert (xy / 2 ^ 88 < 2 ^ 88)
      by (apply Z.div_lt_upper_bound; [lia | change (2 ^ 88 * 2 ^ 88) with (2 ^ 176); lia]).
    destruct (Z.ltb_spec (xy / 2 ^ 88) (2 ^ 88)); [|lia]. cbn [bind].
    destruct (Z.ltb_spec z (2 ^ 88)); [|lia]. cbn [bind].
    repeat split; lia.
  - intros Hbad.
    destruct (Z.ltb_spec (xy / 2 ^ 88) (2 ^ 88)) as [Hlt|]; [|reflexivity]. cbn [bind].
    destruct (Z.ltb_spec z (2 ^ 88)); [|reflexivity].
    exfalso. destruct Hbad as [Hbad|Hbad]; [|lia].
    assert (xy < 2 ^ 88 * 2 ^ 88) by nia.
    change (2 ^ 88 * 2 ^ 88) with (2 ^ 176) in *. lia.
Qed.

(** ** Bytes and words *)

Lemma bytesToWord_weightedSum (bs : list Z) :
  bytesToWord bs = weightedSum 8 0 bs mod p.
Proof.
  unfold bytesToWord, reduce, Ffrom.
  exact (reduceFrom_weightedSum 8 bs ltac:(lia) 0%nat 0).
Qed.

Lemma wordToBytes_eval (word : Z) (k : nat) :
  wordToBytes word k =
  (assertEquals (bytesToWord (digits 8 k word)) word ;;; Ok (digits 8 k word)).
Proof.
  unfold wordToBytes.
  change 255 with (2 ^ 8 - 1).
  rewrite (shift_mask_digits 8) by lia.
  rewrite Z.mul_0_r. change (2 ^ 0) with 1. rewrite Z.div_1_r.
  unfold UInt8_check, rangeCheck8.
  rewrite forEach_rangeCheck by (apply digits_bound; lia).
  reflexivity.
Qed.

Lemma bytesToWord_digits (word : Z) (k : nat) :
  0 <= word < p ->
  bytesToWord (digits 8 k word) = word mod 2 ^ (8 * Z.of_nat k).
Proof.
  intros Hw. rewrite bytesToWord_weightedSum, weightedSum_digits by lia.
  assert (Hpow : 0 < 2 ^ (8 * Z.of_nat k)) by (apply Z.pow_pos_nonneg; lia).
  pose proof (Z.mod_pos_bound word _ Hpow).
  pose proof (Z.mod_le word _ ltac:(lia) Hpow).
  apply Z.mod_small. lia.
Qed.

(** C10.  [wordToBytes(word, k)] succeeds exactly when the canonical value
    of [word] is below [2^(8k)]; on success it returns the [k] little-endian
    base-256 digits of [word]; otherwise the equality assertion
    [bytesToWord(bytes) == word] fails, the witnessed bytes reconstructing
    only [word mod 2^(8k)]. *)
Theorem wordToBytes_spec (word : Z) (k : nat) :
  0 <= word < p ->
  (word < 2 ^ (8 * Z.of_nat k) -> wordToBytes word k = Ok (digits 8 k word))
  /\ (2 ^ (8 * Z.of_nat k) <= word ->
        wordToBytes word k = Err ConstraintUnsatisfied
        /\ bytesToWord (digits 8 k word) = word mod 2 ^ (8 * Z.of_nat k)
        /\ word mod 2 ^ (8 * Z.of_nat k) <> word).
Proof.
  intros Hw. rewrite wordToBytes_eval, bytesToWord_digits by assumption.
  assert (Hpow : 0 < 2 ^ (8 * Z.of_nat k)) by (apply Z.pow_pos_nonneg; lia).
  pose proof (Z.mod_pos_bound word _ Hpow) as Hb.
  unfold assertEquals. split.
  - intros Hlt. rewrite Z.mod_small by lia. now rewrite Z.eqb_refl.
  - intros Hge.
    destruct (Z.eqb_spec (word mod 2 ^ (8 * Z.of_nat k)) word); [lia|].
    split; [reflexivity | split; [reflexivity | assumption]].
Qed.

(** C7 (amended).  For every sequence [B] of [k] bytes,
    [wordToBytes(bytesToWord(B), k)] succeeds and returns [B] exactly when
    the packed value [B[0] + 2^8 B[1] + ...] is below the native modulus
    [p], so that [bytesToWord] does not wrap around; in particular it does
    for every [k] with [2^(8k) <= p]. *)
Theorem wordToBytes_bytesToWord_roundtrip (B : list Z) :
  0 < p -> Forall (fun b => 0 <= b < 2 ^ 8) B ->
  (wordToBytes (bytesToWord B) (length B) = Ok B <-> weightedSum 8 0 B < p)
  /\ (2 ^ (8 * Z.of_nat (length B)) <= p ->
      wordToBytes (bytesToWord B) (length B) = Ok B).
Proof.
  intros Hp HB.
  pose proof (weightedSum_range 8 B ltac:(lia) HB) as Hr.
  assert (Hfwd : weightedSum 8 0 B < p ->
                 wordToBytes (bytesToWord B) (length B) = Ok B).
  { intros Hlt.
    assert (Hw : bytesToWord B = weightedSum 8 0 B).
    { rewrite bytesToWord_weightedSum. apply Z.mod_small. lia. }
    rewrite wordToBytes_eval, Hw.
    rewrite digits_weightedSum by (lia || assumption).
    rewrite Hw. unfold assertEquals. now rewrite Z.eqb_refl. }
  split; [split; [|exact Hfwd] | intros Hk; apply Hfwd; lia].
  intros Hok. rewrite wordToBytes_eval in Hok.
  pose proof (Z.mod_pos_bound (weightedSum 8 0 B) p Hp) as Hm.
  rewrite <- bytesToWord_weightedSum in Hm.
  destruct (assertEquals _ _); [|discriminate]. cbn [bind] in Hok.
  injection Hok as Hd.
  apply (f_equal (weightedSum 8 0)) in Hd.
  rewrite weightedSum_digits in Hd by lia.
  assert (Hpow : 0 < 2 ^ (8 * Z.of_nat (length B))) by (apply Z.pow_pos_nonneg; lia).
  pose proof (Z.mod_le (bytesToWord B) _ ltac:(lia) Hpow). lia.
Qed.

(** ** Division and addition modulo 2^32 *)

Lemma Ffrom_small (z : Z) : 0 <= z < p -> Ffrom z = z.
Proof. intros. unfold Ffrom. now apply Z.mod_small. Qed.

Lemma shift32_split (n : Z) :
  0 <= n ->
  Z.shiftr n 32 = n / 2 ^ 32 /\
  n - Z.shiftl (Z.shiftr n 32) 32 = n mod 2 ^ 32.
Proof.
  intros Hn. rewrite Z.shiftr_div_pow2, Z.shiftl_mul_pow2 by lia.
  split; [reflexivity|].
  pose proof (Z.div_mod n (2 ^ 32) ltac:(lia)). lia.
Qed.

Lemma divMod32_constant (n : Field) (quotientBits : Z) :
  isConstant n = true -> 0 <= toBigInt n < p ->
  divMod32 n quotientBits =
  if toBigInt n <? 2 ^ 64
  then Ok {| remainder := mkField true (toBigInt n mod 2 ^ 32);
             quotient := mkField true (toBigInt n / 2 ^ 32) |}
  else Err AssertionError.
Proof.
  intros Hc Hn. unfold divMod32. rewrite Hc.
  rewrite Z.shiftl_1_l.
  destruct (Z.ltb_spec (toBigInt n) (2 ^ 64)); [|reflexivity].
  cbn [assert bind].
  destruct (shift32_split (toBigInt n) ltac:(lia)) as [-> ->].
  unfold Field_new, Ffrom.
  pose proof (Z.mod_pos_bound (toBigInt n) (2 ^ 32) ltac:(lia)).
  pose proof (Z.mod_le (toBigInt n) (2 ^ 32) ltac:(lia) ltac:(lia)).
  assert (0 <= toBigInt n / 2 ^ 32 <= toBigInt n).
  { split; [apply Z.div_pos; lia | apply Z.div_le_upper_bound; nia]. }
  rewrite (Z.mod_small (toBigInt n / 2 ^ 32) p) by lia.
  rewrite (Z.mod_small (toBigInt n mod 2 ^ 32) p) by lia.
  reflexivity.
Qed.

Lemma divMod32_reassemble (n : Z) :
  0 <= n < p ->
  Fadd (Fmul (n / 2 ^ 32) (Ffrom (Z.shiftl 1 32))) (n mod 2 ^ 32) = n.
Proof.
  intros Hn. unfold Fadd, Fmul, Ffrom.
  rewrite Z.shiftl_1_l, Zmult_mod_idemp_r, Zplus_mod_idemp_l.
  pose proof (Z.div_mod n (2 ^ 32) ltac:(lia)).
  replace (n / 2 ^ 32 * 2 ^ 32 + n mod 2 ^ 32) with n by lia.
  apply Z.mod_small. lia.
Qed.

Lemma divMod32_variable (n : Field) (quotientBits : Z) :
  isConstant n = false -> 0 <= toBigInt n < p ->
  divMod32 n quotientBits =
  ((if quotientBits =? 1
    then Bool_check (toBigInt n / 2 ^ 32)
    else rangeCheckN quotientBits (toBigInt n / 2 ^ 32)) ;;;
   Ok {| remainder := mkField false (toBigInt n mod 2 ^ 32);
         quotient := mkField false (toBigInt n / 2 ^ 32) |}).
Proof.
  intros Hc Hn. unfold divMod32. rewrite Hc.
  destruct (shift32_split (toBigInt n) ltac:(lia)) as [-> ->].
  pose proof (Z.mod_pos_bound (toBigInt n) (2 ^ 32) ltac:(lia)).
  pose proof (Z.mod_le (toBigInt n) (2 ^ 32) ltac:(lia) ltac:(lia)).
  assert (0 <= toBigInt n / 2 ^ 32 <= toBigInt n).
  { split; [apply Z.div_pos; lia | apply Z.div_le_upper_bound; nia]. }
  unfold Field_witness, Field_add, Field_mul_bigint. cbn [toBigInt isConstant].
  rewrite !(Ffrom_small (toBigInt n / 2 ^ 32)) by lia.
  rewrite !(Ffrom_small (toBigInt n mod 2 ^ 32)) by lia.
  rewrite divMod32_reassemble by assumption.
  unfold assertEquals. rewrite Z.eqb_refl.
  unfold rangeCheck32.
  rewrite (rangeCheckN_eval 32 (toBigInt n mod 2 ^ 32)) by (reflexivity || lia).
  destruct (Z.ltb_spec (toBigInt n mod 2 ^ 32) (2 ^ 32)); [|lia].
  destruct (if quotientBits =? 1 then _ else _); reflexivity.
Qed.

Lemma Bool_check_eval (q : Z) :
  0 <= q -> q * q < p ->
  Bool_check q = if q <? 2 then Ok tt else Err ConstraintUnsatisfied.
Proof.
  intros Hq Hsq. unfold Bool_check, Fmul, Fsub.
  rewrite Zmult_mod_idemp_r.
  destruct (Z.ltb_spec q 2) as [Hlt | Hge].
  - assert (Hz : q * (q - 1) = 0) by nia. rewrite Hz.
    rewrite Zmod_0_l. reflexivity.
  - rewrite Z.mod_small by nia.
    destruct (Z.eqb_spec (q * (q - 1)) 0); [nia | reflexivity].
Qed.

(** C8.  For every [n < 2^64], constant or variable, [divMod32(n)] returns
    a pair with [quotient * 2^32 + remainder = n] and [remainder] in
    [[0, 2^32)]; for [n = (1 << 32) + 8] the remainder is 8 and the
    quotient is 1. *)
Theorem divMod32_spec (n : Field) :
  0 <= toBigInt n < p -> toBigInt n < 2 ^ 64 ->
  exists out,
    divMod32_default n = Ok out
    /\ toBigInt (quotient out) * 2 ^ 32 + toBigInt (remainder out) = toBigInt n
    /\ 0 <= toBigInt (remainder out) < 2 ^ 32
    /\ (toBigInt n = Z.shiftl 1 32 + 8 ->
        toBigInt (remainder out) = 8 /\ toBigInt (quotient out) = 1).
Proof.
  intros Hn H64. unfold divMod32_default.
  pose proof (Z.div_mod (toBigInt n) (2 ^ 32) ltac:(lia)) as Hdm.
  pose proof (Z.mod_pos_bound (toBigInt n) (2 ^ 32) ltac:(lia)) as Hr.
  assert (Hq : toBigInt n / 2 ^ 32 < 2 ^ 32)
    by (apply Z.div_lt_upper_bound; [lia | change (2 ^ 32 * 2 ^ 32) with (2 ^ 64); lia]).
  assert (Hq0 : 0 <= toBigInt n / 2 ^ 32) by (apply Z.div_pos; lia).
  assert (Hscen : toBigInt n = Z.shiftl 1 32 + 8 ->
                  toBigInt n mod 2 ^ 32 = 8 /\ toBigInt n / 2 ^ 32 = 1).
  { intros ->. split; reflexivity. }
  destruct (isConstant n) eqn:Hc.
  - rewrite divMod32_constant by assumption.
    destruct (Z.ltb_spec (toBigInt n) (2 ^ 64)); [|lia].
    eexists. split; [reflexivity|]. cbn [quotient remainder toBigInt].
    repeat split; try lia; apply Hscen; assumption.
  - rewrite divMod32_variable by assumption.
    change (32 =? 1) with false. cbv iota.
    rewrite rangeCheckN_eval by (reflexivity || lia).
    destruct (Z.ltb_spec (toBigInt n / 2 ^ 32) (2 ^ 32)); [|lia].
    eexists. split; [reflexivity|]. cbn [quotient remainder toBigInt].
    repeat split; try lia; apply Hscen; assumption.
Qed.

(** C9 (amended).  For [x], [y] in the documented range [[0, 2^64)]:
    when the sum is a variable of the circuit, [addMod32(x, y)] succeeds
    exactly when [x + y < 2^33], the boolean check on the quotient failing
    otherwise; when both inputs are constants, [divMod32] takes its
    constant branch, which asserts [x + y < 2^64] and applies no check to
    the quotient, so [addMod32] succeeds exactly when [x + y < 2^64].  In
    both cases the value returned on success is [(x + y) mod 2^32]. *)
Theorem addMod32_spec (x y : Field) :
  2 ^ 66 <= p ->
  0 <= toBigInt x < 2 ^ 64 -> 0 <= toBigInt y < 2 ^ 64 ->
  let s := toBigInt x + toBigInt y in
  (isConstant x && isConstant y = false ->
     (s < 2 ^ 33 ->
        addMod32 x y = Ok (mkField false (s mod 2 ^ 32)))
     /\ (2 ^ 33 <= s -> addMod32 x y = Err ConstraintUnsatisfied))
  /\ (isConstant x && isConstant y = true ->
     (s < 2 ^ 64 ->
        addMod32 x y = Ok (mkField true (s mod 2 ^ 32)))
     /\ (2 ^ 64 <= s -> addMod32 x y = Err AssertionError)).
Proof.
  intros Hp Hx Hy s.
  assert (Hs : toBigInt (Field_add x y) = s).
  { unfold Field_add, Fadd. cbn [toBigInt]. apply Z.mod_small. subst s. lia. }
  assert (Hsr : 0 <= s < p) by (subst s; lia).
  assert (Hq0 : 0 <= s / 2 ^ 32) by (apply Z.div_pos; lia).
  assert (Hq : s / 2 ^ 32 < 2 ^ 33)
    by (apply Z.div_lt_upper_bound; [lia | change (2 ^ 32 * 2 ^ 33) with (2 ^ 65); subst s; lia]).
  unfold addMod32. split; intros Hc.
  - rewrite divMod32_variable by (rewrite ?Hs; assumption).
    rewrite Hs. change (1 =? 1) with true. cbv iota.
    rewrite Bool_check_eval by nia.
    split; intros Hb.
    + assert (s / 2 ^ 32 < 2)
        by (apply Z.div_lt_upper_bound; [lia | change (2 ^ 32 * 2) with (2 ^ 33); lia]).
      destruct (Z.ltb_spec (s / 2 ^ 32) 2); [|lia]. reflexivity.
    + assert (2 <= s / 2 ^ 32)
        by (apply Z.div_le_lower_bound; [lia | change (2 ^ 32 * 2) with (2 ^ 33); lia]).
      destruct (Z.ltb_spec (s / 2 ^ 32) 2); [lia|]. reflexivity.
  - rewrite divMod32_constant by (rewrite ?Hs; assumption).
    rewrite Hs.
    split; intros Hb.
    + destruct (Z.ltb_spec s (2 ^ 64)); [|lia]. reflexivity.
    + destruct (Z.ltb_spec s (2 ^ 64)); [lia|]. reflexivity.
Qed.

(** ** The almost-reduced bound *)

Lemma almostReducedBound_value (x2 f2 : Z) :
  almostReducedBound x2 f2 = (2 ^ 88 - x2 - (f2 + 1)) mod p.
Proof.
  unfold almostReducedBound, Fsub, Ffrom, l.
  rewrite (Zminus_mod_idemp_l (2 ^ 88) x2 p).
  rewrite Zminus_mod_idemp_l, Zminus_mod_idemp_r.
  reflexivity.
Qed.

(** C1 (amended).  For limbs [x2], [f2] in [[0, 2^88)], the 88-bit range
    check on [2^88 - x2 - (f2 + 1)] passes exactly when [x2 + f2 < 2^88],
    that is [x2 <= 2^88 - 1 - f2]: it bounds [x2] by the complement of
    [f2], not by [f2].  The bound [x2 <= f2] is what the 88-bit check on
    [x2 + 2^88 - (f2 + 1)] proves. *)
Theorem almostReducedBound_check (x2 f2 : Z) :
  2 ^ 89 <= p -> 0 <= x2 < 2 ^ 88 -> 0 <= f2 < 2 ^ 88 ->
  (rangeCheckPrimitive l (almostReducedBound x2 f2) = Ok tt <-> x2 + f2 < 2 ^ 88)
  /\ (rangeCheckPrimitive l (Fsub (Fadd x2 (Ffrom (2 ^ l))) (Ffrom (f2 + 1))) = Ok tt
      <-> x2 <= f2).
Proof.
  intros Hp Hx Hf. split.
  - rewrite almostReducedBound_value, rangeCheckPrimitive_eval. unfold l.
    destruct (Z_lt_le_dec (x2 + f2) (2 ^ 88)) as [Hlt | Hge].
    + rewrite Z.mod_small by lia.
      destruct (Z.ltb_spec (2 ^ 88 - x2 - (f2 + 1)) (2 ^ 88)); [|lia].
      split; [intros _; assumption | reflexivity].
    + replace ((2 ^ 88 - x2 - (f2 + 1)) mod p) with (2 ^ 88 - x2 - (f2 + 1) + p).
      * destruct (Z.ltb_spec (2 ^ 88 - x2 - (f2 + 1) + p) (2 ^ 88)); [lia|].
        split; [discriminate | lia].
      * apply Z.mod_unique with (q := -1); lia.
  - unfold Fsub, Fadd, Ffrom, l.
    rewrite Zplus_mod_idemp_r, Zminus_mod_idemp_l, Zminus_mod_idemp_r.
    rewrite Z.mod_small by lia.
    rewrite rangeCheckPrimitive_eval.
    destruct (Z.ltb_spec (x2 + 2 ^ 88 - (f2 + 1)) (2 ^ 88)); split; intros;
      (reflexivity || discriminate || lia).
Qed.

(** ** Limb tuples *)

Lemma Field3_toBigint_value (x0 x1 x2 : Z) :
  Field3_toBigint (x0, x1, x2) = x0 + 2 ^ 88 * x1 + 2 ^ 176 * x2.
Proof.
  unfold Field3_toBigint, l, l2. rewrite !Z.shiftl_mul_pow2 by lia. ring.
Qed.

Lemma Field3_from_spec (v : Z) :
  0 <= v < 2 ^ 264 ->
  exists v0 v1 v2,
    Field3_from v = (v0, v1, v2)
    /\ 0 <= v0 < 2 ^ 88 /\ 0 <= v1 < 2 ^ 88 /\ 0 <= v2 < 2 ^ 88
    /\ v = v0 + 2 ^ 88 * v1 + 2 ^ 176 * v2.
Proof.
  intros Hv. unfold Field3_from, lMask, l, l2.
  change (2 ^ 88 - 1) with (Z.ones 88).
  rewrite !Z.land_ones, !Z.shiftr_div_pow2 by lia.
  eexists _, _, _. split; [reflexivity|].
  pose proof (Z.mod_pos_bound v (2 ^ 88) ltac:(lia)) as H0.
  pose proof (Z.mod_pos_bound (v / 2 ^ 88) (2 ^ 88) ltac:(lia)) as H1.
  pose proof (Z.mod_pos_bound (v / 2 ^ 176) (2 ^ 88) ltac:(lia)) as H2.
  pose proof (Z.div_mod v (2 ^ 88) ltac:(lia)) as E0.
  pose proof (Z.div_mod (v / 2 ^ 88) (2 ^ 88) ltac:(lia)) as E1.
  assert (E2 : v / 2 ^ 88 / 2 ^ 88 = v / 2 ^ 176)
    by (rewrite Z.div_div by lia; reflexivity).
  assert (Hsmall : 0 <= v / 2 ^ 176 < 2 ^ 88).
  { split; [apply Z.div_pos; lia|].
    apply Z.div_lt_upper_bound; [lia|]. change (2 ^ 176 * 2 ^ 88) with (2 ^ 264). lia. }
  rewrite (Z.mod_small (v / 2 ^ 176)) in * by lia.
  repeat split; lia.
Qed.

Lemma Field3_toBigint_from (v : Z) :
  0 <= v < 2 ^ 264 -> Field3_toBigint (Field3_from v) = v.
Proof.
  intros Hv. destruct (Field3_from_spec v Hv) as (v0 & v1 & v2 & -> & _ & _ & _ & E).
  rewrite Field3_toBigint_value. lia.
Qed.

Lemma witness3_small (x : Field3) :
  2 ^ 88 <= p -> rangeChecked x -> witness3 x = x.
Proof.
  destruct x as [[x0 x1] x2]. unfold rangeChecked, rangeChecked, witness3, l.
  intros Hp (H0 & H1 & H2). now rewrite !Ffrom_small by lia.
Qed.

Lemma multiRangeCheck_ok (x : Field3) :
  rangeChecked x -> multiRangeCheck x = Ok tt.
Proof.
  destruct x as [[x0 x1] x2]. unfold rangeChecked, multiRangeCheck.
  intros (H0 & H1 & H2). rewrite !rangeCheckPrimitive_eval.
  destruct (Z.ltb_spec x0 (2 ^ l)); [|lia].
  destruct (Z.ltb_spec x1 (2 ^ l)); [|lia].
  destruct (Z.ltb_spec x2 (2 ^ l)); [|lia].
  reflexivity.
Qed.

(** ** Foreign-field addition *)

Lemma foreignFieldAdd_ok (a0 a1 a2 b0 b1 b2 f0 f1 f2 r0 r1 r2 ov c s : Z) :
  (a0 + 2 ^ 88 * a1 + s * (b0 + 2 ^ 88 * b1) - ov * (f0 + 2 ^ 88 * f1)
   - c * 2 ^ 176 - (r0 + 2 ^ 88 * r1)) mod p = 0 ->
  (a2 + s * b2 - ov * f2 + c - r2) mod p = 0 ->
  ov = 0 \/ ov = s ->
  -1 <= c <= 1 ->
  foreignFieldAdd (a0, a1, a2) (b0, b1, b2) ov c (f0, f1, f2) s (r0, r1, r2) = Ok tt.
Proof.
  intros E1 E2 Hov Hc. unfold foreignFieldAdd, l, l2.
  rewrite !Z.shiftl_mul_pow2 by lia.
  replace (a0 + a1 * 2 ^ 88 + s * (b0 + b1 * 2 ^ 88) - ov * (f0 + f1 * 2 ^ 88)
           - c * (1 * 2 ^ 176) - (r0 + r1 * 2 ^ 88))
    with (a0 + 2 ^ 88 * a1 + s * (b0 + 2 ^ 88 * b1) - ov * (f0 + 2 ^ 88 * f1)
          - c * 2 ^ 176 - (r0 + 2 ^ 88 * r1)) by ring.
  rewrite E1, E2. cbn [Z.eqb andb].
  assert (Hov' : (ov =? 0) || (ov =? s) = true).
  { destruct Hov as [-> | ->]; [reflexivity|].
    rewrite Z.eqb_refl. apply orb_true_r. }
  assert (Hc' : (c =? 0) || (c =? 1) || (c =? -1) = true).
  { assert (c = 0 \/ c = 1 \/ c = -1) as [-> | [-> | ->]] by lia; reflexivity. }
  rewrite Hov', Hc'. reflexivity.
Qed.

Lemma overflowOf_cases (s f r : Z) :
  s = 1 \/ s = -1 ->
  (s = 1 /\ f <= r /\ overflowOf s f r = 1)
  \/ (s = 1 /\ r < f /\ overflowOf s f r = 0)
  \/ (s = -1 /\ r < 0 /\ overflowOf s f r = -1)
  \/ (s = -1 /\ 0 <= r /\ overflowOf s f r = 0).
Proof.
  unfold overflowOf. intros [-> | ->]; cbn [Z.eqb andb].
  - destruct (Z.leb_spec f r); [left | right; left]; auto.
  - destruct (Z.ltb_spec r 0); right; right; [left | right]; auto.
Qed.

Lemma singleAdd_eval (x y : Field3) (s f : Z) :
  2 ^ 88 <= p -> rangeChecked x -> rangeChecked y -> 0 <= f < 2 ^ 264 ->
  s = 1 \/ s = -1 ->
  exists r0 r1 r2,
    singleAdd x y s f = Ok (r0, r1, r2 mod p)
    /\ 0 <= r0 < 2 ^ 88 /\ 0 <= r1 < 2 ^ 88
    /\ r0 + 2 ^ 88 * r1 + 2 ^ 176 * r2
       = Field3_toBigint x + s * Field3_toBigint y
         - overflowOf s f (Field3_toBigint x + s * Field3_toBigint y) * f.
Proof.
  destruct x as [[x0 x1] x2], y as [[y0 y1] y2].
  unfold rangeChecked, l. intros Hp (Hx0 & Hx1 & Hx2) (Hy0 & Hy1 & Hy2) Hf Hs.
  destruct (Field3_from_spec f Hf) as (f0 & f1 & f2 & Ef & Hf0 & Hf1 & Hf2 & Efv).
  unfold singleAdd. rewrite Ef.
  rewrite !Field3_toBigint_value.
  set (R := x0 + 2 ^ 88 * x1 + 2 ^ 176 * x2 + s * (y0 + 2 ^ 88 * y1 + 2 ^ 176 * y2)).
  set (ov := overflowOf s f R).
  assert (Hov : (s = 1 /\ (ov = 0 \/ ov = 1)) \/ (s = -1 /\ (ov = 0 \/ ov = -1))).
  { destruct (overflowOf_cases s f R Hs) as [H | [H | [H | H]]];
      destruct H as (Es & _ & Eo); fold ov in Eo; rewrite Es, Eo; auto. }
  unfold l, l2, l2Mask, lMask.
  change (2 ^ 176 - 1) with (Z.ones 176). change (2 ^ 88 - 1) with (Z.ones 88).
  rewrite !Z.land_ones, !Z.shiftr_div_pow2, !Z.shiftl_mul_pow2 by lia.
  set (r01 := x0 + x1 * 2 ^ 88 + s * (y0 + y1 * 2 ^ 88) - ov * (f0 + f1 * 2 ^ 88)).
  pose proof (Z.div_mod r01 (2 ^ 176) ltac:(lia)) as D01.
  pose proof (Z.mod_pos_bound r01 (2 ^ 176) ltac:(lia)) as B01.
  pose proof (Z.div_mod (r01 mod 2 ^ 176) (2 ^ 88) ltac:(lia)) as D0.
  pose proof (Z.mod_pos_bound (r01 mod 2 ^ 176) (2 ^ 88) ltac:(lia)) as B0.
  assert (B1 : 0 <= r01 mod 2 ^ 176 / 2 ^ 88 < 2 ^ 88).
  { split; [apply Z.div_pos; lia|].
    apply Z.div_lt_upper_bound; [lia|]. change (2 ^ 88 * 2 ^ 88) with (2 ^ 176). lia. }
  assert (Hr01 : r01 = x0 + 2 ^ 88 * x1 + s * (y0 + 2 ^ 88 * y1) - ov * (f0 + 2 ^ 88 * f1))
    by (subst r01; ring).
  assert (Bc : -1 <= r01 / 2 ^ 176 <= 1).
  { destruct Hov as [(Es & [Eo | Eo]) | (Es & [Eo | Eo])];
      rewrite Es, Eo in Hr01; lia. }
  exists ((r01 mod 2 ^ 176) mod 2 ^ 88), (r01 mod 2 ^ 176 / 2 ^ 88),
         (x2 + s * y2 - ov * f2 + r01 / 2 ^ 176).
  unfold witness3.
  rewrite (Ffrom_small ((r01 mod 2 ^ 176) mod 2 ^ 88)) by lia.
  rewrite (Ffrom_small (r01 mod 2 ^ 176 / 2 ^ 88)) by lia.
  unfold Ffrom.
  rewrite foreignFieldAdd_ok.
  - cbn [bind]. split; [reflexivity|]. split; [lia|]. split; [lia|].
    subst R. rewrite Efv.
    destruct Hov as [(Es & [Eo | Eo]) | (Es & [Eo | Eo])];
      rewrite Es, Eo in *; lia.
  - rewrite <- Hr01.
    replace (r01 - r01 / 2 ^ 176 * 2 ^ 176
             - ((r01 mod 2 ^ 176) mod 2 ^ 88 + 2 ^ 88 * (r01 mod 2 ^ 176 / 2 ^ 88)))
      with 0 by lia.
    apply Zmod_0_l.
  - rewrite Zminus_mod_idemp_r, Z.sub_diag. apply Zmod_0_l.
  - destruct Hov as [(Es & [Eo | Eo]) | (Es & [Eo | Eo])]; rewrite Es, Eo; auto.
  - exact Bc.
Qed.

Lemma Field3_toBigint_range (x : Field3) :
  rangeChecked x -> 0 <= Field3_toBigint x < 2 ^ 264.
Proof.
  destruct x as [[x0 x1] x2]. unfold rangeChecked, l. intros (H0 & H1 & H2).
  rewrite Field3_toBigint_value. lia.
Qed.

Lemma Field3_from_toBigint (x : Field3) :
  rangeChecked x -> Field3_from (Field3_toBigint x) = x.
Proof.
  intros Hx. pose proof (Field3_toBigint_range x Hx) as Hr.
  destruct (Field3_from_spec _ Hr) as (v0 & v1 & v2 & Ev & H0 & H1 & H2 & Evv).
  rewrite Ev. destruct x as [[x0 x1] x2]. unfold rangeChecked, l in Hx.
  rewrite Field3_toBigint_value in Evv.
  assert (v0 = x0 /\ v1 = x1 /\ v2 = x2) as (-> & -> & ->) by lia.
  reflexivity.
Qed.

Lemma Field3_from_rangeChecked (v : Z) :
  0 <= v < 2 ^ 264 -> rangeChecked (Field3_from v).
Proof.
  intros Hv. destruct (Field3_from_spec v Hv) as (v0 & v1 & v2 & -> & H0 & H1 & H2 & _).
  unfold rangeChecked, l. lia.
Qed.

(** ** Limb tuples of the circuit *)

Lemma Fields3_variables_toBigints (r : Field3) :
  Fields3_toBigints (Fields3_variables r) = r.
Proof. destruct r as [[r0 r1] r2]. reflexivity. Qed.

Lemma Fields3_variables_isConstant (r : Field3) :
  Fields3_isConstant (Fields3_variables r) = false.
Proof. destruct r as [[r0 r1] r2]. reflexivity. Qed.

Lemma Fields3_from_isConstant (v : Z) : Fields3_isConstant (Fields3_from v) = true.
Proof.
  unfold Fields3_from. destruct (Field3_from v) as [[v0 v1] v2]. reflexivity.
Qed.

Lemma Fields3_from_toBigints (v : Z) :
  2 ^ 88 <= p -> 0 <= v < 2 ^ 264 -> Fields3_toBigints (Fields3_from v) = Field3_from v.
Proof.
  intros Hp Hv. unfold Fields3_from.
  destruct (Field3_from_spec v Hv) as (v0 & v1 & v2 & -> & H0 & H1 & H2 & _).
  cbn [Fields3_toBigints Field_new toBigInt].
  now rewrite !Ffrom_small by lia.
Qed.

Lemma Fields3_from_toBigint (v : Z) :
  2 ^ 88 <= p -> 0 <= v < 2 ^ 264 -> Fields3_toBigint (Fields3_from v) = v.
Proof.
  intros Hp Hv. unfold Fields3_toBigint.
  rewrite Fields3_from_toBigints by assumption. now apply Field3_toBigint_from.
Qed.

(** ** Signed sums *)

Lemma sum_pair_constants (x y : Fields3) (s f : Z) :
  Fields3_isConstant x && Fields3_isConstant y = true ->
  sum [x; y] [s] f
  = Ok (Fields3_from ((Fields3_toBigint x + s * Fields3_toBigint y) mod f)).
Proof.
  intros Hc. unfold sum. cbn [length Nat.add Nat.eqb assert bind forallb map signedSum].
  rewrite andb_true_r, Hc. reflexivity.
Qed.

Lemma sum_pair_eval (x y : Fields3) (s f : Z) :
  2 ^ 90 <= p ->
  rangeChecked (Fields3_toBigints x) -> rangeChecked (Fields3_toBigints y) ->
  0 <= f < 2 ^ 264 -> s = 1 \/ s = -1 ->
  Fields3_isConstant x && Fields3_isConstant y = false ->
  let R := Fields3_toBigint x + s * Fields3_toBigint y
           - overflowOf s f (Fields3_toBigint x + s * Fields3_toBigint y) * f in
  (0 <= R < 2 ^ 264 -> sum [x; y] [s] f = Ok (Fields3_variables (Field3_from R)))
  /\ (~ 0 <= R < 2 ^ 264 -> sum [x; y] [s] f = Err RangeViolation).
Proof.
  intros Hp Hx Hy Hf Hs Hc R. unfold Fields3_toBigint in R.
  destruct (singleAdd_eval _ _ s f ltac:(lia) Hx Hy Hf Hs)
    as (r0 & r1 & r2 & Hsa & Hr0 & Hr1 & HR).
  fold R in HR.
  pose proof (Field3_toBigint_range _ Hx) as BX.
  pose proof (Field3_toBigint_range _ Hy) as BY.
  assert (BR : - 2 ^ 265 < R < 2 ^ 265).
  { subst R.
    destruct (overflowOf_cases s f
                (Field3_toBigint (Fields3_toBigints x)
                 + s * Field3_toBigint (Fields3_toBigints y)) Hs)
      as [H | [H | [H | H]]]; destruct H as (Es & _ & Eo); rewrite Eo, Es; lia. }
  unfold sum. cbn [length Nat.add Nat.eqb assert bind forallb map sumChain].
  rewrite andb_true_r, Hc, Hsa. cbn [bind].
  unfold multiRangeCheck. rewrite !rangeCheckPrimitive_eval. unfold l.
  destruct (Z.ltb_spec r0 (2 ^ 88)); [|lia].
  destruct (Z.ltb_spec r1 (2 ^ 88)); [|lia]. cbn [bind].
  split.
  - intros HRr. assert (0 <= r2 < 2 ^ 88) by lia.
    rewrite (Z.mod_small r2 p) by lia.
    destruct (Z.ltb_spec r2 (2 ^ 88)); [|lia]. cbn [bind].
    do 2 f_equal. rewrite <- HR, <- Field3_toBigint_value.
    symmetry. apply Field3_from_toBigint. unfold rangeChecked, l. lia.
  - intros HRr.
    destruct (Z_lt_le_dec r2 0) as [Hneg | Hpos].
    + replace (r2 mod p) with (r2 + p)
        by (apply Z.mod_unique with (q := -1); lia).
      destruct (Z.ltb_spec (r2 + p) (2 ^ 88)); [lia | reflexivity].
    + rewrite (Z.mod_small r2 p) by lia.
      destruct (Z.ltb_spec r2 (2 ^ 88)); [lia | reflexivity].
Qed.

Lemma almostReduced_bound (x : Field3) (f : Z) :
  almostReduced x f -> 0 <= f < 2 ^ 264 ->
  rangeChecked x /\ Field3_toBigint x < (f / 2 ^ 176 + 1) * 2 ^ 176.
Proof.
  intros (Hr & Hle) Hf. split; [assumption|].
  unfold limb2, Field3_from, lMask, l2 in Hle. cbn [snd] in Hle.
  change (2 ^ 88 - 1) with (Z.ones 88) in Hle.
  rewrite Z.land_ones, Z.shiftr_div_pow2 in Hle by lia.
  assert (Hf2 : 0 <= f / 2 ^ 176 < 2 ^ 88).
  { split; [apply Z.div_pos; lia|].
    apply Z.div_lt_upper_bound; [lia|]. change (2 ^ 176 * 2 ^ 88) with (2 ^ 264). lia. }
  rewrite Z.mod_small in Hle by lia.
  destruct x as [[x0 x1] x2]. unfold rangeChecked, l in Hr.
  rewrite Field3_toBigint_value. cbn [snd] in Hle. lia.
Qed.

(** ** Foreign-field multiplication *)

Lemma limb_product_bound (a b : Z) :
  0 <= a < 2 ^ 88 -> 0 <= b < 2 ^ 88 -> 0 <= a * b <= (2 ^ 88 - 1) * (2 ^ 88 - 1).
Proof. intros Ha Hb. split; [nia|]. apply Z.mul_le_mono_nonneg; lia. Qed.

(** The carries of the limb-wise identity: when the limbs satisfy
    [a * b + q * f' = q * 2^264 + r] over the integers, the two low product
    terms leave a carry of two bits and the third one a carry of 91 bits. *)
Lemma mul_carries (a0 a1 a2 b0 b1 b2 q0 q1 q2 g0 g1 g2 r01 r2 p10 p110 p111 : Z) :
  0 <= a0 < 2 ^ 88 -> 0 <= a1 < 2 ^ 88 -> 0 <= a2 < 2 ^ 88 ->
  0 <= b0 < 2 ^ 88 -> 0 <= b1 < 2 ^ 88 -> 0 <= b2 < 2 ^ 88 ->
  0 <= q0 < 2 ^ 88 -> 0 <= q1 < 2 ^ 88 -> 0 <= q2 < 2 ^ 88 ->
  0 <= g0 < 2 ^ 88 -> 0 <= g1 < 2 ^ 88 -> 0 <= g2 < 2 ^ 88 ->
  0 <= r01 < 2 ^ 176 -> 0 <= r2 < 2 ^ 88 ->
  0 <= p10 < 2 ^ 88 -> 0 <= p110 < 2 ^ 88 -> 0 <= p111 ->
  a0 * b1 + a1 * b0 + q0 * g1 + q1 * g0 = p10 + 2 ^ 88 * p110 + 2 ^ 176 * p111 ->
  (a0 + 2 ^ 88 * a1 + 2 ^ 176 * a2) * (b0 + 2 ^ 88 * b1 + 2 ^ 176 * b2)
  + (q0 + 2 ^ 88 * q1 + 2 ^ 176 * q2) * (g0 + 2 ^ 88 * g1 + 2 ^ 176 * g2)
  = 2 ^ 264 * (q0 + 2 ^ 88 * q1 + 2 ^ 176 * q2) + r01 + 2 ^ 176 * r2 ->
  exists c0 c1,
    0 <= c0 < 4 /\ 0 <= c1 < 2 ^ 91 /\ p111 < 4
    /\ a0 * b0 + q0 * g0 + 2 ^ 88 * p10 - r01 = 2 ^ 176 * c0
    /\ a0 * b2 + a1 * b1 + a2 * b0 + q0 * g2 + q1 * g1 + q2 * g0
       + (p110 + 2 ^ 88 * p111) + c0 - r2 = 2 ^ 88 * c1.
Proof.
  intros Ha0 Ha1 Ha2 Hb0 Hb1 Hb2 Hq0 Hq1 Hq2 Hg0 Hg1 Hg2 Hr01 Hr2 Hp10 Hp110 Hp111 E1 E.
  pose proof (limb_product_bound a0 b0 Ha0 Hb0) as M00.
  pose proof (limb_product_bound a0 b1 Ha0 Hb1) as M01.
  pose proof (limb_product_bound a0 b2 Ha0 Hb2) as M02.
  pose proof (limb_product_bound a1 b0 Ha1 Hb0) as M10.
  pose proof (limb_product_bound a1 b1 Ha1 Hb1) as M11.
  pose proof (limb_product_bound a1 b2 Ha1 Hb2) as M12.
  pose proof (limb_product_bound a2 b0 Ha2 Hb0) as M20.
  pose proof (limb_product_bound a2 b1 Ha2 Hb1) as M21.
  pose proof (limb_product_bound a2 b2 Ha2 Hb2) as M22.
  pose proof (limb_product_bound q0 g0 Hq0 Hg0) as N00.
  pose proof (limb_product_bound q0 g1 Hq0 Hg1) as N01.
  pose proof (limb_product_bound q0 g2 Hq0 Hg2) as N02.
  pose proof (limb_product_bound q1 g0 Hq1 Hg0) as N10.
  pose proof (limb_product_bound q1 g1 Hq1 Hg1) as N11.
  pose proof (limb_product_bound q1 g2 Hq1 Hg2) as N12.
  pose proof (limb_product_bound q2 g0 Hq2 Hg0) as N20.
  pose proof (limb_product_bound q2 g1 Hq2 Hg1) as N21.
  pose proof (limb_product_bound q2 g2 Hq2 Hg2) as N22.
  set (P2 := a0 * b2 + a1 * b1 + a2 * b0 + q0 * g2 + q1 * g1 + q2 * g0) in *.
  set (P3 := a1 * b2 + a2 * b1 + q1 * g2 + q2 * g1).
  set (P4 := a2 * b2 + q2 * g2).
  set (Q := q0 + 2 ^ 88 * q1 + 2 ^ 176 * q2) in *.
  assert (Eexp : a0 * b0 + q0 * g0
                 + 2 ^ 88 * (a0 * b1 + a1 * b0 + q0 * g1 + q1 * g0)
                 + 2 ^ 176 * P2 + 2 ^ 264 * P3 + 2 ^ 352 * P4
                 = 2 ^ 264 * Q + r01 + 2 ^ 176 * r2).
  { rewrite <- E. subst P2 P3 P4 Q. ring. }
  assert (B3 : p111 < 4) by lia.
  rewrite E1 in Eexp. clear E E1.
  exists (r2 + 2 ^ 88 * Q - p110 - 2 ^ 88 * p111 - P2 - 2 ^ 88 * P3 - 2 ^ 176 * P4),
         (Q - P3 - 2 ^ 88 * P4).
  assert (BP2 : 0 <= P2 <= 6 * ((2 ^ 88 - 1) * (2 ^ 88 - 1))) by (subst P2; lia).
  assert (BP34 : 0 <= P3 + 2 ^ 88 * P4) by (subst P3 P4; lia).
  clearbody P2 P3 P4 Q.
  clear M01 M02 M10 M11 M12 M20 M21 M22 N01 N02 N10 N11 N12 N20 N21 N22.
  repeat split; lia.
Qed.
Lemma map_Ffrom_small (ds : list Z) :
  Forall (fun d => 0 <= d < p) ds -> map Ffrom ds = ds.
Proof.
  induction 1 as [|d rest Hd _ IH]; cbn [map]; [reflexivity|].
  now rewrite IH, Ffrom_small.
Qed.

(** The eleven slices of the second carry: seven of 12 bits, three of two
    bits and a last bit recombine to a carry below [2^91]. *)
Lemma carry1_slices (c1 : Z) :
  0 <= c1 < 2 ^ 91 ->
  let c1p := [bitSlice c1 0 12; bitSlice c1 12 12; bitSlice c1 24 12;
              bitSlice c1 36 12; bitSlice c1 48 12; bitSlice c1 60 12;
              bitSlice c1 72 12] in
  let c1c := [bitSlice c1 84 2; bitSlice c1 86 2; bitSlice c1 88 2;
              bitSlice c1 90 1] in
  weightedSum 12 0 c1p + 2 ^ 84 * weightedSum 2 0 c1c = c1
  /\ Forall (fun d => 0 <= d < 2 ^ 12) c1p
  /\ Forall (fun d => 0 <= d < 4) (firstn 3 c1c)
  /\ Forall (fun d => 0 <= d < 2) (skipn 3 c1c)
  /\ Forall (fun d => 0 <= d < 4) c1c.
Proof.
  intros Hc c1p c1c.
  assert (Ep : c1p = digits 12 7 c1).
  { pose proof (shift_mask_digits 12 c1 7 ltac:(lia) 0%nat) as H.
    change (2 ^ (12 * Z.of_nat 0)) with 1 in H. rewrite Z.div_1_r in H.
    rewrite <- H. reflexivity. }
  assert (Ec : firstn 3 c1c = digits 2 3 (c1 / 2 ^ 84)).
  { subst c1c. change (2 ^ 84) with (2 ^ (2 * Z.of_nat 42)).
    rewrite <- (shift_mask_digits 2 c1 3 ltac:(lia) 42%nat). reflexivity. }
  assert (Eb : bitSlice c1 90 1 = (c1 / 2 ^ 90) mod 2).
  { unfold bitSlice. change (Z.shiftl 1 1 - 1) with (Z.ones 1).
    rewrite Z.land_ones, Z.shiftr_div_pow2 by lia. reflexivity. }
  assert (Hhi : 0 <= c1 / 2 ^ 90 < 2).
  { split; [apply Z.div_pos; lia|]. apply Z.div_lt_upper_bound; lia. }
  assert (E84 : 0 <= c1 / 2 ^ 84) by (apply Z.div_pos; lia).
  assert (Ews : weightedSum 2 0 c1c
                = weightedSum 2 0 (firstn 3 c1c) + 2 ^ 6 * bitSlice c1 90 1).
  { subst c1c. cbn [firstn weightedSum]. cbn [Z.of_nat Z.mul Pos.of_succ_nat Pos.succ].
    lia. }
  assert (Hbit : 0 <= bitSlice c1 90 1 < 2)
    by (rewrite Eb; apply Z.mod_pos_bound; lia).
  assert (Hcr : Forall (fun d => 0 <= d < 4) (firstn 3 c1c))
    by (rewrite Ec; apply (digits_bound 2 3); lia).
  split; [|split; [|split; [|split]]].
  - rewrite Ews, Ep, Ec, Eb, !weightedSum_digits by lia.
    change (2 ^ (12 * Z.of_nat 7)) with (2 ^ 84).
    change (2 ^ (2 * Z.of_nat 3)) with (2 ^ 6).
    rewrite (Z.mod_small (c1 / 2 ^ 90)) by lia.
    pose proof (Z.div_mod c1 (2 ^ 84) ltac:(lia)) as D1.
    pose proof (Z.div_mod (c1 / 2 ^ 84) (2 ^ 6) ltac:(lia)) as D2.
    rewrite Z.div_div in D2 by lia. change (2 ^ 84 * 2 ^ 6) with (2 ^ 90) in D2.
    lia.
  - rewrite Ep. apply digits_bound. lia.
  - exact Hcr.
  - subst c1c. cbn [skipn]. constructor; [exact Hbit | constructor].
  - subst c1c. cbn [firstn] in Hcr.
    inversion Hcr as [|d0 t0 H0 Hcr1]; subst.
    inversion Hcr1 as [|d1 t1 H1 Hcr2]; subst.
    inversion Hcr2 as [|d2 t2 H2 _]; subst.
    repeat constructor; lia.
Qed.

Lemma forallb_ltb (bound : Z) (ds : list Z) :
  Forall (fun d => 0 <= d < bound) ds -> forallb (fun c => c <? bound) ds = true.
Proof.
  induction 1 as [|d rest Hd _ IH]; cbn [forallb]; [reflexivity|].
  rewrite IH, andb_true_r. apply Z.ltb_lt. lia.
Qed.

Lemma foreignFieldMul_ok
      (a0 a1 a2 b0 b1 b2 r01 r2 q0 q1 q2 qb p10 p110 p111 c0 c1 f2 g0 g1 g2 : Z)
      (c1p c1c : list Z) :
  a0 * b1 + a1 * b0 + q0 * g1 + q1 * g0 = p10 + 2 ^ 88 * p110 + 2 ^ 176 * p111 ->
  p111 < 4 ->
  a0 * b0 + q0 * g0 + 2 ^ 88 * p10 - r01 = 2 ^ 176 * c0 ->
  c0 < 4 ->
  a0 * b2 + a1 * b1 + a2 * b0 + q0 * g2 + q1 * g1 + q2 * g0
  + (p110 + 2 ^ 88 * p111) + c0 - r2 = 2 ^ 88 * c1 ->
  weightedSum 12 0 c1p + 2 ^ 84 * weightedSum 2 0 c1c = c1 ->
  Forall (fun d => 0 <= d < 2 ^ 12) c1p ->
  Forall (fun d => 0 <= d < 4) (firstn 3 c1c) ->
  Forall (fun d => 0 <= d < 2) (skipn 3 c1c) ->
  qb = q2 + 2 ^ 88 - f2 - 1 ->
  (a0 + 2 ^ 88 * a1 + 2 ^ 176 * a2) * (b0 + 2 ^ 88 * b1 + 2 ^ 176 * b2)
  + (q0 + 2 ^ 88 * q1 + 2 ^ 176 * q2) * (g0 + 2 ^ 88 * g1 + 2 ^ 176 * g2)
  = 2 ^ 264 * (q0 + 2 ^ 88 * q1 + 2 ^ 176 * q2) + r01 + 2 ^ 176 * r2 ->
  foreignFieldMul (a0, a1, a2) (b0, b1, b2) (r01, r2) (q0, q1, q2) qb
                  (p10, p110, p111) c0 c1p c1c f2 (g0, g1, g2) = Ok tt.
Proof.
  intros E1 H111 E0 Hc0 E2 Ec1 Hp Hc Hb Eqb E.
  unfold foreignFieldMul. rewrite !Field3_toBigint_value. unfold l, l2.
  rewrite !Z.shiftl_mul_pow2 by lia. change (3 * 88) with 264.
  rewrite (forallb_ltb _ _ Hp), (forallb_ltb 4 _ Hc), (forallb_ltb 2 _ Hb).
  set (e1 := a0 * b1 + a1 * b0 + q0 * g1 + q1 * g0 - (p10 + (p110 + p111 * 2 ^ 88) * 2 ^ 88)).
  assert (Z1 : e1 = 0) by (subst e1; lia).
  set (e0 := a0 * b0 + q0 * g0 + p10 * 2 ^ 88 - r01 - c0 * 2 ^ 176).
  assert (Z0 : e0 = 0) by (subst e0; lia).
  set (e2 := a0 * b2 + a1 * b1 + a2 * b0 + q0 * g2 + q1 * g1 + q2 * g0
             + (p110 + p111 * 2 ^ 88) + c0 - r2
             - (weightedSum 12 0 c1p + weightedSum 2 0 c1c * 2 ^ 84) * 2 ^ 88).
  assert (Z2 : e2 = 0) by (subst e2; lia).
  set (eb := qb - (q2 + 1 * 2 ^ 88 - f2 - 1)).
  assert (Zb : eb = 0) by (subst eb; lia).
  set (en := (a0 + 2 ^ 88 * a1 + 2 ^ 176 * a2) * (b0 + 2 ^ 88 * b1 + 2 ^ 176 * b2)
             + (q0 + 2 ^ 88 * q1 + 2 ^ 176 * q2) * (g0 + 2 ^ 88 * g1 + 2 ^ 176 * g2)
             - (q0 + 2 ^ 88 * q1 + 2 ^ 176 * q2) * (1 * 2 ^ 264) - (r01 + r2 * 2 ^ 176)).
  assert (Zn : en = 0) by (subst en; lia).
  rewrite Z1, Z0, Z2, Zb, Zn, Zmod_0_l. cbn [Z.eqb andb].
  destruct (Z.ltb_spec p111 4); [|lia].
  destruct (Z.ltb_spec c0 4); [|lia].
  reflexivity.
Qed.

Lemma compactMultiRangeCheck_eval (r : Z) :
  2 ^ 176 <= p -> 0 <= r < 2 ^ 264 ->
  compactMultiRangeCheck (r mod 2 ^ 176) (r / 2 ^ 176) = Ok (Field3_from r).
Proof.
  intros Hp Hr.
  destruct (Field3_from_spec r Hr) as (r0 & r1 & r2 & -> & H0 & H1 & H2 & Er).
  assert (E01 : r mod 2 ^ 176 = r0 + 2 ^ 88 * r1).
  { symmetry. apply Z.mod_unique with (q := r2); lia. }
  assert (E2 : r / 2 ^ 176 = r2).
  { symmetry. apply Z.div_unique with (r := r0 + 2 ^ 88 * r1); lia. }
  rewrite E01, E2.
  unfold compactMultiRangeCheck, assertEquals, Fadd, Fmul, lMask, l.
  change (2 ^ 88 - 1) with (Z.ones 88).
  rewrite Z.land_ones, Z.shiftr_div_pow2, Z.shiftl_1_l by lia.
  assert (Em : (r0 + 2 ^ 88 * r1) mod 2 ^ 88 = r0).
  { symmetry. apply Z.mod_unique with (q := r1); lia. }
  assert (Ed : (r0 + 2 ^ 88 * r1) / 2 ^ 88 = r1).
  { symmetry. apply Z.div_unique with (r := r0); lia. }
  rewrite Em, Ed, Zplus_mod_idemp_r.
  replace (r0 + r1 * 2 ^ 88) with (r0 + 2 ^ 88 * r1) by ring.
  rewrite (Z.mod_small (r0 + 2 ^ 88 * r1) p) by lia.
  rewrite Z.eqb_refl. cbn [bind].
  rewrite multiRangeCheck_ok by (unfold rangeChecked, l; lia).
  reflexivity.
Qed.

(** The multiplication row on the honest witness: for range-checked operands
    and a quotient below [2^264], the row is satisfied, and the range check
    of the quotient bound passes exactly when the top limb of the quotient
    is at most the top limb of the modulus. *)
Lemma multiplyNoRangeCheck_eval (a b : Field3) (f : Z) :
  2 ^ 177 <= p -> rangeChecked a -> rangeChecked b -> 0 < f < 2 ^ 264 ->
  let ab := Field3_toBigint a * Field3_toBigint b in
  ab / f < 2 ^ 264 ->
  multiplyNoRangeCheck a b f
  = if ab / f / 2 ^ 176 <=? f / 2 ^ 176
    then Ok ((ab mod f) mod 2 ^ 176, (ab mod f) / 2 ^ 176, Field3_from (ab / f))
    else Err RangeViolation.
Proof.
  intros Hp Ha Hb Hf ab Hq.
  pose proof (Field3_toBigint_range a Ha) as RA.
  pose proof (Field3_toBigint_range b Hb) as RB.
  assert (Hab : 0 <= ab) by (subst ab; nia).
  assert (Hq0 : 0 <= ab / f) by (apply Z.div_pos; lia).
  pose proof (Z.div_mod ab f ltac:(lia)) as Hdm.
  pose proof (Z.mod_pos_bound ab f ltac:(lia)) as Hr.
  unfold multiplyNoRangeCheck. fold ab.
  replace (ab - ab / f * f) with (ab mod f) by lia.
  unfold l, l2. rewrite !Z.shiftl_1_l. change (3 * 88) with 264.
  destruct (Field3_from_spec (2 ^ 264 - f) ltac:(lia))
    as (g0 & g1 & g2 & -> & Hg0 & Hg1 & Hg2 & Eg).
  destruct (Field3_from_spec (ab / f) ltac:(lia))
    as (q0 & q1 & q2 & -> & Hq0' & Hq1 & Hq2 & Eq).
  destruct (Field3_from_spec (ab mod f) ltac:(lia))
    as (r0 & r1 & r2 & -> & Hr0 & Hr1 & Hr2 & Er).
  destruct a as [[a0 a1] a2], b as [[b0 b1] b2].
  unfold rangeChecked, l in Ha, Hb.
  destruct Ha as (Ha0 & Ha1 & Ha2), Hb as (Hb0 & Hb1 & Hb2).
  subst ab. rewrite !Field3_toBigint_value in *.
  set (A := a0 + 2 ^ 88 * a1 + 2 ^ 176 * a2) in *.
  set (B := b0 + 2 ^ 88 * b1 + 2 ^ 176 * b2) in *.
  pose proof (limb_product_bound a0 b1 Ha0 Hb1) as M01.
  pose proof (limb_product_bound a1 b0 Ha1 Hb0) as M10.
  pose proof (limb_product_bound q0 g1 Hq0' Hg1) as N01.
  pose proof (limb_product_bound q1 g0 Hq1 Hg0) as N10.
  set (P1 := a0 * b1 + a1 * b0 + q0 * g1 + q1 * g0) in *.
  destruct (Field3_from_spec P1 ltac:(lia))
    as (p10 & p110 & p111 & -> & Hp10 & Hp110 & Hp111 & Ep1).
  rewrite !Z.shiftl_mul_pow2, !Z.shiftr_div_pow2 by lia.
  assert (Eid : A * B + (q0 + 2 ^ 88 * q1 + 2 ^ 176 * q2) * (g0 + 2 ^ 88 * g1 + 2 ^ 176 * g2)
                = 2 ^ 264 * (q0 + 2 ^ 88 * q1 + 2 ^ 176 * q2) + (r0 + 2 ^ 88 * r1)
                  + 2 ^ 176 * r2).
  { rewrite <- Eq, <- Eg. lia. }
  destruct (mul_carries a0 a1 a2 b0 b1 b2 q0 q1 q2 g0 g1 g2 (r0 + 2 ^ 88 * r1) r2
                        p10 p110 p111)
    as (c0 & c1 & Hc0 & Hc1 & H111 & E0 & E2); try assumption; try lia.
  replace (a0 * b0 + q0 * g0 + p10 * 2 ^ 88 - (r0 + r1 * 2 ^ 88)) with (c0 * 2 ^ 176) by lia.
  rewrite Z.div_mul by lia.
  replace (a0 * b2 + a1 * b1 + a2 * b0 + q0 * g2 + q1 * g1 + q2 * g0 - r2
           + (p110 + p111 * 2 ^ 88) + c0) with (c1 * 2 ^ 88) by lia.
  rewrite Z.div_mul by lia.
  destruct (carry1_slices c1 Hc1) as (Ews & Fp & Fc & Fb & Fa).
  cbv zeta in Ews, Fp, Fc, Fb, Fa.
  assert (Ef2 : 0 <= f / 2 ^ 176 < 2 ^ 88).
  { split; [apply Z.div_pos; lia|].
    apply Z.div_lt_upper_bound; [lia|]. change (2 ^ 176 * 2 ^ 88) with (2 ^ 264). lia. }
  assert (Eq2 : A * B / f / 2 ^ 176 = q2).
  { symmetry. apply Z.div_unique with (r := q0 + 2 ^ 88 * q1); lia. }
  assert (Er01 : (A * B) mod f mod 2 ^ 176 = r0 + r1 * 2 ^ 88).
  { symmetry. apply Z.mod_unique with (q := r2); lia. }
  assert (Er2 : (A * B) mod f / 2 ^ 176 = r2).
  { symmetry. apply Z.div_unique with (r := r0 + 2 ^ 88 * r1); lia. }
  rewrite Eq2, Er01, Er2.
  rewrite (witness3_small (q0, q1, q2)) by (lia || (unfold rangeChecked, l; lia)).
  rewrite (witness3_small (p10, p110, p111)) by (lia || (unfold rangeChecked, l; lia)).
  rewrite (Ffrom_small (r0 + r1 * 2 ^ 88)) by lia.
  rewrite (Ffrom_small r2) by lia.
  rewrite (Ffrom_small c0) by lia.
  rewrite (Ffrom_small (q2 + (2 ^ 88 - f / 2 ^ 176 - 1))) by lia.
  rewrite !map_Ffrom_small
    by (eapply Forall_impl; [|eassumption]; cbv beta; intros; lia).
  rewrite (foreignFieldMul_ok a0 a1 a2 b0 b1 b2 (r0 + r1 * 2 ^ 88) r2 q0 q1 q2
             (q2 + (2 ^ 88 - f / 2 ^ 176 - 1)) p10 p110 p111 c0 c1);
    [| subst P1; lia | lia | lia | lia | lia | exact Ews | exact Fp | exact Fc
     | exact Fb | lia | fold A B; lia].
  cbn [bind]. unfold multiRangeCheck. rewrite !rangeCheckPrimitive_eval. unfold l.
  destruct (Z.ltb_spec p10 (2 ^ 88)); [|lia].
  destruct (Z.ltb_spec p110 (2 ^ 88)); [|lia]. cbn [bind].
  destruct (Z.leb_spec q2 (f / 2 ^ 176));
    destruct (Z.ltb_spec (q2 + (2 ^ 88 - f / 2 ^ 176 - 1)) (2 ^ 88));
    try lia; reflexivity.
Qed.
Lemma mul_constants (x y : Fields3) (f : Z) :
  f < 2 ^ 259 -> Fields3_isConstant x && Fields3_isConstant y = true ->
  mul x y f = Ok (Fields3_from ((Fields3_toBigint x * Fields3_toBigint y) mod f)).
Proof.
  intros Hf Hc. unfold mul. rewrite Z.shiftl_1_l.
  destruct (Z.ltb_spec f (2 ^ 259)); [|lia]. cbn [assert bind].
  rewrite Hc. reflexivity.
Qed.

Lemma mul_eval (x y : Fields3) (f : Z) :
  2 ^ 177 <= p ->
  rangeChecked (Fields3_toBigints x) -> rangeChecked (Fields3_toBigints y) ->
  0 < f < 2 ^ 259 ->
  Fields3_isConstant x && Fields3_isConstant y = false ->
  let ab := Fields3_toBigint x * Fields3_toBigint y in
  ab / f < 2 ^ 264 ->
  mul x y f = if ab / f / 2 ^ 176 <=? f / 2 ^ 176
              then Ok (Fields3_variables (Field3_from (ab mod f)))
              else Err RangeViolation.
Proof.
  intros Hp Hx Hy Hf Hc ab Hq. unfold mul. rewrite Z.shiftl_1_l.
  destruct (Z.ltb_spec f (2 ^ 259)); [|lia]. cbn [assert bind].
  rewrite Hc.
  rewrite multiplyNoRangeCheck_eval by (assumption || lia).
  fold (Fields3_toBigint x) (Fields3_toBigint y). fold ab.
  destruct (ab / f / 2 ^ 176 <=? f / 2 ^ 176); [|reflexivity]. cbn [bind].
  pose proof (Field3_toBigint_range _ Hx) as RX.
  pose proof (Field3_toBigint_range _ Hy) as RY.
  assert (Hab : 0 <= ab) by (subst ab; unfold Fields3_toBigint; nia).
  assert (Hq0 : 0 <= ab / f) by (apply Z.div_pos; lia).
  pose proof (Z.mod_pos_bound ab f ltac:(lia)) as Hr.
  rewrite multiRangeCheck_ok by (apply Field3_from_rangeChecked; lia). cbn [bind].
  rewrite compactMultiRangeCheck_eval by lia. reflexivity.
Qed.

(** A reduced operand keeps the quotient below the other operand: the top
    limb of the quotient is then at most the top limb of the modulus when
    the other operand is almost reduced. *)
Lemma quotient_bound (X Y f : Z) :
  0 < f -> 0 <= X < f -> 0 <= Y < (f / 2 ^ 176 + 1) * 2 ^ 176 ->
  X * Y / f / 2 ^ 176 <= f / 2 ^ 176.
Proof.
  intros Hf HX HY.
  assert (H1 : X * Y / f <= Y).
  { apply Z.div_le_upper_bound; [lia|]. nia. }
  assert (H2 : X * Y / f / 2 ^ 176 <= Y / 2 ^ 176) by (apply Z.div_le_mono; lia).
  assert (H3 : Y / 2 ^ 176 < f / 2 ^ 176 + 1) by (apply Z.div_lt_upper_bound; lia).
  lia.
Qed.

Lemma quotient_small (q f : Z) :
  0 <= q -> 0 < f < 2 ^ 264 -> q / 2 ^ 176 <= f / 2 ^ 176 -> q < 2 ^ 264.
Proof.
  intros Hq Hf Hle.
  assert (f / 2 ^ 176 < 2 ^ 88).
  { apply Z.div_lt_upper_bound; [lia|]. change (2 ^ 176 * 2 ^ 88) with (2 ^ 264). lia. }
  pose proof (Z.div_mod q (2 ^ 176) ltac:(lia)) as D.
  pose proof (Z.mod_pos_bound q (2 ^ 176) ltac:(lia)) as B.
  lia.
Qed.

Lemma top_limb_small (q : Z) :
  0 <= q -> q / 2 ^ 176 < 2 ^ 88 -> q < 2 ^ 264.
Proof.
  intros Hq Hlt.
  pose proof (Z.div_mod q (2 ^ 176) ltac:(lia)) as D.
  pose proof (Z.mod_pos_bound q (2 ^ 176) ltac:(lia)) as B.
  lia.
Qed.

(** ** Modular inverse and division *)

Lemma egcdLoop_spec (y f : Z) (fuel : nat) :
  forall r0 r1 s0 s1,
    0 <= r1 < r0 -> r0 * r1 < 2 ^ Z.of_nat fuel ->
    (exists k, r0 = s0 * y + k * f) -> (exists k, r1 = s1 * y + k * f) ->
    fst (egcdLoop fuel r0 r1 s0 s1) = Z.gcd r0 r1
    /\ exists k, fst (egcdLoop fuel r0 r1 s0 s1)
                 = snd (egcdLoop fuel r0 r1 s0 s1) * y + k * f.
Proof.
  induction fuel as [|fuel IH]; intros r0 r1 s0 s1 Hr Hprod H0 H1.
  - assert (r1 = 0) by (change (2 ^ Z.of_nat 0) with 1 in Hprod; nia).
    subst r1. cbn [egcdLoop fst snd]. rewrite Z.gcd_0_r, Z.abs_eq by lia. auto.
  - cbn [egcdLoop]. destruct (Z.eqb_spec r1 0) as [-> | Hnz].
    + cbn [fst snd]. rewrite Z.gcd_0_r, Z.abs_eq by lia. auto.
    + pose proof (Z.div_mod r0 r1 Hnz) as Hdm.
      pose proof (Z.mod_pos_bound r0 r1 ltac:(lia)) as Hm.
      assert (Hq : 1 <= r0 / r1) by (apply Z.div_le_lower_bound; lia).
      destruct H0 as [k0 E0], H1 as [k1 E1].
      destruct (IH r1 (r0 mod r1) s1 (s0 - r0 / r1 * s1)) as [Hg Hs].
      * lia.
      * rewrite Nat2Z.inj_succ, Z.pow_succ_r in Hprod by lia. nia.
      * exists k1. exact E1.
      * exists (k0 - r0 / r1 * k1).
        replace (r0 mod r1) with (r0 - r1 * (r0 / r1)) by lia.
        rewrite E0 at 1. rewrite E1 at 1. ring.
      * split; [|exact Hs].
        rewrite Hg, Z.gcd_comm, Z.gcd_mod by assumption. apply Z.gcd_comm.
Qed.

Lemma modInverse_spec (y f : Z) :
  0 < f ->
  (Z.gcd y f = 1 ->
     exists i, modInverse y f = Some i /\ 0 <= i < f /\ (i * y) mod f = 1 mod f)
  /\ (Z.gcd y f <> 1 -> modInverse y f = None).
Proof.
  intros Hf. unfold modInverse.
  pose proof (Z.mod_pos_bound y f Hf) as Hm.
  pose proof (Z.log2_spec f Hf) as Hlog.
  pose proof (Z.log2_nonneg f) as Hlog0.
  destruct (egcdLoop_spec y f (Z.to_nat (2 * Z.log2 f + 2)) f (y mod f) 0 1)
    as [Hg [k Hs]].
  - lia.
  - rewrite Z2Nat.id by lia.
    replace (2 * Z.log2 f + 2) with (Z.succ (Z.log2 f) + Z.succ (Z.log2 f)) by lia.
    rewrite Z.pow_add_r by lia. nia.
  - exists 1. ring.
  - exists (- (y / f)). pose proof (Z.div_mod y f ltac:(lia)). lia.
  - destruct (egcdLoop _ f (y mod f) 0 1) as [g s]. cbn [fst snd] in Hg, Hs.
    assert (Hgcd : g = Z.gcd y f).
    { rewrite Hg, Z.gcd_comm, Z.gcd_mod by lia. apply Z.gcd_comm. }
    assert (Hs' : Z.gcd y f = s * y + k * f) by congruence.
    rewrite Hgcd. clear Hg Hs Hgcd g. split; intros H.
    + rewrite H in *. change (1 =? 1) with true. cbv iota.
      exists (s mod f). split; [reflexivity|]. split; [apply Z.mod_pos_bound; lia|].
      rewrite Zmult_mod_idemp_l.
      replace (s * y) with (1 + (- k) * f) by lia.
      apply Z_mod_plus_full.
    + destruct (Z.eqb_spec (Z.gcd y f) 1); [congruence | reflexivity].
Qed.

Lemma invertible_coprime (y f : Z) :
  0 < f -> (exists z, (z * y) mod f = 1 mod f) -> Z.gcd y f = 1.
Proof.
  intros Hf [z Hz].
  pose proof (Z.gcd_divide_l y f) as [a Ha].
  pose proof (Z.gcd_divide_r y f) as [b Hb].
  pose proof (Z.gcd_nonneg y f) as Hnn.
  pose proof (Z.div_mod (z * y) f ltac:(lia)) as D1.
  pose proof (Z.div_mod 1 f ltac:(lia)) as D2.
  apply Z.divide_1_r_nonneg; [assumption|].
  exists (z * a - (z * y / f) * b + (1 / f) * b).
  rewrite Hz in D1.
  set (g := Z.gcd y f) in *.
  replace ((z * a - z * y / f * b + 1 / f * b) * g)
    with (z * (a * g) - z * y / f * (b * g) + 1 / f * (b * g)) by ring.
  rewrite <- Ha, <- Hb. lia.
Qed.

Lemma assertEquals3_refl (x : Field3) : assertEquals3 x x = Ok tt.
Proof.
  destruct x as [[x0 x1] x2]. unfold assertEquals3, assertEquals.
  now rewrite !Z.eqb_refl.
Qed.

Lemma assertEquals3_differ (x y : Field3) :
  x <> y -> assertEquals3 x y = Err ConstraintUnsatisfied.
Proof.
  destruct x as [[x0 x1] x2], y as [[y0 y1] y2]. intros Hne.
  unfold assertEquals3, assertEquals.
  destruct (Z.eqb_spec x0 y0) as [-> |]; [|reflexivity].
  destruct (Z.eqb_spec x1 y1) as [-> |]; [|reflexivity].
  destruct (Z.eqb_spec x2 y2) as [-> |]; [|reflexivity].
  contradiction.
Qed.

Lemma Field3_from_injective (u v : Z) :
  0 <= u < 2 ^ 264 -> 0 <= v < 2 ^ 264 -> Field3_from u = Field3_from v -> u = v.
Proof.
  intros Hu Hv E. apply (f_equal Field3_toBigint) in E.
  now rewrite !Field3_toBigint_from in E by assumption.
Qed.

Lemma weakBound_check (z2 f : Z) :
  2 ^ 90 <= p -> 0 <= z2 < 2 ^ 88 -> 0 <= f < 2 ^ 264 ->
  rangeCheckPrimitive l (weakBound z2 f)
  = if z2 <=? f / 2 ^ 176 then Ok tt else Err RangeViolation.
Proof.
  intros Hp Hz Hf. unfold weakBound, Fadd, Ffrom, lMask, l2, l.
  rewrite Z.shiftr_div_pow2 by lia.
  assert (Hf2 : 0 <= f / 2 ^ 176 < 2 ^ 88).
  { split; [apply Z.div_pos; lia|].
    apply Z.div_lt_upper_bound; [lia|]. change (2 ^ 176 * 2 ^ 88) with (2 ^ 264). lia. }
  rewrite Zplus_mod_idemp_r.
  rewrite (Z.mod_small (z2 + (2 ^ 88 - 1 - f / 2 ^ 176)) p) by lia.
  rewrite rangeCheckPrimitive_eval.
  destruct (Z.ltb_spec (z2 + (2 ^ 88 - 1 - f / 2 ^ 176)) (2 ^ 88));
    destruct (Z.leb_spec z2 (f / 2 ^ 176)); try lia; reflexivity.
Qed.

Lemma limb2_from (f : Z) :
  0 <= f < 2 ^ 264 -> limb2 (Field3_from f) = f / 2 ^ 176.
Proof.
  intros Hf. unfold limb2, Field3_from, lMask, l2. cbn [snd].
  change (2 ^ 88 - 1) with (Z.ones 88).
  rewrite Z.land_ones, Z.shiftr_div_pow2 by lia.
  apply Z.mod_small. split; [apply Z.div_pos; lia|].
  apply Z.div_lt_upper_bound; [lia|]. change (2 ^ 176 * 2 ^ 88) with (2 ^ 264). lia.
Qed.

(** [assertAlmostReduced] accepts exactly the almost-reduced limb tuples:
    limbs in [[0, 2^88)] and [x[2] <= f[2]]. *)
Lemma assertAlmostReduced_spec (x0 x1 x2 f : Z) :
  2 ^ 90 <= p -> 0 <= f < 2 ^ 264 -> 0 <= x0 -> 0 <= x1 -> 0 <= x2 ->
  assertAlmostReduced [(x0, x1, x2)] f false = Ok tt <-> almostReduced (x0, x1, x2) f.
Proof.
  intros Hp Hf Hx0 Hx1 Hx2.
  unfold almostReduced. rewrite limb2_from by assumption.
  unfold assertAlmostReduced, rangeChecked, multiRangeCheck, limb2.
  cbn [forEach snd].
  set (wb := rangeCheckPrimitive l (weakBound x2 f)).
  rewrite !rangeCheckPrimitive_eval. unfold l.
  destruct (Z.ltb_spec x0 (2 ^ 88)) as [H0|H0]; cbn [bind]; [|split; [discriminate | lia]].
  destruct (Z.ltb_spec x1 (2 ^ 88)) as [H1|H1]; cbn [bind]; [|split; [discriminate | lia]].
  destruct (Z.ltb_spec x2 (2 ^ 88)) as [H2|H2]; cbn [bind]; [|split; [discriminate | lia]].
  subst wb. rewrite weakBound_check by lia.
  destruct (Z.leb_spec x2 (f / 2 ^ 176)); cbn [bind]; split; intros Hok;
    try reflexivity; try discriminate; lia.
Qed.

Lemma div_constants (x y : Fields3) (f : Z) :
  0 < f < 2 ^ 259 -> Fields3_isConstant x && Fields3_isConstant y = true ->
  (Z.gcd (Fields3_toBigint y) f = 1 ->
     exists i, 0 <= i < f /\ (i * Fields3_toBigint y) mod f = 1 mod f
               /\ div x y f = Ok (Fields3_from ((Fields3_toBigint x * i) mod f)))
  /\ (Z.gcd (Fields3_toBigint y) f <> 1 -> div x y f = Err AssertionError).
Proof.
  intros Hf Hc.
  destruct (modInverse_spec (Fields3_toBigint y) f ltac:(lia)) as [Hinv Hnone].
  unfold div. rewrite Z.shiftl_1_l.
  destruct (Z.ltb_spec f (2 ^ 259)); [|lia]. cbn [assert bind]. rewrite Hc.
  split; intros Hg.
  - destruct (Hinv Hg) as (i & -> & Hi & Hiy). exists i. auto.
  - now rewrite (Hnone Hg).
Qed.

(** The provable case of [div] on a divisor [0 < y < f], for the witnessed
    quotient [zv]: everything but the comparison of [zv * y mod f] with [x]
    passes. *)
Lemma div_provable (x y : Fields3) (f zv : Z) :
  2 ^ 177 <= p ->
  rangeChecked (Fields3_toBigints x) -> rangeChecked (Fields3_toBigints y) ->
  0 < f < 2 ^ 259 ->
  Fields3_isConstant x && Fields3_isConstant y = false ->
  0 < Fields3_toBigint y < f -> 0 <= zv < f ->
  match modInverse (Fields3_toBigint y) f with
  | None => (0, 0, 0)
  | Some yInv => Field3_from ((Fields3_toBigint x * yInv) mod f)
  end = Field3_from zv ->
  div x y f = if (zv * Fields3_toBigint y) mod f =? Fields3_toBigint x
              then Ok (Fields3_variables (Field3_from zv))
              else Err ConstraintUnsatisfied.
Proof.
  intros Hp Hx Hy Hf Hc HY Hzv Hw.
  pose proof (Field3_toBigint_range _ Hx) as RX.
  fold (Fields3_toBigint x) in RX.
  set (X := Fields3_toBigint x) in *. set (Y := Fields3_toBigint y) in *.
  unfold div. rewrite Z.shiftl_1_l.
  destruct (Z.ltb_spec f (2 ^ 259)); [|lia]. cbn [assert bind]. rewrite Hc.
  fold X Y. rewrite Hw. clear Hw.
  assert (Hzr : rangeChecked (Field3_from zv)) by (apply Field3_from_rangeChecked; lia).
  rewrite witness3_small by (assumption || lia).
  rewrite multiRangeCheck_ok by assumption. cbn [bind].
  pose proof (Z.div_mod f (2 ^ 176) ltac:(lia)) as Df.
  pose proof (Z.mod_pos_bound f (2 ^ 176) ltac:(lia)) as Bf.
  assert (Hq : zv * Y / f / 2 ^ 176 <= f / 2 ^ 176) by (apply quotient_bound; lia).
  assert (Hq0 : 0 <= zv * Y / f) by (apply Z.div_pos; nia).
  pose proof (quotient_small _ f Hq0 ltac:(lia) Hq) as Hqs.
  assert (Evz : Fields3_toBigint (Fields3_variables (Field3_from zv)) = zv).
  { unfold Fields3_toBigint. rewrite Fields3_variables_toBigints.
    apply Field3_toBigint_from. lia. }
  rewrite mul_eval;
    [| exact Hp | now rewrite Fields3_variables_toBigints | exact Hy | exact Hf
     | now rewrite Fields3_variables_isConstant
     | rewrite Evz; fold Y; exact Hqs ].
  rewrite Evz. fold Y.
  destruct (Z.leb_spec (zv * Y / f / 2 ^ 176) (f / 2 ^ 176)); [|lia]. cbn [bind].
  rewrite Fields3_variables_toBigints.
  pose proof (Z.mod_pos_bound (zv * Y) f ltac:(lia)) as Hm.
  destruct (Z.eqb_spec ((zv * Y) mod f) X) as [E | Hne].
  - rewrite E. unfold X at 1. unfold Fields3_toBigint.
    rewrite Field3_from_toBigint by assumption.
    rewrite assertEquals3_refl. cbn [bind].
    (* the bound check on the result *)
    destruct (Field3_from_spec zv ltac:(lia)) as (z0 & z1 & z2 & Ez & Hz0 & Hz1 & Hz2 & Ezv).
    rewrite Ez. unfold limb2. cbn [snd].
    unfold multiRangeCheck at 1.
    rewrite weakBound_check by lia.
    assert (Hz2f : z2 <= f / 2 ^ 176).
    { assert (z2 = zv / 2 ^ 176)
        by (apply Z.div_unique with (r := z0 + 2 ^ 88 * z1); lia).
      subst z2. apply Z.div_le_mono; lia. }
    destruct (Z.leb_spec z2 (f / 2 ^ 176)); [|lia]. cbn [bind].
    rewrite !rangeCheckPrimitive_eval. unfold Ffrom. rewrite Zmod_0_l. unfold l.
    destruct (Z.ltb_spec 0 (2 ^ 88)); [|lia]. cbn [bind].
    (* the divisor is not zero *)
    destruct (Fields3_toBigints y) as [[y0 y1] y2] eqn:Ey.
    destruct (Field3_from_spec f ltac:(lia)) as (f0 & f1 & f2 & -> & Hf0 & Hf1 & Hf2 & Efv).
    unfold rangeChecked, l in Hy. destruct Hy as (Hy0 & Hy1 & Hy2).
    assert (EY : Y = y0 + 2 ^ 88 * y1 + 2 ^ 176 * y2).
    { subst Y. unfold Fields3_toBigint. rewrite Ey. apply Field3_toBigint_value. }
    unfold Fadd, Fmul. rewrite Z.shiftl_1_l, Zplus_mod_idemp_r.
    rewrite Z.shiftl_mul_pow2 by lia.
    rewrite (Z.mod_small (y0 + y1 * 2 ^ 88) p) by lia.
    assert (N0 : (y0 + y1 * 2 ^ 88 =? 0) && (y2 =? 0) = false).
    { apply andb_false_iff.
      destruct (Z.eqb_spec (y0 + y1 * 2 ^ 88) 0); [|now left].
      destruct (Z.eqb_spec y2 0); [lia | now right]. }
    assert (Nf : (y0 + y1 * 2 ^ 88 =? f0 + f1 * 2 ^ 88) && (y2 =? f2) = false).
    { apply andb_false_iff.
      destruct (Z.eqb_spec (y0 + y1 * 2 ^ 88) (f0 + f1 * 2 ^ 88)); [|now left].
      destruct (Z.eqb_spec y2 f2); [lia | now right]. }
    rewrite N0, Nf. reflexivity.
  - rewrite assertEquals3_differ; [reflexivity|].
    intros E. apply Hne.
    rewrite <- (Field3_from_toBigint _ Hx) in E.
    apply Field3_from_injective in E; [exact E | lia | exact RX].
Qed.


(** ** Slicing one limb *)

Lemma Bool_check_bit (b : bool) : Bool_check (Z.b2z b) = Ok tt.
Proof.
  unfold Bool_check, Fmul, Fsub. destruct b; cbn [Z.b2z].
  - change (1 - 1) with 0. rewrite ?Zmod_0_l, ?Z.mul_0_r, ?Zmod_0_l. reflexivity.
  - rewrite Z.mul_0_l, Zmod_0_l. reflexivity.
Qed.

Lemma witnessBits_nth (x : Z) (maxBits i : nat) :
  (i < maxBits)%nat ->
  nth_error (witnessBits x maxBits) i = Some (Z.b2z (Z.testbit x (Z.of_nat i))).
Proof.
  intros Hi. unfold witnessBits.
  rewrite nth_error_map, nth_error_seq.
  destruct (Nat.ltb_spec i maxBits); [reflexivity | lia].
Qed.

Lemma low_bit_step (y : Z) (count : nat) :
  0 <= y ->
  y mod 2 + 2 * ((y / 2) mod 2 ^ Z.of_nat count) = y mod 2 ^ Z.of_nat (S count).
Proof.
  intros Hy. rewrite Nat2Z.inj_succ, Z.pow_succ_r by lia.
  rewrite Z.rem_mul_r; [reflexivity | lia |].
  apply Z.pow_pos_nonneg; lia.
Qed.

Lemma sumBits_value (x : Z) (maxBits start : nat) :
  0 <= x ->
  forall (count j : nat) (a : Z),
    (start + j + count <= maxBits)%nat ->
    sumBits (witnessBits x maxBits) start j count (a mod p)
    = Ok ((a + 2 ^ Z.of_nat j
               * ((x / 2 ^ Z.of_nat (start + j)) mod 2 ^ Z.of_nat count)) mod p).
Proof.
  intros Hx. induction count as [|count IH]; intros j a Hle.
  - cbn [sumBits]. change (2 ^ Z.of_nat 0) with 1.
    rewrite Z.mod_1_r, Z.mul_0_r, Z.add_0_r. reflexivity.
  - cbn [sumBits]. rewrite witnessBits_nth by lia.
    rewrite Bool_check_bit. cbn [bind].
    unfold Fadd, Fmul. rewrite <- Zplus_mod, Z.shiftl_1_l.
    rewrite IH by lia. f_equal. f_equal.
    rewrite Z.testbit_spec' by lia.
    set (y := x / 2 ^ Z.of_nat (start + j)).
    assert (Hy : 0 <= y) by (apply Z.div_pos; [lia | apply Z.pow_pos_nonneg; lia]).
    assert (Hnext : x / 2 ^ Z.of_nat (start + S j) = y / 2).
    { subst y. replace (Z.of_nat (start + S j)) with (Z.of_nat (start + j) + 1) by lia.
      rewrite Z.pow_add_r, Z.pow_1_r by lia.
      rewrite Z.div_div; [reflexivity | | lia].
      apply Z.pow_nonzero; lia. }
    rewrite Hnext, <- (low_bit_step y count Hy).
    rewrite Nat2Z.inj_succ, Z.pow_succ_r by lia. ring.
Qed.

(** The bits [i .. i + size - 1] of [x], for the last, shorter chunk too,
    are a base-[2^chunkSize] digit of [x mod 2^maxBits]. *)
Lemma chunk_of_truncated (x : Z) (maxBits chunkSize i : nat) :
  0 <= x -> (i < maxBits)%nat ->
  (x / 2 ^ Z.of_nat i) mod 2 ^ Z.of_nat (Nat.min (maxBits - i) chunkSize)
  = ((x mod 2 ^ Z.of_nat maxBits) / 2 ^ Z.of_nat i) mod 2 ^ Z.of_nat chunkSize.
Proof.
  intros Hx Hi. apply Z.bits_inj'. intros n Hn.
  destruct (Z_lt_le_dec n (Z.of_nat (Nat.min (maxBits - i) chunkSize))) as [Hlt | Hge].
  - rewrite !Z.mod_pow2_bits_low by lia.
    rewrite !Z.div_pow2_bits by lia.
    rewrite Z.mod_pow2_bits_low by lia. reflexivity.
  - rewrite Z.mod_pow2_bits_high by lia.
    destruct (Z_lt_le_dec n (Z.of_nat chunkSize)) as [Hc | Hc].
    + rewrite Z.mod_pow2_bits_low by lia.
      rewrite Z.div_pow2_bits by lia.
      rewrite Z.mod_pow2_bits_high by lia. reflexivity.
    + rewrite Z.mod_pow2_bits_high by lia. reflexivity.
Qed.

Lemma chunkCount_done (maxBits chunkSize i : nat) :
  (1 <= chunkSize)%nat -> (maxBits <= i)%nat -> chunkCount maxBits chunkSize i = O.
Proof.
  intros Hc Hi. unfold chunkCount.
  replace (maxBits - i + chunkSize - 1)%nat with (chunkSize - 1)%nat by lia.
  apply Nat.div_small. lia.
Qed.

Lemma chunkCount_step (maxBits chunkSize i : nat) :
  (1 <= chunkSize)%nat -> (i < maxBits)%nat ->
  chunkCount maxBits chunkSize i = S (chunkCount maxBits chunkSize (i + chunkSize)).
Proof.
  intros Hc Hi. unfold chunkCount.
  destruct (Nat.le_gt_cases (i + chunkSize) maxBits) as [Hle | Hgt].
  - replace (maxBits - i + chunkSize - 1)%nat
      with (maxBits - (i + chunkSize) + chunkSize - 1 + 1 * chunkSize)%nat by lia.
    rewrite Nat.div_add by lia. lia.
  - replace (maxBits - (i + chunkSize) + chunkSize - 1)%nat with (chunkSize - 1)%nat by lia.
    rewrite (Nat.div_small (chunkSize - 1)) by lia.
    symmetry. apply Nat.div_unique with (r := (maxBits - i - 1)%nat); lia.
Qed.

Lemma sliceLoop_value (x : Z) (maxBits chunkSize : nat) :
  0 <= x < p -> (1 <= chunkSize)%nat ->
  forall (fuel i : nat) (chunks : list Z) (s : Z),
    (maxBits - i <= fuel)%nat ->
    sliceLoop fuel (witnessBits x maxBits) maxBits chunkSize i chunks (s mod p)
    = Ok (chunks ++ digits (Z.of_nat chunkSize) (chunkCount maxBits chunkSize i)
                           ((x mod 2 ^ Z.of_nat maxBits) / 2 ^ Z.of_nat i),
          (s + 2 ^ Z.of_nat i * ((x mod 2 ^ Z.of_nat maxBits) / 2 ^ Z.of_nat i)) mod p,
          (i + chunkCount maxBits chunkSize i * chunkSize)%nat).
Proof.
  intros Hx Hc. set (X := x mod 2 ^ Z.of_nat maxBits).
  assert (HX : 0 <= X < 2 ^ Z.of_nat maxBits)
    by (apply Z.mod_pos_bound, Z.pow_pos_nonneg; lia).
  assert (HXx : X <= x) by (apply Z.mod_le; [lia | apply Z.pow_pos_nonneg; lia]).
  induction fuel as [|fuel IH]; intros i chunks s Hfuel.
  - assert (Hi : (maxBits <= i)%nat) by lia.
    cbn [sliceLoop]. destruct (Nat.ltb_spec i maxBits); [lia|].
    rewrite chunkCount_done by assumption. cbn [digits].
    rewrite app_nil_r, Nat.add_0_r.
    rewrite (Z.div_small X).
    + rewrite Z.mul_0_r, Z.add_0_r. reflexivity.
    + split; [lia|]. apply Z.lt_le_trans with (2 ^ Z.of_nat maxBits); [lia|].
      apply Z.pow_le_mono_r; lia.
  - cbn [sliceLoop]. destruct (Nat.ltb_spec i maxBits) as [Hi | Hi].
    + rewrite (sumBits_value x maxBits i ltac:(lia) _ 0%nat 0) by lia.
      cbn [bind]. change (2 ^ Z.of_nat 0) with 1.
      rewrite Z.add_0_l, Z.mul_1_l, Nat.add_0_r.
      rewrite chunk_of_truncated by (lia || assumption). fold X.
      set (Y := X / 2 ^ Z.of_nat i).
      assert (Hpi : 0 < 2 ^ Z.of_nat i) by (apply Z.pow_pos_nonneg; lia).
      assert (HY : 0 <= Y <= X).
      { split; [apply Z.div_pos; lia|]. apply Z.div_le_upper_bound; nia. }
      assert (Hpc : 0 < 2 ^ Z.of_nat chunkSize) by (apply Z.pow_pos_nonneg; lia).
      pose proof (Z.mod_pos_bound Y _ Hpc) as HYm.
      pose proof (Z.mod_le Y _ ltac:(lia) Hpc) as HYle.
      assert (Hnz : 2 ^ Z.of_nat chunkSize <> 0) by lia.
      pose proof (Z.div_mod Y _ Hnz) as HYd.
      assert (HYp : X / 2 ^ Z.of_nat (i + chunkSize) = Y / 2 ^ Z.of_nat chunkSize).
      { subst Y. rewrite Nat2Z.inj_add, Z.pow_add_r by lia.
        rewrite Z.div_div by lia. reflexivity. }
      rewrite (Z.mod_small (Y mod 2 ^ Z.of_nat chunkSize) p) by lia.
      unfold Fadd, Fmul. rewrite <- Zplus_mod, Z.shiftl_1_l.
      rewrite IH by lia.
      rewrite (chunkCount_step maxBits chunkSize i) by assumption. cbn [digits].
      rewrite <- app_assoc. cbn [app]. rewrite HYp. fold Y.
      f_equal. f_equal; [f_equal|].
      * f_equal. rewrite Nat2Z.inj_add, Z.pow_add_r by lia. nia.
      * cbn [Nat.mul]. lia.
    + rewrite chunkCount_done by assumption. cbn [digits].
      rewrite app_nil_r, Nat.add_0_r.
      rewrite (Z.div_small X).
      * rewrite Z.mul_0_r, Z.add_0_r. reflexivity.
      * split; [lia|]. apply Z.lt_le_trans with (2 ^ Z.of_nat maxBits); [lia|].
        apply Z.pow_le_mono_r; lia.
Qed.

(** Without a leftover, [sliceField] is a range check of its limb to
    [maxBits] bits and returns the limb's base-[2^chunkSize] digits. *)
Lemma sliceField_first (x : Z) (maxBits chunkSize : nat) :
  0 <= x < p -> (1 <= chunkSize)%nat ->
  sliceField x maxBits chunkSize None
  = if x <? 2 ^ Z.of_nat maxBits
    then Ok ([], {| chunks := digits (Z.of_nat chunkSize)
                                      (chunkCount maxBits chunkSize 0) x;
                    leftoverSize := chunkCount maxBits chunkSize 0 * chunkSize
                                    - maxBits |})
    else Err ConstraintUnsatisfied.
Proof.
  intros Hx Hc. unfold sliceField. cbn [bind]. unfold Ffrom.
  rewrite sliceLoop_value by (lia || assumption).
  cbn [bind]. change (2 ^ Z.of_nat 0) with 1.
  rewrite Z.div_1_r, Z.mul_1_l, Z.add_0_l, Nat.add_0_l.
  assert (Hpow : 0 < 2 ^ Z.of_nat maxBits) by (apply Z.pow_pos_nonneg; lia).
  pose proof (Z.mod_pos_bound x _ Hpow) as Hb.
  pose proof (Z.mod_le x _ ltac:(lia) Hpow) as Hle.
  rewrite (Z.mod_small (x mod 2 ^ Z.of_nat maxBits) p) by lia.
  unfold assertEquals.
  destruct (Z.ltb_spec x (2 ^ Z.of_nat maxBits)) as [Hlt | Hge].
  - rewrite (Z.mod_small x) by lia. rewrite Z.eqb_refl. reflexivity.
  - destruct (Z.eqb_spec (x mod 2 ^ Z.of_nat maxBits) x); [lia | reflexivity].
Qed.

(** For [maxBits <= 88], [sliceField3] is [sliceField] on the first limb:
    it succeeds exactly when [x0 < 2^maxBits], whatever [x1] and [x2] are. *)
Lemma sliceField3_one_limb (x0 x1 x2 : Z) (maxBits chunkSize : nat) :
  0 <= x0 < p -> (1 <= chunkSize)%nat -> (maxBits <= 88)%nat ->
  sliceField3 (x0, x1, x2) maxBits chunkSize
  = if x0 <? 2 ^ Z.of_nat maxBits
    then Ok (digits (Z.of_nat chunkSize) (chunkCount maxBits chunkSize 0) x0)
    else Err ConstraintUnsatisfied.
Proof.
  intros Hx Hc Hm. unfold sliceField3.
  change (Z.to_nat l) with 88%nat.
  destruct (Nat.leb_spec maxBits (3 * 88)); [|lia]. cbn [assert bind].
  rewrite Nat.min_r by lia.
  rewrite sliceField_first by assumption.
  destruct (x0 <? 2 ^ Z.of_nat maxBits); [|reflexivity].
  cbn [bind chunks].
  destruct (Nat.leb_spec maxBits 88); [reflexivity | lia].
Qed.

(** ** Slicing across limbs *)

Lemma digits_snoc (b : Z) (n : nat) :
  0 <= b -> forall y,
  digits b (S n) y = digits b n y ++ [(y / 2 ^ (b * Z.of_nat n)) mod 2 ^ b].
Proof.
  intros Hb. induction n as [|n IH]; intros y.
  - cbn [digits app]. rewrite Z.mul_0_r. change (2 ^ 0) with 1.
    now rewrite Z.div_1_r.
  - change (digits b (S (S n)) y) with (y mod 2 ^ b :: digits b (S n) (y / 2 ^ b)).
    rewrite IH. cbn [digits app].
    replace (y / 2 ^ b / 2 ^ (b * Z.of_nat n)) with (y / 2 ^ (b * Z.of_nat (S n)));
      [reflexivity|].
    assert (0 < 2 ^ b) by (apply Z.pow_pos_nonneg; lia).
    assert (0 < 2 ^ (b * Z.of_nat n)) by (apply Z.pow_pos_nonneg; lia).
    rewrite Z.div_div by lia. f_equal.
    rewrite <- Z.pow_add_r by lia. f_equal. lia.
Qed.

Lemma lastChunk_snoc (init : list Z) (v : Z) : lastChunk (init ++ [v]) = Some v.
Proof.
  unfold lastChunk. rewrite last_length.
  replace (S (length init) - 1)%nat with (length init) by lia.
  rewrite nth_error_app2 by lia. now rewrite Nat.sub_diag.
Qed.

Lemma setLastChunk_snoc (init : list Z) (v w : Z) :
  setLastChunk (init ++ [v]) w = init ++ [w].
Proof. unfold setLastChunk. now rewrite removelast_last. Qed.

Lemma weightedSum_shift (b : Z) (ds : list Z) (i : nat) :
  0 <= b -> weightedSum b i ds = 2 ^ (b * Z.of_nat i) * weightedSum b 0 ds.
Proof.
  intros Hb. induction i as [|i IH].
  - rewrite Z.mul_0_r. change (2 ^ 0) with 1. lia.
  - rewrite weightedSum_succ, IH by assumption.
    rewrite Nat2Z.inj_succ.
    replace (b * Z.succ (Z.of_nat i)) with (b + b * Z.of_nat i) by lia.
    rewrite Z.pow_add_r by lia. ring.
Qed.

Lemma weightedSum_app (b : Z) (xs ys : list Z) :
  0 <= b ->
  weightedSum b 0 (xs ++ ys)
  = weightedSum b 0 xs + 2 ^ (b * Z.of_nat (length xs)) * weightedSum b 0 ys.
Proof.
  intros Hb. induction xs as [|d rest IH].
  - cbn [app length weightedSum]. rewrite Z.mul_0_r. change (2 ^ 0) with 1. lia.
  - cbn [app length]. rewrite !weightedSum_cons0, IH by assumption.
    rewrite Nat2Z.inj_succ.
    replace (b * Z.succ (Z.of_nat (length rest)))
      with (b + b * Z.of_nat (length rest)) by lia.
    rewrite Z.pow_add_r by lia. ring.
Qed.

Lemma chunkCount_bounds (maxBits chunkSize i : nat) :
  (1 <= chunkSize)%nat ->
  (maxBits - i <= chunkCount maxBits chunkSize i * chunkSize)%nat
  /\ (chunkCount maxBits chunkSize i * chunkSize < maxBits - i + chunkSize)%nat.
Proof.
  intros Hc. unfold chunkCount.
  pose proof (Nat.div_mod_eq (maxBits - i + chunkSize - 1) chunkSize) as E.
  pose proof (Nat.mod_upper_bound (maxBits - i + chunkSize - 1) chunkSize ltac:(lia)) as B.
  nia.
Qed.

(** With a leftover of [s] bits that fits in the bits sliced from this
    limb, [sliceField] completes the last chunk of the previous limb with
    the low [s] bits and slices the rest. *)
Lemma sliceField_next (x : Z) (maxBits chunkSize s : nat) (init : list Z) (lastv : Z) :
  0 <= x < p -> (1 <= chunkSize)%nat -> (s <= maxBits)%nat -> (s <= chunkSize)%nat ->
  sliceField x maxBits chunkSize (Some {| chunks := init ++ [lastv]; leftoverSize := s |})
  = if x <? 2 ^ Z.of_nat maxBits
    then Ok (init ++ [Fadd lastv (Fmul (x mod 2 ^ Z.of_nat s)
                                       (2 ^ Z.of_nat (chunkSize - s)))],
             {| chunks := digits (Z.of_nat chunkSize) (chunkCount maxBits chunkSize s)
                                 (x / 2 ^ Z.of_nat s);
                leftoverSize := s + chunkCount maxBits chunkSize s * chunkSize - maxBits |})
    else Err ConstraintUnsatisfied.
Proof.
  intros Hx Hc Hs Hsc. unfold sliceField. cbn [chunks leftoverSize].
  unfold Ffrom at 1.
  rewrite (sumBits_value x maxBits 0 ltac:(lia) s 0%nat 0) by lia.
  cbn [bind]. rewrite lastChunk_snoc, setLastChunk_snoc. cbn [bind].
  change (2 ^ Z.of_nat 0) with 1. cbn [Nat.add].
  rewrite Z.div_1_r, Z.mul_1_l, Z.add_0_l.
  assert (Hps : 0 < 2 ^ Z.of_nat s) by (apply Z.pow_pos_nonneg; lia).
  assert (Hpm : 0 < 2 ^ Z.of_nat maxBits) by (apply Z.pow_pos_nonneg; lia).
  pose proof (Z.mod_pos_bound x _ Hps) as Hrs.
  pose proof (Z.mod_le x _ ltac:(lia) Hps) as Hrle.
  rewrite sliceLoop_value by (lia || assumption).
  cbn [bind].
  rewrite (Z.mod_small (x mod 2 ^ Z.of_nat s) p) by lia.
  set (X := x mod 2 ^ Z.of_nat maxBits).
  pose proof (Z.mod_pos_bound x _ Hpm) as HX. fold X in HX.
  pose proof (Z.mod_le x _ ltac:(lia) Hpm) as HXle. fold X in HXle.
  assert (Hlow : x mod 2 ^ Z.of_nat s = X mod 2 ^ Z.of_nat s).
  { pose proof (Z.div_mod x (2 ^ Z.of_nat maxBits) ltac:(lia)) as E. fold X in E.
    assert (Hsplit : 2 ^ Z.of_nat maxBits = 2 ^ Z.of_nat (maxBits - s) * 2 ^ Z.of_nat s).
    { rewrite <- Z.pow_add_r by lia. f_equal. lia. }
    replace X with (x + - (x / 2 ^ Z.of_nat maxBits * 2 ^ Z.of_nat (maxBits - s))
                         * 2 ^ Z.of_nat s)
      by (rewrite Hsplit in E at 1; lia).
    symmetry. apply Z_mod_plus_full. }
  pose proof (Z.div_mod X (2 ^ Z.of_nat s) ltac:(lia)) as HXd.
  replace (x mod 2 ^ Z.of_nat s + 2 ^ Z.of_nat s * (X / 2 ^ Z.of_nat s)) with X
    by (rewrite Hlow; lia).
  rewrite (Z.mod_small X p) by lia.
  unfold assertEquals.
  replace (Z.shiftl 1 (Z.of_nat chunkSize - Z.of_nat s)) with (2 ^ Z.of_nat (chunkSize - s))
    by (rewrite Z.shiftl_1_l; f_equal; lia).
  destruct (Z.ltb_spec x (2 ^ Z.of_nat maxBits)) as [Hlt | Hge].
  - assert (HXx : X = x) by (subst X; apply Z.mod_small; lia).
    rewrite HXx, Z.eqb_refl. reflexivity.
  - destruct (Z.eqb_spec X x); [lia | reflexivity].
Qed.

(** The last chunk of a limb, completed with [e], the low [s] bits of the
    next limb: the field operations do not wrap and the chunk stays below
    [2^chunkSize]. *)
Lemma completed_chunk (y e : Z) (chunkSize k s : nat) :
  (s <= chunkSize)%nat -> 2 ^ Z.of_nat chunkSize <= p ->
  0 <= y -> y < 2 ^ Z.of_nat (chunkSize * S k - s) ->
  0 <= e < 2 ^ Z.of_nat s ->
  let d := (y / 2 ^ (Z.of_nat chunkSize * Z.of_nat k)) mod 2 ^ Z.of_nat chunkSize in
  Fadd d (Fmul e (2 ^ Z.of_nat (chunkSize - s))) = d + e * 2 ^ Z.of_nat (chunkSize - s)
  /\ 0 <= d + e * 2 ^ Z.of_nat (chunkSize - s) < 2 ^ Z.of_nat chunkSize.
Proof.
  intros Hs Hp Hy0 Hy He d.
  assert (Hpk : 0 < 2 ^ (Z.of_nat chunkSize * Z.of_nat k)) by (apply Z.pow_pos_nonneg; lia).
  assert (Hpc : 0 < 2 ^ Z.of_nat chunkSize) by (apply Z.pow_pos_nonneg; lia).
  assert (Hpr : 0 < 2 ^ Z.of_nat (chunkSize - s)) by (apply Z.pow_pos_nonneg; lia).
  assert (Hsplit : 2 ^ Z.of_nat chunkSize = 2 ^ Z.of_nat s * 2 ^ Z.of_nat (chunkSize - s)).
  { rewrite <- Z.pow_add_r by lia. f_equal. lia. }
  assert (Hq : 0 <= y / 2 ^ (Z.of_nat chunkSize * Z.of_nat k) < 2 ^ Z.of_nat (chunkSize - s)).
  { split; [apply Z.div_pos; lia|].
    apply Z.div_lt_upper_bound; [lia|].
    rewrite <- Z.pow_add_r by lia.
    replace (Z.of_nat chunkSize * Z.of_nat k + Z.of_nat (chunkSize - s))
      with (Z.of_nat (chunkSize * S k - s)) by nia.
    exact Hy. }
  assert (Hd : d = y / 2 ^ (Z.of_nat chunkSize * Z.of_nat k)).
  { subst d. apply Z.mod_small. nia. }
  assert (Hb : 0 <= d + e * 2 ^ Z.of_nat (chunkSize - s) < 2 ^ Z.of_nat chunkSize).
  { rewrite Hd. nia. }
  split; [|exact Hb].
  unfold Fadd, Fmul. rewrite Zplus_mod_idemp_r. apply Z.mod_small. lia.
Qed.

Lemma weightedSum_completed (y extra : Z) (chunkSize k : nat) :
  weightedSum (Z.of_nat chunkSize) 0
    (digits (Z.of_nat chunkSize) k y
     ++ [(y / 2 ^ (Z.of_nat chunkSize * Z.of_nat k)) mod 2 ^ Z.of_nat chunkSize + extra])
  = weightedSum (Z.of_nat chunkSize) 0 (digits (Z.of_nat chunkSize) (S k) y)
    + 2 ^ (Z.of_nat chunkSize * Z.of_nat k) * extra.
Proof.
  rewrite digits_snoc by lia.
  rewrite !weightedSum_app by lia. rewrite digits_length.
  cbn [weightedSum]. rewrite Z.mul_0_r. change (2 ^ 0) with 1. ring.
Qed.

Lemma weightedSum_digits_small (chunkSize n : nat) (y : Z) (bits : nat) :
  0 <= y < 2 ^ Z.of_nat bits -> (bits <= n * chunkSize)%nat ->
  weightedSum (Z.of_nat chunkSize) 0 (digits (Z.of_nat chunkSize) n y) = y.
Proof.
  intros Hy Hn. rewrite weightedSum_digits by lia.
  apply Z.mod_small. split; [lia|].
  apply Z.lt_le_trans with (2 ^ Z.of_nat bits); [lia|].
  apply Z.pow_le_mono_r; nia.
Qed.

Lemma div_pow2_range (x : Z) (bits s : nat) :
  0 <= x < 2 ^ Z.of_nat bits -> (s <= bits)%nat ->
  0 <= x / 2 ^ Z.of_nat s < 2 ^ Z.of_nat (bits - s).
Proof.
  intros Hx Hs.
  assert (Hps : 0 < 2 ^ Z.of_nat s) by (apply Z.pow_pos_nonneg; lia).
  split; [apply Z.div_pos; lia|].
  apply Z.div_lt_upper_bound; [lia|].
  rewrite <- Z.pow_add_r by lia.
  replace (Z.of_nat s + Z.of_nat (bits - s)) with (Z.of_nat bits) by lia. lia.
Qed.

Lemma pow2_mul_split (c k b n : nat) :
  (c * k + b = n)%nat ->
  2 ^ (Z.of_nat c * Z.of_nat k) * 2 ^ Z.of_nat b = 2 ^ Z.of_nat n.
Proof. intros <-. rewrite <- Z.pow_add_r by lia. f_equal. lia. Qed.

Lemma pow2_mul_join (c k a b : nat) :
  (c * k = a + b)%nat ->
  2 ^ (Z.of_nat c * Z.of_nat k) = 2 ^ Z.of_nat a * 2 ^ Z.of_nat b.
Proof. intros E. rewrite <- Z.pow_add_r by lia. f_equal. lia. Qed.

(** When all three limbs are sliced ([maxBits > 176]), chunks are at most
    a limb wide and the leftover of the second limb fits in the bits
    sliced from the third, [sliceField3] is a range check to [maxBits]
    bits and returns chunks below [2^chunkSize] whose weighted sum is the
    value. *)
Lemma sliceField3_three_limbs (x : Field3) (maxBits chunkSize n0 s0 n1 s1 : nat) :
  2 ^ 88 <= p -> rangeChecked x ->
  (1 <= chunkSize <= 88)%nat -> (176 < maxBits <= 264)%nat ->
  n0 = chunkCount 88 chunkSize 0 -> s0 = (n0 * chunkSize - 88)%nat ->
  n1 = chunkCount 88 chunkSize s0 -> s1 = (s0 + n1 * chunkSize - 88)%nat ->
  (s1 <= maxBits - 176)%nat ->
  (Field3_toBigint x < 2 ^ Z.of_nat maxBits ->
     exists cs, sliceField3 x maxBits chunkSize = Ok cs
                /\ Forall (fun c => 0 <= c < 2 ^ Z.of_nat chunkSize) cs
                /\ weightedSum (Z.of_nat chunkSize) 0 cs = Field3_toBigint x)
  /\ (2 ^ Z.of_nat maxBits <= Field3_toBigint x ->
      sliceField3 x maxBits chunkSize = Err ConstraintUnsatisfied).
Proof.
  destruct x as [[x0 x1] x2]. unfold rangeChecked, l.
  intros Hp (Hx0 & Hx1 & Hx2) Hc Hm En0 Es0 En1 Es1 Hfit.
  (* the chunk counts *)
  destruct (chunkCount_bounds 88 chunkSize 0 ltac:(lia)) as [B0 B0']. rewrite <- En0 in B0, B0'.
  destruct (chunkCount_bounds 88 chunkSize s0 ltac:(lia)) as [B1 B1']. rewrite <- En1 in B1, B1'.
  destruct n0 as [|k0]; [lia|]. destruct n1 as [|k1]; [lia|].
  assert (N0 : (S k0 * chunkSize = 88 + s0)%nat) by lia.
  assert (Hs0 : (s0 < chunkSize)%nat) by lia.
  assert (N1 : (S k1 * chunkSize + s0 = 88 + s1)%nat) by lia.
  assert (Hs1 : (s1 < chunkSize)%nat) by lia.
  clear B0 B0' B1 B1'.
  set (m2 := (maxBits - 88 - 88)%nat).
  assert (Hfit' : (s1 <= m2)%nat) by (subst m2; lia).
  assert (L0 : (88 <= S k0 * chunkSize)%nat) by lia.
  assert (C0 : (chunkSize * S k0 - s0 = 88)%nat) by lia.
  assert (C1 : (chunkSize * S k1 - s1 = 88 - s0)%nat) by lia.
  assert (Q0 : (chunkSize * k0 + (chunkSize - s0) = 88)%nat) by lia.
  assert (Q1 : (chunkSize * S k0 = 88 + s0)%nat) by lia.
  assert (Q2 : (chunkSize * k1 + (chunkSize - s1) = 88 - s0)%nat) by lia.
  assert (Q3 : (chunkSize * S k1 = 88 - s0 + s1)%nat) by lia.
  assert (L1 : (88 - s0 <= S k1 * chunkSize)%nat) by lia.
  destruct (chunkCount_bounds m2 chunkSize s1 ltac:(lia)) as [L2 _].
  pose proof (Nat2Z.is_nonneg chunkSize) as Hc0.
  assert (Hpc : 2 ^ Z.of_nat chunkSize <= p).
  { apply Z.le_trans with (2 ^ 88); [|exact Hp]. apply Z.pow_le_mono_r; lia. }
  rewrite Field3_toBigint_value.
  assert (Hpm : 0 < 2 ^ Z.of_nat m2) by (apply Z.pow_pos_nonneg; lia).
  assert (Hmax : 2 ^ Z.of_nat maxBits = 2 ^ 176 * 2 ^ Z.of_nat m2).
  { rewrite <- Z.pow_add_r by lia. f_equal. subst m2. lia. }
  (* run the three calls *)
  unfold sliceField3. change (Z.to_nat l) with 88%nat.
  destruct (Nat.leb_spec maxBits (3 * 88)); [|lia]. cbn [assert bind].
  rewrite (Nat.min_l 88 maxBits) by lia.
  rewrite sliceField_first by lia.
  destruct (Z.ltb_spec x0 (2 ^ Z.of_nat 88)) as [_|Hbad]; [|change (2 ^ Z.of_nat 88) with (2 ^ 88) in Hbad; lia].
  cbn [bind chunks].
  destruct (Nat.leb_spec maxBits 88); [lia|].
  rewrite (Nat.min_l 88 (maxBits - 88)) by lia.
  rewrite <- En0, <- Es0. rewrite digits_snoc by lia.
  rewrite sliceField_next by lia.
  destruct (Z.ltb_spec x1 (2 ^ Z.of_nat 88)) as [_|Hbad]; [|change (2 ^ Z.of_nat 88) with (2 ^ 88) in Hbad; lia].
  cbn [bind chunks].
  destruct (Nat.leb_spec (maxBits - 88) 88); [lia|].
  rewrite <- En1, <- Es1. rewrite digits_snoc by lia.
  fold m2. rewrite sliceField_next by (subst m2; lia).
  clear En0 Es0 En1 Es1.
  (* the completed chunks *)
  assert (Hps0 : 0 < 2 ^ Z.of_nat s0) by (apply Z.pow_pos_nonneg; lia).
  assert (Hps1 : 0 < 2 ^ Z.of_nat s1) by (apply Z.pow_pos_nonneg; lia).
  pose proof (Z.mod_pos_bound x1 _ Hps0) as He0.
  pose proof (Z.mod_pos_bound x2 _ Hps1) as He1.
  pose proof (Z.div_mod x1 (2 ^ Z.of_nat s0) ltac:(lia)) as D1.
  pose proof (Z.div_mod x2 (2 ^ Z.of_nat s1) ltac:(lia)) as D2.
  set (c := Z.of_nat chunkSize) in *.
  set (y1 := x1 / 2 ^ Z.of_nat s0) in *.
  set (y2 := x2 / 2 ^ Z.of_nat s1) in *.
  set (e0 := x1 mod 2 ^ Z.of_nat s0) in *.
  set (e1 := x2 mod 2 ^ Z.of_nat s1) in *.
  assert (P4 : 2 ^ Z.of_nat s0 * 2 ^ Z.of_nat (88 - s0) = 2 ^ 88).
  { rewrite <- Z.pow_add_r by lia. f_equal. lia. }
  assert (Hpb : 0 < 2 ^ Z.of_nat (88 - s0)) by (apply Z.pow_pos_nonneg; lia).
  assert (Hy1 : 0 <= y1 < 2 ^ Z.of_nat (88 - s0)).
  { subst y1. split; [apply Z.div_pos; lia|].
    apply Z.div_lt_upper_bound; [lia|]. rewrite P4. lia. }
  destruct (completed_chunk x0 e0 chunkSize k0 s0) as [F0 R0];
    [lia | exact Hpc | lia | | exact He0 |].
  { rewrite C0. apply Hx0. }
  destruct (completed_chunk y1 e1 chunkSize k1 s1) as [F1 R1];
    [lia | exact Hpc | lia | | exact He1 |].
  { rewrite C1. apply Hy1. }
  fold c in F0, R0, F1, R1. rewrite F0, F1.
  (* the powers of two that meet at the limb boundaries *)
  assert (P0 : 2 ^ (c * Z.of_nat k0) * 2 ^ Z.of_nat (chunkSize - s0) = 2 ^ 88)
    by exact (pow2_mul_split chunkSize k0 (chunkSize - s0) 88 Q0).
  assert (P1 : 2 ^ (c * Z.of_nat (S k0)) = 2 ^ 88 * 2 ^ Z.of_nat s0)
    by exact (pow2_mul_join chunkSize (S k0) 88 s0 Q1).
  assert (P2 : 2 ^ (c * Z.of_nat k1) * 2 ^ Z.of_nat (chunkSize - s1)
               = 2 ^ Z.of_nat (88 - s0))
    by exact (pow2_mul_split chunkSize k1 (chunkSize - s1) (88 - s0) Q2).
  assert (P3 : 2 ^ (c * Z.of_nat (S k1)) = 2 ^ Z.of_nat (88 - s0) * 2 ^ Z.of_nat s1)
    by exact (pow2_mul_join chunkSize (S k1) (88 - s0) s1 Q3).
  destruct (Z.ltb_spec x2 (2 ^ Z.of_nat m2)) as [Hlt | Hge]; cbn [bind chunks].
  - split; [intros _ | intros Hbig; exfalso; rewrite Hmax in Hbig; clear - Hbig Hlt Hx0 Hx1 Hx2; lia].
    eexists. split; [reflexivity|]. split.
    + repeat (apply Forall_app; split); try (apply digits_bound; exact Hc0).
      * apply Forall_cons; [exact R0 | apply Forall_nil].
      * apply Forall_cons; [exact R1 | apply Forall_nil].
    + pose proof (div_pow2_range x2 m2 s1 (conj (proj1 Hx2) Hlt) Hfit') as Hy2.
      fold y2 in Hy2.
      rewrite (weightedSum_app _ (digits _ k0 x0 ++ [_])) by exact Hc0.
      rewrite (weightedSum_app _ (digits _ k1 y1 ++ [_])) by exact Hc0.
      rewrite !length_app, !digits_length. cbn [length].
      rewrite !Nat.add_1_r.
      subst c. rewrite !weightedSum_completed.
      rewrite (weightedSum_digits_small chunkSize (S k0) x0 88 Hx0 L0).
      rewrite (weightedSum_digits_small chunkSize (S k1) y1 (88 - s0) Hy1 L1).
      rewrite (weightedSum_digits_small chunkSize _ y2 (m2 - s1) Hy2 L2).
      rewrite P1, P3.
      replace (2 ^ (Z.of_nat chunkSize * Z.of_nat k0)
               * (e0 * 2 ^ Z.of_nat (chunkSize - s0))) with (2 ^ 88 * e0)
        by (rewrite <- P0; ring).
      replace (2 ^ (Z.of_nat chunkSize * Z.of_nat k1)
               * (e1 * 2 ^ Z.of_nat (chunkSize - s1)))
        with (2 ^ Z.of_nat (88 - s0) * e1)
        by (rewrite <- P2; ring).
      rewrite D1 at 1. rewrite D2 at 1.
      replace (2 ^ 176) with (2 ^ 88 * (2 ^ Z.of_nat s0 * 2 ^ Z.of_nat (88 - s0)))
        by (rewrite P4; reflexivity).
      ring.
  - split; [intros Hsmall; exfalso; rewrite Hmax in Hsmall; clear - Hsmall Hge Hx0 Hx1 Hx2; lia | reflexivity].
Qed.

(** ** [divMod32] against the reference of its unit test *)

Lemma divMod32Helper_value (z : Z) :
  0 <= z -> divMod32Helper z = (z mod 2 ^ 32, z / 2 ^ 32).
Proof.
  intros Hz. unfold divMod32Helper.
  destruct (shift32_split z Hz) as [-> ->]. reflexivity.
Qed.

(** X1.  The unit test of arithmetic.ts, for every field value: [divMod32]
    succeeds exactly when the reference does, that is when [n < 2^64], and
    then returns the reference's remainder and quotient, as constants for a
    constant [n] and as variables otherwise; for [n >= 2^64] the reference
    fails its assertion and so does the constant branch, while the variable
    branch fails the range check of the quotient. *)
Theorem divMod32_equivalent_to_helper (n : Field) :
  0 <= toBigInt n < p ->
  (toBigInt n < 2 ^ 64 ->
     exists out,
       divMod32_default n = Ok out
       /\ divMod32Expected (toBigInt n)
          = Ok (toBigInt (remainder out), toBigInt (quotient out))
       /\ isConstant (remainder out) = isConstant n
       /\ isConstant (quotient out) = isConstant n)
  /\ (2 ^ 64 <= toBigInt n ->
      divMod32Expected (toBigInt n) = Err AssertionError
      /\ divMod32_default n
         = Err (if isConstant n then AssertionError else RangeViolation)).
Proof.
  intros Hn. unfold divMod32_default, divMod32Expected.
  rewrite Z.shiftl_1_l, divMod32Helper_value by lia.
  assert (Hq0 : 0 <= toBigInt n / 2 ^ 32 <= toBigInt n).
  { split; [apply Z.div_pos; lia | apply Z.div_le_upper_bound; nia]. }
  split; intros Hb.
  - destruct (Z.ltb_spec (toBigInt n) (2 ^ 64)) as [_|]; [|lia]. cbn [assert bind].
    destruct (isConstant n) eqn:Hc.
    + rewrite divMod32_constant by assumption.
      destruct (Z.ltb_spec (toBigInt n) (2 ^ 64)) as [_|]; [|lia].
      eexists. split; [reflexivity|]. cbn [remainder quotient toBigInt isConstant].
      repeat split.
    + rewrite divMod32_variable by assumption.
      change (32 =? 1) with false. cbv iota.
      rewrite rangeCheckN_eval by (reflexivity || lia).
      assert (Hq : toBigInt n / 2 ^ 32 < 2 ^ 32)
        by (apply Z.div_lt_upper_bound; [lia | change (2 ^ 32 * 2 ^ 32) with (2 ^ 64); lia]).
      destruct (Z.ltb_spec (toBigInt n / 2 ^ 32) (2 ^ 32)) as [_|]; [|lia].
      eexists. split; [reflexivity|]. cbn [remainder quotient toBigInt isConstant].
      repeat split.
  - destruct (Z.ltb_spec (toBigInt n) (2 ^ 64)) as [|_]; [lia|]. cbn [assert bind].
    split; [reflexivity|].
    destruct (isConstant n) eqn:Hc.
    + rewrite divMod32_constant by assumption.
      destruct (Z.ltb_spec (toBigInt n) (2 ^ 64)) as [|_]; [lia | reflexivity].
    + rewrite divMod32_variable by assumption.
      change (32 =? 1) with false. cbv iota.
      rewrite rangeCheckN_eval by (reflexivity || lia).
      assert (Hq : 2 ^ 32 <= toBigInt n / 2 ^ 32)
        by (apply Z.div_le_lower_bound; [lia | change (2 ^ 32 * 2 ^ 32) with (2 ^ 64); lia]).
      destruct (Z.ltb_spec (toBigInt n / 2 ^ 32) (2 ^ 32)) as [|_]; [lia | reflexivity].
Qed.

(** ** [addMod32] on 32-bit words *)

Lemma addMod32_eval (x y : Field) :
  2 ^ 33 <= p ->
  0 <= toBigInt x -> 0 <= toBigInt y -> toBigInt x + toBigInt y < 2 ^ 33 ->
  addMod32 x y
  = Ok (mkField (isConstant x && isConstant y)
                ((toBigInt x + toBigInt y) mod 2 ^ 32)).
Proof.
  intros Hp Hx Hy Hs. set (s := toBigInt x + toBigInt y) in *.
  assert (Hv : toBigInt (Field_add x y) = s).
  { unfold Field_add, Fadd. cbn [toBigInt]. apply Z.mod_small. subst s. lia. }
  assert (Hc : isConstant (Field_add x y) = isConstant x && isConstant y) by reflexivity.
  assert (Hq0 : 0 <= s / 2 ^ 32) by (apply Z.div_pos; subst s; lia).
  assert (Hq : s / 2 ^ 32 < 2)
    by (apply Z.div_lt_upper_bound; [lia | change (2 ^ 32 * 2) with (2 ^ 33); lia]).
  unfold addMod32.
  destruct (isConstant x && isConstant y) eqn:E.
  - rewrite divMod32_constant by (rewrite ?Hv, ?Hc; subst s; lia || assumption).
    rewrite Hv. destruct (Z.ltb_spec s (2 ^ 64)) as [_|]; [reflexivity | lia].
  - rewrite divMod32_variable by (rewrite ?Hv, ?Hc; subst s; lia || assumption).
    rewrite Hv. change (1 =? 1) with true. cbv iota.
    rewrite Bool_check_eval by nia.
    destruct (Z.ltb_spec (s / 2 ^ 32) 2) as [_|]; [reflexivity | lia].
Qed.

(** X2.  On 32-bit words [addMod32] never fails, and chained calls add modulo
    [2^32] whatever the bracketing: both [addMod32(addMod32(x, y), z)] and
    [addMod32(x, addMod32(y, z))] return [(x + y + z) mod 2^32], a constant
    exactly when all three inputs are constants. *)
Theorem addMod32_associative (x y z : Field) :
  2 ^ 33 <= p ->
  0 <= toBigInt x < 2 ^ 32 -> 0 <= toBigInt y < 2 ^ 32 -> 0 <= toBigInt z < 2 ^ 32 ->
  (xy <- addMod32 x y ;; addMod32 xy z)
  = Ok (mkField (isConstant x && isConstant y && isConstant z)
                ((toBigInt x + toBigInt y + toBigInt z) mod 2 ^ 32))
  /\ (yz <- addMod32 y z ;; addMod32 x yz)
     = (xy <- addMod32 x y ;; addMod32 xy z).
Proof.
  intros Hp Hx Hy Hz.
  pose proof (Z.mod_pos_bound (toBigInt x + toBigInt y) (2 ^ 32) ltac:(lia)) as Hxy.
  pose proof (Z.mod_pos_bound (toBigInt y + toBigInt z) (2 ^ 32) ltac:(lia)) as Hyz.
  rewrite (addMod32_eval x y), (addMod32_eval y z) by lia. cbn [bind].
  rewrite !addMod32_eval by (cbn [toBigInt]; lia). cbn [toBigInt isConstant].
  rewrite Zplus_mod_idemp_l, Zplus_mod_idemp_r, Z.add_assoc, andb_assoc.
  split; reflexivity.
Qed.

(** X3.  [quotientBits] is enforced on variables only.  For a variable [n] and
    a positive multiple of 16 [quotientBits], [divMod32(n, quotientBits)]
    is a range check of [n] to [32 + quotientBits] bits: below that bound
    it returns [n mod 2^32] and [n div 2^32], at or above it the range
    check of the quotient fails.  For a constant [n] the argument is
    ignored: the call behaves as with the default of 32. *)
Theorem divMod32_quotientBits (n : Field) (quotientBits : Z) :
  0 <= toBigInt n < p -> 0 < quotientBits -> quotientBits mod 16 = 0 ->
  (isConstant n = false ->
     (toBigInt n < 2 ^ (32 + quotientBits) ->
        divMod32 n quotientBits
        = Ok {| remainder := mkField false (toBigInt n mod 2 ^ 32);
                quotient := mkField false (toBigInt n / 2 ^ 32) |})
     /\ (2 ^ (32 + quotientBits) <= toBigInt n ->
         divMod32 n quotientBits = Err RangeViolation))
  /\ (isConstant n = true -> divMod32 n quotientBits = divMod32 n 32).
Proof.
  intros Hn Hq Hmod. split; intros Hc.
  - rewrite divMod32_variable by assumption.
    assert (Hne : quotientBits <> 1) by (intros ->; discriminate).
    destruct (Z.eqb_spec quotientBits 1) as [|_]; [contradiction|].
    assert (Hq0 : 0 <= toBigInt n / 2 ^ 32 <= toBigInt n).
    { split; [apply Z.div_pos; lia | apply Z.div_le_upper_bound; nia]. }
    rewrite rangeCheckN_eval by lia.
    assert (Hsplit : 2 ^ (32 + quotientBits) = 2 ^ 32 * 2 ^ quotientBits)
      by (apply Z.pow_add_r; lia).
    rewrite Hsplit. split; intros Hb.
    + assert (toBigInt n / 2 ^ 32 < 2 ^ quotientBits)
        by (apply Z.div_lt_upper_bound; lia).
      destruct (Z.ltb_spec (toBigInt n / 2 ^ 32) (2 ^ quotientBits)) as [_|];
        [reflexivity | lia].
    + assert (2 ^ quotientBits <= toBigInt n / 2 ^ 32)
        by (apply Z.div_le_lower_bound; lia).
      destruct (Z.ltb_spec (toBigInt n / 2 ^ 32) (2 ^ quotientBits)) as [|_];
        [lia | reflexivity].
  - rewrite !divMod32_constant by assumption. reflexivity.
Qed.

(** ** Arrays of words and bytes *)

Lemma wordToBytes_cases (word : Z) (k : nat) :
  0 <= word < p ->
  wordToBytes word k
  = if word <? 2 ^ (8 * Z.of_nat k)
    then Ok (digits 8 k word) else Err ConstraintUnsatisfied.
Proof.
  intros Hw. rewrite wordToBytes_eval, bytesToWord_digits by assumption.
  assert (Hpow : 0 < 2 ^ (8 * Z.of_nat k)) by (apply Z.pow_pos_nonneg; lia).
  pose proof (Z.mod_pos_bound word _ Hpow) as Hb.
  unfold assertEquals.
  destruct (Z.ltb_spec word (2 ^ (8 * Z.of_nat k))).
  - rewrite Z.mod_small by lia. now rewrite Z.eqb_refl.
  - destruct (Z.eqb_spec (word mod 2 ^ (8 * Z.of_nat k)) word); [lia | reflexivity].
Qed.

Lemma wordsToBytes_eval (words : list Z) (k : nat) :
  Forall (fun w => 0 <= w < p) words ->
  wordsToBytes words k
  = if forallb (fun w => w <? 2 ^ (8 * Z.of_nat k)) words
    then Ok (concat (map (digits 8 k) words))
    else Err ConstraintUnsatisfied.
Proof.
  unfold wordsToBytes.
  induction 1 as [|w rest Hw _ IH]; cbn [flatMap forallb map concat]; [reflexivity|].
  rewrite wordToBytes_cases by assumption.
  destruct (w <? 2 ^ (8 * Z.of_nat k)); cbn [bind andb]; [|reflexivity].
  rewrite IH. destruct (forallb _ rest); reflexivity.
Qed.

Lemma concat_digits_length (words : list Z) (k : nat) :
  length (concat (map (digits 8 k) words)) = (k * length words)%nat.
Proof.
  induction words as [|w rest IH]; cbn [map concat length]; [lia|].
  rewrite length_app, digits_length, IH. lia.
Qed.

Lemma concat_digits_bound (words : list Z) (k : nat) :
  Forall (fun b => 0 <= b < 2 ^ 8) (concat (map (digits 8 k) words)).
Proof.
  induction words as [|w rest IH]; cbn [map concat]; [constructor|].
  apply Forall_app. split; [apply digits_bound; lia | exact IH].
Qed.

(** X4.  [wordsToBytes(words, k)] succeeds exactly when every word is below
    [2^(8k)]; it then returns the [k] little-endian bytes of each word, one
    word after the other, [k] times as many bytes as words, each below 256.
    A single word of [2^(8k)] or more makes the whole call fail on its
    decomposition check. *)
Theorem wordsToBytes_spec (words : list Z) (k : nat) :
  Forall (fun w => 0 <= w < p) words ->
  (Forall (fun w => w < 2 ^ (8 * Z.of_nat k)) words ->
     wordsToBytes words k = Ok (concat (map (digits 8 k) words)))
  /\ (Exists (fun w => 2 ^ (8 * Z.of_nat k) <= w) words ->
      wordsToBytes words k = Err ConstraintUnsatisfied)
  /\ (forall bytes, wordsToBytes words k = Ok bytes ->
        length bytes = (k * length words)%nat
        /\ Forall (fun b => 0 <= b < 2 ^ 8) bytes).
Proof.
  intros Hw. rewrite wordsToBytes_eval by assumption.
  split; [|split].
  - intros Hs.
    replace (forallb _ words) with true; [reflexivity|].
    symmetry. apply forallb_forall. intros w Hin.
    rewrite Forall_forall in Hs. apply Z.ltb_lt. now apply Hs.
  - intros He.
    replace (forallb _ words) with false; [reflexivity|].
    symmetry. apply Bool.not_true_is_false. intros Hall.
    rewrite forallb_forall in Hall. apply Exists_exists in He.
    destruct He as (w & Hin & Hge). apply Hall, Z.ltb_lt in Hin. lia.
  - intros bytes. destruct (forallb _ words); [|discriminate].
    intros [= <-]. split; [apply concat_digits_length | apply concat_digits_bound].
Qed.

Lemma concat_groups_length {A : Type} (groups : list (list A)) (size : nat) :
  Forall (fun g => length g = size) groups ->
  length (concat groups) = (length groups * size)%nat.
Proof.
  induction 1 as [|g rest Hg _ IH]; cbn [concat length]; [reflexivity|].
  rewrite length_app, IH, Hg. reflexivity.
Qed.

Lemma slices_of_concat {A : Type} (groups : list (list A)) (size : nat) :
  Forall (fun g => length g = size) groups ->
  map (fun i => firstn size (skipn (size * i) (concat groups)))
      (seq 0 (length groups))
  = groups.
Proof.
  induction 1 as [|g rest Hg _ IH]; [reflexivity|].
  cbn [length concat seq map]. f_equal.
  - rewrite Nat.mul_0_r. cbn [skipn].
    rewrite firstn_app, Hg, Nat.sub_diag. cbn [firstn].
    rewrite app_nil_r. rewrite <- Hg. apply firstn_all.
  - rewrite <- seq_shift, map_map. rewrite <- IH at 2.
    apply map_ext. intros i. f_equal.
    rewrite Nat.mul_succ_r, <- skipn_skipn.
    f_equal. rewrite skipn_app, Hg, Nat.sub_diag. cbn [skipn].
    rewrite <- Hg at 1. now rewrite skipn_all.
Qed.

Lemma chunk_concat {A : Type} (groups : list (list A)) (size : nat) :
  (1 <= size)%nat -> Forall (fun g => length g = size) groups ->
  chunk (concat groups) size = Ok groups.
Proof.
  intros Hs Hg. unfold chunk.
  rewrite (concat_groups_length groups size Hg).
  destruct (Nat.ltb_spec 0 size); [|lia].
  rewrite Nat.Div0.mod_mul, Nat.div_mul by lia.
  cbn [Nat.eqb andb assert bind]. now rewrite slices_of_concat.
Qed.

Lemma groups_of_multiple {A : Type} (size n : nat) :
  forall bytes : list A,
    length bytes = (n * size)%nat ->
    exists groups, concat groups = bytes
                   /\ Forall (fun g => length g = size) groups.
Proof.
  induction n as [|n IH]; intros bytes Hl.
  - exists []. destruct bytes; [split; constructor | discriminate].
  - destruct (IH (skipn size bytes)) as (groups & Hc & Hg).
    { rewrite length_skipn, Hl. cbn [Nat.mul]. lia. }
    exists (firstn size bytes :: groups). split.
    + cbn [concat]. rewrite Hc. apply firstn_skipn.
    + constructor; [|exact Hg]. rewrite length_firstn, Hl. cbn [Nat.mul]. lia.
Qed.

Lemma wordToBytes_bytesToWord_group (B : list Z) :
  Forall (fun b => 0 <= b < 2 ^ 8) B -> 2 ^ (8 * Z.of_nat (length B)) <= p ->
  wordToBytes (bytesToWord B) (length B) = Ok B.
Proof.
  intros HB Hp.
  pose proof (weightedSum_range 8 B ltac:(lia) HB) as Hr.
  assert (Hw : bytesToWord B = weightedSum 8 0 B).
  { rewrite bytesToWord_weightedSum. apply Z.mod_small. lia. }
  rewrite wordToBytes_eval, Hw.
  rewrite digits_weightedSum by (lia || assumption).
  rewrite Hw. unfold assertEquals. now rewrite Z.eqb_refl.
Qed.

(** X5.  Words survive the trip to bytes and back:
    [bytesToWords(wordsToBytes(words, k), k)] returns [words] for words
    below [2^(8k)] and [k >= 1]. *)
Theorem bytesToWords_wordsToBytes_roundtrip (words : list Z) (k : nat) :
  (1 <= k)%nat ->
  Forall (fun w => 0 <= w < p) words ->
  Forall (fun w => w < 2 ^ (8 * Z.of_nat k)) words ->
  (bytes <- wordsToBytes words k ;; bytesToWords bytes k) = Ok words.
Proof.
  intros Hk Hw Hs. rewrite wordsToBytes_eval by assumption.
  replace (forallb _ words) with true.
  2:{ symmetry. apply forallb_forall. intros w Hin.
      rewrite Forall_forall in Hs. apply Z.ltb_lt. now apply Hs. }
  cbn [bind]. unfold bytesToWords.
  rewrite chunk_concat.
  - cbn [bind]. f_equal. rewrite map_map.
    rewrite <- (map_id words) at 2. apply map_ext_Forall.
    rewrite Forall_forall in Hw, Hs. apply Forall_forall. intros w Hin.
    rewrite bytesToWord_digits by now apply Hw.
    apply Z.mod_small. split; [now apply Hw | now apply Hs].
  - exact Hk.
  - apply Forall_map, Forall_forall. intros w _. apply digits_length.
Qed.

(** X6.  Bytes survive the trip to words and back: for [k >= 1] bytes per word
    with [2^(8k)] at most the native modulus, and a number of bytes that is
    a multiple of [k], [wordsToBytes(bytesToWords(bytes, k), k)] returns
    [bytes]. *)
Theorem wordsToBytes_bytesToWords_roundtrip (bytes : list Z) (k n : nat) :
  (1 <= k)%nat -> 2 ^ (8 * Z.of_nat k) <= p ->
  length bytes = (n * k)%nat ->
  Forall (fun b => 0 <= b < 2 ^ 8) bytes ->
  (words <- bytesToWords bytes k ;; wordsToBytes words k) = Ok bytes.
Proof.
  intros Hk Hp Hl Hb.
  destruct (groups_of_multiple k n bytes Hl) as (groups & <- & Hg).
  unfold bytesToWords. rewrite chunk_concat by assumption. cbn [bind].
  clear Hl. unfold wordsToBytes.
  induction Hg as [|g rest Hgl Hg IH]; [reflexivity|].
  cbn [concat] in Hb. apply Forall_app in Hb. destruct Hb as [Hbg Hbr].
  cbn [map flatMap concat].
  rewrite <- Hgl at 1. rewrite wordToBytes_bytesToWord_group
    by (assumption || (rewrite Hgl; exact Hp)).
  cbn [bind]. rewrite (IH Hbr). reflexivity.
Qed.

(** ** One call of [sliceField] *)

(** X7.  Without a leftover, [sliceField(x, maxBits, chunkSize)] is a range
    check of [x] to [maxBits] bits.  For [x < 2^maxBits] it returns chunks
    below [2^chunkSize] whose weighted sum is [x], as many as cover
    [maxBits] bits, and the number of free bits of the last chunk, which is
    less than [chunkSize]; for [x >= 2^maxBits] its sum assertion fails. *)
Theorem sliceField_range_check (x : Z) (maxBits chunkSize : nat) :
  0 <= x < p -> (1 <= chunkSize)%nat ->
  (x < 2 ^ Z.of_nat maxBits ->
     exists cs lo,
       sliceField x maxBits chunkSize None
       = Ok ([], {| chunks := cs; leftoverSize := lo |})
       /\ Forall (fun c => 0 <= c < 2 ^ Z.of_nat chunkSize) cs
       /\ weightedSum (Z.of_nat chunkSize) 0 cs = x
       /\ (length cs * chunkSize = maxBits + lo)%nat
       /\ (lo < chunkSize)%nat)
  /\ (2 ^ Z.of_nat maxBits <= x ->
      sliceField x maxBits chunkSize None = Err ConstraintUnsatisfied).
Proof.
  intros Hx Hc. rewrite sliceField_first by assumption.
  destruct (chunkCount_bounds maxBits chunkSize 0 Hc) as [B B'].
  rewrite Nat.sub_0_r in B, B'.
  split; intros Hb.
  - destruct (Z.ltb_spec x (2 ^ Z.of_nat maxBits)) as [_|]; [|lia].
    eexists. eexists. split; [reflexivity|].
    split; [apply digits_bound; lia|].
    split; [apply (weightedSum_digits_small chunkSize _ x maxBits); [lia | exact B]|].
    rewrite digits_length. lia.
  - destruct (Z.ltb_spec x (2 ^ Z.of_nat maxBits)) as [|_]; [lia | reflexivity].
Qed.

(** X8.  "If [chunkSize] does not divide [maxBits], the last chunk will be
    smaller": the last chunk that [sliceField] returns has only
    [chunkSize - leftoverSize] bits. *)
Theorem sliceField_last_chunk (x : Z) (maxBits chunkSize : nat) (r : Slice) (c : Z) :
  0 <= x < p -> (1 <= chunkSize)%nat ->
  sliceField x maxBits chunkSize None = Ok ([], r) ->
  lastChunk (chunks r) = Some c ->
  0 <= c < 2 ^ Z.of_nat (chunkSize - leftoverSize r).
Proof.
  intros Hx Hc. rewrite sliceField_first by assumption.
  destruct (Z.ltb_spec x (2 ^ Z.of_nat maxBits)) as [Hlt|]; [|discriminate].
  intros [= <-]. cbn [chunks leftoverSize].
  destruct (chunkCount_bounds maxBits chunkSize 0 Hc) as [B B'].
  rewrite Nat.sub_0_r in B, B'.
  destruct (chunkCount maxBits chunkSize 0) as [|k]; [discriminate|].
  rewrite digits_snoc, lastChunk_snoc by lia. intros [= <-].
  assert (Hk : (chunkSize * k <= maxBits)%nat) by lia.
  pose proof (div_pow2_range x maxBits (chunkSize * k) ltac:(lia) Hk) as Hq.
  rewrite Nat2Z.inj_mul in Hq.
  replace (maxBits - chunkSize * k)%nat with (chunkSize - (S k * chunkSize - maxBits))%nat
    in Hq by lia.
  assert (Hpc : 0 < 2 ^ Z.of_nat chunkSize) by (apply Z.pow_pos_nonneg; lia).
  pose proof (Z.mod_pos_bound (x / 2 ^ (Z.of_nat chunkSize * Z.of_nat k)) _ Hpc).
  pose proof (Z.mod_le (x / 2 ^ (Z.of_nat chunkSize * Z.of_nat k)) _ ltac:(lia) Hpc).
  lia.
Qed.

(** ** Arguments on which [sliceField3] does not return *)

Lemma witnessBits_length (x : Z) (maxBits : nat) :
  length (witnessBits x maxBits) = maxBits.
Proof. unfold witnessBits. now rewrite length_map, length_seq. Qed.

Lemma sumBits_out_of_bounds (x : Z) (maxBits start : nat) :
  forall (count j : nat) (acc : Z),
    (0 < count)%nat -> (maxBits < start + j + count)%nat ->
    sumBits (witnessBits x maxBits) start j count acc = Err TypeError.
Proof.
  induction count as [|count IH]; intros j acc Hpos Hout; [lia|].
  cbn [sumBits].
  destruct (Nat.lt_ge_cases (start + j) maxBits) as [Hin | Hpast].
  - rewrite witnessBits_nth by assumption.
    rewrite Bool_check_bit. cbn [bind]. apply IH; lia.
  - replace (nth_error (witnessBits x maxBits) (start + j)) with (@None Z);
      [reflexivity|].
    symmetry. apply nth_error_None. now rewrite witnessBits_length.
Qed.

(** X9.  When the first limb leaves more free bits in its last chunk than are
    sliced from the second limb, completing that chunk reads past the end
    of the second limb's bit array: [sliceField3] throws on every input
    whose first limb is in range, whatever the other two limbs are. *)
Theorem sliceField3_leftover_out_of_bounds (x0 x1 x2 : Z) (maxBits chunkSize : nat) :
  2 ^ 88 <= p -> 0 <= x0 < 2 ^ 88 ->
  (1 <= chunkSize)%nat -> (88 < maxBits <= 264)%nat ->
  (Nat.min 88 (maxBits - 88) < chunkCount 88 chunkSize 0 * chunkSize - 88)%nat ->
  sliceField3 (x0, x1, x2) maxBits chunkSize = Err TypeError.
Proof.
  intros Hp Hx0 Hc Hm Hover. unfold sliceField3.
  change (Z.to_nat l) with 88%nat.
  destruct (Nat.leb_spec maxBits (3 * 88)) as [_|]; [|lia]. cbn [assert bind].
  rewrite (Nat.min_l 88 maxBits) by lia.
  rewrite sliceField_first by lia.
  destruct (Z.ltb_spec x0 (2 ^ Z.of_nat 88)) as [_|Hbad];
    [|change (2 ^ Z.of_nat 88) with (2 ^ 88) in Hbad; lia].
  cbn [bind chunks].
  destruct (Nat.leb_spec maxBits 88) as [|_]; [lia|].
  unfold sliceField at 1. cbn [chunks leftoverSize].
  rewrite sumBits_out_of_bounds by lia. reflexivity.
Qed.

Lemma sliceLoop_zero_chunkSize (bits : list Z) (maxBits i : nat) :
  (i < maxBits)%nat ->
  forall (fuel : nat) (chunks : list Z) (sum : Z),
    sliceLoop fuel bits maxBits 0 i chunks sum = Err Diverges.
Proof.
  intros Hi. induction fuel as [|fuel IH]; intros chunks sum; cbn [sliceLoop];
    destruct (Nat.ltb_spec i maxBits) as [_|]; try lia; [reflexivity|].
  rewrite Nat.min_0_r. cbn [sumBits bind]. rewrite Nat.add_0_r. apply IH.
Qed.

(** X10.  With [chunkSize = 0] the slicing loop never advances: however many
    iterations it is given it has not come to an end, and [sliceField3]
    does not return, for every input and every [maxBits] from 1 to 264. *)
Theorem sliceField3_zero_chunkSize_never_ends (x : Field3) (maxBits : nat) :
  (1 <= maxBits <= 264)%nat ->
  sliceField3 x maxBits 0 = Err Diverges
  /\ forall (fuel : nat) (chunks : list Z) (sum : Z),
       sliceLoop fuel (witnessBits (fst (fst x)) (Nat.min 88 maxBits))
                 (Nat.min 88 maxBits) 0 0 chunks sum
       = Err Diverges.
Proof.
  intros Hm. destruct x as [[x0 x1] x2]. cbn [fst].
  assert (Hi : (0 < Nat.min 88 maxBits)%nat) by lia.
  split; [|apply sliceLoop_zero_chunkSize; exact Hi].
  unfold sliceField3. change (Z.to_nat l) with 88%nat.
  destruct (Nat.leb_spec maxBits (3 * 88)) as [_|]; [|lia]. cbn [assert bind].
  unfold sliceField at 1. cbn [bind].
  rewrite sliceLoop_zero_chunkSize by exact Hi. reflexivity.
Qed.

(** ** [sliceField3] with a chunk size that divides the limb size *)

Lemma digits_app (b : Z) (n m : nat) :
  0 <= b -> forall a y, 0 <= a < 2 ^ (b * Z.of_nat n) ->
  digits b (n + m) (a + 2 ^ (b * Z.of_nat n) * y) = digits b n a ++ digits b m y.
Proof.
  intros Hb. induction n as [|n IH]; intros a y Ha.
  - rewrite Z.mul_0_r in *. change (2 ^ 0) with 1 in *.
    replace a with 0 by lia. cbn [Nat.add digits app]. f_equal. lia.
  - assert (Hpb : 0 < 2 ^ b) by (apply Z.pow_pos_nonneg; lia).
    assert (Hpn : 0 < 2 ^ (b * Z.of_nat n)) by (apply Z.pow_pos_nonneg; lia).
    assert (Hsplit : 2 ^ (b * Z.of_nat (S n)) = 2 ^ (b * Z.of_nat n) * 2 ^ b).
    { rewrite <- Z.pow_add_r by lia. f_equal. lia. }
    rewrite Hsplit in *.
    replace (a + 2 ^ (b * Z.of_nat n) * 2 ^ b * y)
      with (a + 2 ^ (b * Z.of_nat n) * y * 2 ^ b) by ring.
    cbn [Nat.add digits app].
    rewrite Z_mod_plus_full, Z.div_add by lia.
    rewrite IH; [reflexivity|].
    split; [apply Z.div_pos; lia|].
    apply Z.div_lt_upper_bound; lia.
Qed.

Lemma divisor_of_limb (chunkSize k : nat) :
  (chunkSize * k = 88)%nat -> (1 <= chunkSize <= 88)%nat /\ (1 <= k)%nat.
Proof.
  intros E. destruct chunkSize as [|c]; [discriminate|].
  destruct k as [|k]; [rewrite Nat.mul_0_r in E; discriminate|].
  assert (S c <= S c * S k)%nat by (rewrite Nat.mul_succ_r; lia). lia.
Qed.

Lemma chunkCount_aligned (chunkSize k maxBits : nat) :
  (chunkSize * k = 88)%nat -> (88 <= maxBits)%nat ->
  chunkCount maxBits chunkSize 0 = (k + chunkCount (maxBits - 88) chunkSize 0)%nat.
Proof.
  intros E Hm. unfold chunkCount. rewrite !Nat.sub_0_r.
  assert (Hc : chunkSize <> 0%nat) by (intros ->; discriminate).
  replace (maxBits + chunkSize - 1)%nat
    with (maxBits - 88 + chunkSize - 1 + k * chunkSize)%nat by lia.
  rewrite Nat.div_add by exact Hc. lia.
Qed.

Lemma chunkCount_limb (chunkSize k : nat) :
  (chunkSize * k = 88)%nat -> chunkCount 88 chunkSize 0 = k.
Proof.
  intros E. rewrite (chunkCount_aligned chunkSize k 88 E (Nat.le_refl _)).
  assert (Hc : chunkSize <> 0%nat) by (intros ->; discriminate).
  unfold chunkCount. cbn [Nat.sub Nat.add].
  rewrite Nat.div_small by lia. lia.
Qed.

(** With no free bits left in the previous chunk there is nothing to
    complete: the previous chunks stay as they are. *)
Lemma sliceField_next_aligned (x : Z) (maxBits chunkSize : nat) (prev : list Z) :
  0 <= x < p -> (1 <= chunkSize)%nat ->
  prev <> [] -> Forall (fun c => 0 <= c < p) prev ->
  sliceField x maxBits chunkSize (Some {| chunks := prev; leftoverSize := 0 |})
  = if x <? 2 ^ Z.of_nat maxBits
    then Ok (prev,
             {| chunks := digits (Z.of_nat chunkSize) (chunkCount maxBits chunkSize 0) x;
                leftoverSize := chunkCount maxBits chunkSize 0 * chunkSize - maxBits |})
    else Err ConstraintUnsatisfied.
Proof.
  intros Hx Hc Hne Hprev.
  destruct (exists_last Hne) as [init [lastv ->]].
  apply Forall_app in Hprev. destruct Hprev as [_ Hl].
  inversion Hl as [|? ? Hlv _]; subst.
  rewrite sliceField_next by lia.
  change (2 ^ Z.of_nat 0) with 1. rewrite Z.mod_1_r, Z.div_1_r.
  unfold Fmul, Fadd.
  rewrite Z.mul_0_l, Zmod_0_l, Z.add_0_r, (Z.mod_small lastv) by lia.
  cbn [Nat.add]. reflexivity.
Qed.

Lemma digits_in_field (chunkSize n : nat) (x : Z) :
  2 ^ Z.of_nat chunkSize <= p ->
  Forall (fun c => 0 <= c < p) (digits (Z.of_nat chunkSize) n x).
Proof.
  intros Hp. eapply Forall_impl; [|apply digits_bound; lia].
  cbn beta. intros c Hc. lia.
Qed.

Lemma digits_nonempty (b : Z) (n : nat) (x : Z) :
  (1 <= n)%nat -> digits b n x <> [].
Proof. destruct n; [lia|]. discriminate. Qed.

Lemma sliceField3_aligned_two (x0 x1 x2 : Z) (maxBits chunkSize k : nat) :
  2 ^ 88 <= p -> 0 <= x0 < 2 ^ 88 -> 0 <= x1 < p ->
  (chunkSize * k = 88)%nat -> (88 < maxBits <= 176)%nat ->
  sliceField3 (x0, x1, x2) maxBits chunkSize
  = if x1 <? 2 ^ Z.of_nat (maxBits - 88)
    then Ok (digits (Z.of_nat chunkSize) k x0
             ++ digits (Z.of_nat chunkSize) (chunkCount (maxBits - 88) chunkSize 0) x1)
    else Err ConstraintUnsatisfied.
Proof.
  intros Hp Hx0 Hx1 E Hm.
  destruct (divisor_of_limb chunkSize k E) as [Hc Hk].
  assert (Hpc : 2 ^ Z.of_nat chunkSize <= p).
  { apply Z.le_trans with (2 ^ 88); [|exact Hp]. apply Z.pow_le_mono_r; lia. }
  unfold sliceField3. change (Z.to_nat l) with 88%nat.
  destruct (Nat.leb_spec maxBits (3 * 88)) as [_|]; [|lia]. cbn [assert bind].
  rewrite (Nat.min_l 88 maxBits) by lia.
  rewrite sliceField_first by lia.
  rewrite (proj2 (Z.ltb_lt x0 (2 ^ Z.of_nat 88)) (proj2 Hx0)).
  cbn [bind chunks].
  destruct (Nat.leb_spec maxBits 88) as [|_]; [lia|].
  rewrite (Nat.min_r 88 (maxBits - 88)) by lia.
  rewrite (chunkCount_limb chunkSize k E).
  replace (k * chunkSize - 88)%nat with 0%nat by lia.
  rewrite sliceField_next_aligned
    by (lia || (apply digits_nonempty; exact Hk) || (apply digits_in_field; exact Hpc)).
  destruct (x1 <? 2 ^ Z.of_nat (maxBits - 88)); [|reflexivity].
  cbn [bind chunks].
  destruct (Nat.leb_spec (maxBits - 88) 88) as [_|]; [reflexivity | lia].
Qed.

Lemma sliceField3_aligned_three (x0 x1 x2 : Z) (maxBits chunkSize k : nat) :
  2 ^ 88 <= p -> 0 <= x0 < 2 ^ 88 -> 0 <= x1 < 2 ^ 88 -> 0 <= x2 < p ->
  (chunkSize * k = 88)%nat -> (176 < maxBits <= 264)%nat ->
  sliceField3 (x0, x1, x2) maxBits chunkSize
  = if x2 <? 2 ^ Z.of_nat (maxBits - 176)
    then Ok (digits (Z.of_nat chunkSize) k x0
             ++ digits (Z.of_nat chunkSize) k x1
             ++ digits (Z.of_nat chunkSize) (chunkCount (maxBits - 176) chunkSize 0) x2)
    else Err ConstraintUnsatisfied.
Proof.
  intros Hp Hx0 Hx1 Hx2 E Hm.
  destruct (divisor_of_limb chunkSize k E) as [Hc Hk].
  assert (Hpc : 2 ^ Z.of_nat chunkSize <= p).
  { apply Z.le_trans with (2 ^ 88); [|exact Hp]. apply Z.pow_le_mono_r; lia. }
  unfold sliceField3. change (Z.to_nat l) with 88%nat.
  destruct (Nat.leb_spec maxBits (3 * 88)) as [_|]; [|lia]. cbn [assert bind].
  rewrite (Nat.min_l 88 maxBits) by lia.
  rewrite sliceField_first by lia.
  rewrite (proj2 (Z.ltb_lt x0 (2 ^ Z.of_nat 88)) (proj2 Hx0)).
  cbn [bind chunks].
  destruct (Nat.leb_spec maxBits 88) as [|_]; [lia|].
  rewrite (Nat.min_l 88 (maxBits - 88)) by lia.
  rewrite (chunkCount_limb chunkSize k E).
  replace (k * chunkSize - 88)%nat with 0%nat by lia.
  rewrite sliceField_next_aligned
    by (lia || (apply digits_nonempty; exact Hk) || (apply digits_in_field; exact Hpc)).
  rewrite (proj2 (Z.ltb_lt x1 (2 ^ Z.of_nat 88)) (proj2 Hx1)).
  cbn [bind chunks].
  destruct (Nat.leb_spec (maxBits - 88) 88) as [|_]; [lia|].
  rewrite (chunkCount_limb chunkSize k E).
  replace (k * chunkSize - 88)%nat with 0%nat by lia.
  replace (maxBits - 88 - 88)%nat with (maxBits - 176)%nat by lia.
  rewrite sliceField_next_aligned
    by (lia || (apply digits_nonempty; exact Hk) || (apply digits_in_field; exact Hpc)).
  destruct (x2 <? 2 ^ Z.of_nat (maxBits - 176)); reflexivity.
Qed.

Lemma pow2_limb (chunkSize k : nat) :
  (chunkSize * k = 88)%nat -> 2 ^ (Z.of_nat chunkSize * Z.of_nat k) = 2 ^ 88.
Proof. intros E. rewrite <- Nat2Z.inj_mul, E. reflexivity. Qed.

(** X11.  For a chunk size that divides the limb size of 88 bits (bytes, for
    one) no chunk straddles a limb, and for every [maxBits <= 264] a
    range-checked value below [2^maxBits] is sliced into its
    [ceil(maxBits / chunkSize)] base-[2^chunkSize] digits, least
    significant first.  When all three limbs are sliced ([maxBits > 176]) a
    value of [2^maxBits] or more is rejected. *)
Theorem sliceField3_aligned (x : Field3) (maxBits chunkSize k : nat) :
  2 ^ 88 <= p -> rangeChecked x ->
  (chunkSize * k = 88)%nat -> (maxBits <= 264)%nat ->
  (Field3_toBigint x < 2 ^ Z.of_nat maxBits ->
     sliceField3 x maxBits chunkSize
     = Ok (digits (Z.of_nat chunkSize) (chunkCount maxBits chunkSize 0)
                  (Field3_toBigint x)))
  /\ ((176 < maxBits)%nat -> 2 ^ Z.of_nat maxBits <= Field3_toBigint x ->
      sliceField3 x maxBits chunkSize = Err ConstraintUnsatisfied).
Proof.
  destruct x as [[x0 x1] x2]. unfold rangeChecked, l.
  intros Hp (Hx0 & Hx1 & Hx2) E Hm.
  destruct (divisor_of_limb chunkSize k E) as [Hc Hk].
  pose proof (pow2_limb chunkSize k E) as Pk.
  pose proof (Nat2Z.is_nonneg chunkSize) as Hc0.
  rewrite Field3_toBigint_value.
  split.
  - intros Hv.
    destruct (Nat.le_gt_cases maxBits 88) as [H1 | H1];
      [|destruct (Nat.le_gt_cases maxBits 176) as [H2 | H2]].
    + (* one limb *)
      assert (HM : 2 ^ Z.of_nat maxBits <= 2 ^ 88)
        by (apply Z.pow_le_mono_r; lia).
      assert (Hz : x1 = 0 /\ x2 = 0) by (clear - Hv HM Hx0 Hx1 Hx2; lia).
      destruct Hz as [-> ->].
      rewrite sliceField3_one_limb by lia.
      rewrite !Z.mul_0_r, !Z.add_0_r in *.
      rewrite (proj2 (Z.ltb_lt _ _) Hv). reflexivity.
    + (* two limbs *)
      assert (HM : 2 ^ 88 * 2 ^ Z.of_nat (maxBits - 88) = 2 ^ Z.of_nat maxBits).
      { change (2 ^ 88) with (2 ^ Z.of_nat 88).
        rewrite <- Z.pow_add_r by lia. f_equal. lia. }
      assert (HM' : 2 ^ Z.of_nat (maxBits - 88) <= 2 ^ 88)
        by (apply Z.pow_le_mono_r; lia).
      rewrite <- HM in Hv.
      assert (Hz : x2 = 0 /\ x1 < 2 ^ Z.of_nat (maxBits - 88))
        by (clear - Hv HM' Hx0 Hx1 Hx2; lia).
      destruct Hz as [-> Hx1'].
      rewrite (sliceField3_aligned_two x0 x1 0 maxBits chunkSize k) by lia.
      rewrite (proj2 (Z.ltb_lt _ _) Hx1').
      rewrite (chunkCount_aligned chunkSize k maxBits E) by lia.
      rewrite <- digits_app by (rewrite ?Pk; assumption).
      rewrite Pk, Z.mul_0_r, Z.add_0_r. reflexivity.
    + (* three limbs *)
      assert (HM : 2 ^ 176 * 2 ^ Z.of_nat (maxBits - 176) = 2 ^ Z.of_nat maxBits).
      { change (2 ^ 176) with (2 ^ Z.of_nat 176).
        rewrite <- Z.pow_add_r by lia. f_equal. lia. }
      rewrite <- HM in Hv.
      assert (Hx2' : x2 < 2 ^ Z.of_nat (maxBits - 176))
        by (clear - Hv Hx0 Hx1 Hx2; lia).
      assert (Hx12 : 0 <= x1 + 2 ^ 88 * x2) by (clear - Hx1 Hx2; lia).
      rewrite (sliceField3_aligned_three x0 x1 x2 maxBits chunkSize k) by lia.
      rewrite (proj2 (Z.ltb_lt _ _) Hx2').
      rewrite (chunkCount_aligned chunkSize k maxBits E) by lia.
      rewrite (chunkCount_aligned chunkSize k (maxBits - 88) E) by lia.
      replace (maxBits - 88 - 88)%nat with (maxBits - 176)%nat by lia.
      rewrite <- !digits_app by (rewrite ?Pk; assumption).
      rewrite Pk. do 2 f_equal. ring.
  - intros H3 Hv.
    assert (HM : 2 ^ 176 * 2 ^ Z.of_nat (maxBits - 176) = 2 ^ Z.of_nat maxBits).
    { change (2 ^ 176) with (2 ^ Z.of_nat 176).
      rewrite <- Z.pow_add_r by lia. f_equal. lia. }
    rewrite <- HM in Hv.
    assert (Hx2' : 2 ^ Z.of_nat (maxBits - 176) <= x2)
      by (clear - Hv Hx0 Hx1 Hx2; lia).
    rewrite (sliceField3_aligned_three x0 x1 x2 maxBits chunkSize k) by lia.
    destruct (Z.ltb_spec x2 (2 ^ Z.of_nat (maxBits - 176))) as [|_]; [lia | reflexivity].
Qed.

(** ** The number of chunks *)

Lemma sliceLoop_length (bits : list Z) (maxBits chunkSize : nat) :
  (1 <= chunkSize)%nat ->
  forall (fuel i : nat) (chunks : list Z) (sum : Z) (cs : list Z) (sum' : Z) (i' : nat),
    (maxBits - i <= fuel)%nat ->
    sliceLoop fuel bits maxBits chunkSize i chunks sum = Ok (cs, sum', i') ->
    length cs = (length chunks + chunkCount maxBits chunkSize i)%nat
    /\ i' = (i + chunkCount maxBits chunkSize i * chunkSize)%nat.
Proof.
  intros Hc. induction fuel as [|fuel IH]; intros i chunks sum cs sum' i' Hf;
    cbn [sliceLoop]; destruct (Nat.ltb_spec i maxBits) as [Hi | Hi]; try lia.
  - intros [= <- _ <-]. rewrite chunkCount_done by assumption. lia.
  - destruct (sumBits _ _ _ _ _) as [chunk|]; [|discriminate]. cbn [bind].
    intros Hrun. apply IH in Hrun; [|lia].
    rewrite (chunkCount_step maxBits chunkSize i) by assumption.
    rewrite length_app in Hrun. cbn [length] in Hrun. lia.
  - intros [= <- _ <-]. rewrite chunkCount_done by assumption. lia.
Qed.

Lemma sliceField_shape (x : Z) (maxBits chunkSize : nat) (leftover : option Slice)
      (prev' : list Z) (r : Slice) :
  (1 <= chunkSize)%nat ->
  sliceField x maxBits chunkSize leftover = Ok (prev', r) ->
  let s := match leftover with Some lo => leftoverSize lo | None => O end in
  length (chunks r) = chunkCount maxBits chunkSize s
  /\ leftoverSize r = (s + chunkCount maxBits chunkSize s * chunkSize - maxBits)%nat
  /\ (s <= maxBits)%nat.
Proof.
  intros Hc. unfold sliceField. destruct leftover as [lo|]; cbn zeta.
  - destruct (Nat.le_gt_cases (leftoverSize lo) maxBits) as [Hs | Hs].
    + destruct (sumBits _ 0 0 _ _) as [rem|]; [|discriminate]. cbn [bind].
      destruct (lastChunk (chunks lo)) as [chunk|]; [|discriminate]. cbn [bind].
      destruct (sliceLoop _ _ _ _ _ _ _) as [[[cs sum] i]|] eqn:Eloop; [|discriminate].
      cbn [bind]. destruct (assertEquals sum x); [|discriminate]. cbn [bind].
      intros [= _ <-]. cbn [chunks leftoverSize].
      apply sliceLoop_length in Eloop; [|assumption|lia].
      cbn [length] in Eloop. destruct Eloop as [-> ->]. repeat split; lia.
    + rewrite sumBits_out_of_bounds by lia. discriminate.
  - cbn [bind].
    destruct (sliceLoop _ _ _ _ _ _ _) as [[[cs sum] i]|] eqn:Eloop; [|discriminate].
    cbn [bind]. destruct (assertEquals sum x); [|discriminate]. cbn [bind].
    intros [= _ <-]. cbn [chunks leftoverSize].
    apply sliceLoop_length in Eloop; [|assumption|lia].
    cbn [length] in Eloop. destruct Eloop as [-> ->]. repeat split; lia.
Qed.

Lemma sliceField_previous (x : Z) (maxBits chunkSize : nat) (lo : Slice)
      (prev' : list Z) (r : Slice) :
  sliceField x maxBits chunkSize (Some lo) = Ok (prev', r) ->
  length prev' = length (chunks lo).
Proof.
  unfold sliceField.
  destruct (sumBits _ 0 0 _ _) as [rem|]; [|discriminate]. cbn [bind].
  destruct (lastChunk (chunks lo)) as [chunk|] eqn:El; [|discriminate]. cbn [bind].
  destruct (sliceLoop _ _ _ _ _ _ _) as [[[cs sum] i]|]; [|discriminate].
  cbn [bind]. destruct (assertEquals sum x); [|discriminate]. cbn [bind].
  intros [= <- _].
  destruct (chunks lo) as [|c0 rest0] eqn:Ep; [discriminate|].
  destruct (@exists_last _ (c0 :: rest0) ltac:(discriminate)) as [init [lastv ->]].
  rewrite setLastChunk_snoc, !length_app. reflexivity.
Qed.

Lemma chunkCount_split (m1 m2 chunkSize s n : nat) :
  (1 <= chunkSize)%nat -> (n * chunkSize = m1 + s)%nat -> (s <= m2)%nat ->
  chunkCount (m1 + m2) chunkSize 0 = (n + chunkCount m2 chunkSize s)%nat.
Proof.
  intros Hc Hn Hs. unfold chunkCount.
  replace (m1 + m2 - 0 + chunkSize - 1)%nat
    with (m2 - s + chunkSize - 1 + n * chunkSize)%nat by lia.
  rewrite Nat.div_add by lia. lia.
Qed.

Lemma sliceField3_length (x : Field3) (maxBits chunkSize : nat) (cs : list Z) :
  (1 <= chunkSize)%nat ->
  sliceField3 x maxBits chunkSize = Ok cs ->
  length cs = chunkCount maxBits chunkSize 0.
Proof.
  intros Hc. destruct x as [[x0 x1] x2]. unfold sliceField3.
  change (Z.to_nat l) with 88%nat.
  destruct (Nat.leb_spec maxBits (3 * 88)) as [Hm|]; [|discriminate].
  cbn [assert bind].
  destruct (sliceField x0 _ _ None) as [[p0 r0]|] eqn:E0; [|discriminate].
  cbn [bind].
  destruct (sliceField_shape _ _ _ _ _ _ Hc E0) as (L0 & S0 & _).
  destruct (chunkCount_bounds (Nat.min 88 maxBits) chunkSize 0 Hc) as [B0 _].
  destruct (Nat.leb_spec maxBits 88) as [H1 | H1].
  - intros [= <-]. rewrite L0, Nat.min_r by lia. reflexivity.
  - rewrite Nat.min_l in * by lia.
    destruct (sliceField x1 _ _ (Some r0)) as [[p1 r1]|] eqn:E1; [|discriminate].
    cbn [bind].
    destruct (sliceField_shape _ _ _ _ _ _ Hc E1) as (L1 & S1 & F1).
    apply sliceField_previous in E1.
    destruct (chunkCount_bounds (Nat.min 88 (maxBits - 88)) chunkSize (leftoverSize r0) Hc)
      as [B1 _].
    destruct (Nat.leb_spec (maxBits - 88) 88) as [H2 | H2].
    + intros [= <-]. rewrite Nat.min_r in * by lia.
      rewrite length_app, E1, L0, L1.
      pose proof (chunkCount_split 88 (maxBits - 88) chunkSize (leftoverSize r0)
                    (chunkCount 88 chunkSize 0) Hc ltac:(lia) F1) as Hsplit.
      replace (88 + (maxBits - 88))%nat with maxBits in Hsplit by lia.
      rewrite Hsplit. reflexivity.
    + rewrite Nat.min_l in * by lia.
      destruct (sliceField x2 _ _ (Some r1)) as [[p2 r2]|] eqn:E2; [|discriminate].
      cbn [bind].
      destruct (sliceField_shape _ _ _ _ _ _ Hc E2) as (L2 & S2 & F2).
      apply sliceField_previous in E2.
      intros [= <-]. rewrite !length_app, E1, E2, L0, L1, L2.
      pose proof (chunkCount_split 176 (maxBits - 88 - 88) chunkSize (leftoverSize r1)
                    (chunkCount 88 chunkSize 0
                     + chunkCount 88 chunkSize (leftoverSize r0))
                    Hc ltac:(lia) F2) as Hsplit.
      replace (176 + (maxBits - 88 - 88))%nat with maxBits in Hsplit by lia.
      rewrite Hsplit. lia.
Qed.

(** X12.  Whenever [sliceField3] returns, for any limbs at all, it returns
    [ceil(maxBits / chunkSize)] chunks: together the chunks cover
    [maxBits] bits, and without the last one they would not. *)
Theorem sliceField3_chunk_count (x : Field3) (maxBits chunkSize : nat) (cs : list Z) :
  (1 <= chunkSize)%nat ->
  sliceField3 x maxBits chunkSize = Ok cs ->
  (maxBits <= length cs * chunkSize)%nat
  /\ (length cs * chunkSize < maxBits + chunkSize)%nat
  /\ (maxBits <= 264)%nat.
Proof.
  intros Hc Hok. rewrite (sliceField3_length x maxBits chunkSize cs Hc Hok).
  destruct (chunkCount_bounds maxBits chunkSize 0 Hc) as [B B'].
  repeat split; try lia.
  destruct x as [[x0 x1] x2]. unfold sliceField3 in Hok.
  change (Z.to_nat l) with 88%nat in Hok.
  destruct (Nat.leb_spec maxBits (3 * 88)); [lia | discriminate].
Qed.

(** X13.  Chunks that straddle the limbs: when all three limbs are sliced
    ([176 < maxBits <= 264]), chunks are at most a limb wide and the part
    of the last chunk of the second limb that is left to the third fits in
    the bits sliced from it, [sliceField3] returns exactly the
    [ceil(maxBits / chunkSize)] base-[2^chunkSize] digits of a
    range-checked value below [2^maxBits], and rejects one that is
    [2^maxBits] or more. *)
Theorem sliceField3_straddling_digits (x : Field3) (maxBits chunkSize : nat) :
  2 ^ 88 <= p -> rangeChecked x ->
  (1 <= chunkSize <= 88)%nat -> (176 < maxBits <= 264)%nat ->
  let n0 := chunkCount 88 chunkSize 0 in
  let s0 := (n0 * chunkSize - 88)%nat in
  let n1 := chunkCount 88 chunkSize s0 in
  let s1 := (s0 + n1 * chunkSize - 88)%nat in
  (s1 <= maxBits - 176)%nat ->
  (Field3_toBigint x < 2 ^ Z.of_nat maxBits ->
     sliceField3 x maxBits chunkSize
     = Ok (digits (Z.of_nat chunkSize) (chunkCount maxBits chunkSize 0)
                  (Field3_toBigint x)))
  /\ (2 ^ Z.of_nat maxBits <= Field3_toBigint x ->
      sliceField3 x maxBits chunkSize = Err ConstraintUnsatisfied).
Proof.
  intros Hp Hx Hc Hm n0 s0 n1 s1 Hfit.
  destruct (sliceField3_three_limbs x maxBits chunkSize n0 s0 n1 s1
              Hp Hx Hc Hm eq_refl eq_refl eq_refl eq_refl Hfit) as [Hok Hbad].
  split; [|exact Hbad].
  intros Hv. destruct (Hok Hv) as (cs & Hrun & Hcs & Hsum).
  rewrite Hrun. f_equal.
  rewrite <- (sliceField3_length x maxBits chunkSize cs ltac:(lia) Hrun).
  rewrite <- Hsum. symmetry. apply digits_weightedSum; [lia | exact Hcs].
Qed.

(** ** Chaining two calls of [sliceField] *)

(** X14.  The leftover protocol: slicing [x] to [m1] bits and then [y] to [m2]
    bits with the result of the first call as leftover gives, in the first
    call's array (its last chunk completed in place) followed by the second
    call's chunks, exactly the base-[2^chunkSize] digits of
    [x + 2^m1 * y], as long as the free bits of the last chunk of [x] fit in
    the bits sliced from [y]; and the second call is a range check of [y]
    to [m2] bits. *)
Theorem sliceField_chained (x y : Z) (m1 m2 chunkSize : nat) (r0 : Slice) :
  2 ^ Z.of_nat chunkSize <= p -> 0 <= x < p -> 0 <= y < p ->
  (1 <= chunkSize)%nat -> (1 <= m1)%nat ->
  sliceField x m1 chunkSize None = Ok ([], r0) ->
  (leftoverSize r0 <= m2)%nat ->
  (y < 2 ^ Z.of_nat m2 ->
     exists prev' r1,
       sliceField y m2 chunkSize (Some r0) = Ok (prev', r1)
       /\ prev' ++ chunks r1
          = digits (Z.of_nat chunkSize) (chunkCount (m1 + m2) chunkSize 0)
                   (x + 2 ^ Z.of_nat m1 * y))
  /\ (2 ^ Z.of_nat m2 <= y ->
      sliceField y m2 chunkSize (Some r0) = Err ConstraintUnsatisfied).
Proof.
  intros Hpc Hx Hy Hc Hm1.
  rewrite sliceField_first by assumption.
  destruct (Z.ltb_spec x (2 ^ Z.of_nat m1)) as [Hxlt|]; [|discriminate].
  intros [= <-]. cbn [leftoverSize chunks].
  destruct (chunkCount_bounds m1 chunkSize 0 Hc) as [B B'].
  rewrite Nat.sub_0_r in B, B'.
  destruct (chunkCount m1 chunkSize 0) as [|k0] eqn:En0; [lia|].
  set (s := (S k0 * chunkSize - m1)%nat). intros Hs.
  assert (Hsc : (s <= chunkSize)%nat) by lia.
  assert (C0 : (chunkSize * S k0 - s = m1)%nat) by lia.
  assert (Q0 : (chunkSize * k0 + (chunkSize - s) = m1)%nat) by lia.
  assert (Q1 : (chunkSize * S k0 = m1 + s)%nat) by lia.
  assert (L0 : (m1 <= S k0 * chunkSize)%nat) by lia.
  assert (N0 : (S k0 * chunkSize = m1 + s)%nat) by lia.
  destruct (chunkCount_bounds m2 chunkSize s Hc) as [L1 _].
  pose proof (chunkCount_split m1 m2 chunkSize s (S k0) Hc N0 Hs) as Hcount.
  clear B B' En0.
  pose proof (Nat2Z.is_nonneg chunkSize) as Hc0.
  pose proof (pow2_mul_split chunkSize k0 (chunkSize - s) m1 Q0) as P0.
  pose proof (pow2_mul_join chunkSize (S k0) m1 s Q1) as P1.
  assert (Hps : 0 < 2 ^ Z.of_nat s) by (apply Z.pow_pos_nonneg; lia).
  pose proof (Z.mod_pos_bound y _ Hps) as He.
  assert (D : y = 2 ^ Z.of_nat s * (y / 2 ^ Z.of_nat s) + y mod 2 ^ Z.of_nat s)
    by (apply Z.div_mod; lia).
  rewrite digits_snoc by exact Hc0.
  rewrite (sliceField_next y m2 chunkSize s _ _ Hy Hc Hs Hsc).
  destruct (completed_chunk x (y mod 2 ^ Z.of_nat s) chunkSize k0 s) as [F0 R0];
    [exact Hsc | exact Hpc | apply Hx | rewrite C0; exact Hxlt | exact He |].
  rewrite F0.
  destruct (Z.ltb_spec y (2 ^ Z.of_nat m2)) as [Hlt | Hge];
    [|split; [intros Hy2; exfalso; clear - Hge Hy2; lia | reflexivity]].
  split; [intros _ | intros Hy2; exfalso; clear - Hlt Hy2; lia].
  eexists. eexists. split; [reflexivity|]. cbn [chunks].
  pose proof (div_pow2_range y m2 s (conj (proj1 Hy) Hlt) Hs) as Hq.
  set (e := y mod 2 ^ Z.of_nat s) in *.
  set (q := y / 2 ^ Z.of_nat s) in *.
  match goal with |- ?L = _ => set (cs := L) end.
  assert (Hlen : length cs = chunkCount (m1 + m2) chunkSize 0).
  { subst cs. rewrite !length_app, !digits_length. cbn [length].
    rewrite Hcount, Nat.add_1_r. reflexivity. }
  assert (Hb : Forall (fun c => 0 <= c < 2 ^ Z.of_nat chunkSize) cs).
  { subst cs. repeat (apply Forall_app; split); try (apply digits_bound; exact Hc0).
    apply Forall_cons; [exact R0 | apply Forall_nil]. }
  assert (Hsum : weightedSum (Z.of_nat chunkSize) 0 cs = x + 2 ^ Z.of_nat m1 * y).
  { subst cs.
    rewrite (weightedSum_app _ (digits _ k0 x ++ [_])) by exact Hc0.
    rewrite !length_app, !digits_length. cbn [length]. rewrite Nat.add_1_r.
    rewrite weightedSum_completed.
    rewrite (weightedSum_digits_small chunkSize (S k0) x m1 (conj (proj1 Hx) Hxlt) L0).
    rewrite (weightedSum_digits_small chunkSize _ q (m2 - s) Hq L1).
    rewrite P1.
    replace (2 ^ (Z.of_nat chunkSize * Z.of_nat k0)
             * (e * 2 ^ Z.of_nat (chunkSize - s))) with (2 ^ Z.of_nat m1 * e)
      by (rewrite <- P0; ring).
    rewrite D at 1. ring. }
  rewrite <- Hlen, <- Hsum. symmetry.
  apply digits_weightedSum; [exact Hc0 | exact Hb].
Qed.

(** X15.  [sliceField3] reads only the limbs that [maxBits] reaches: for
    [maxBits <= 176] its outcome does not depend on the third limb, and for
    [maxBits <= 88] not on the second either, whatever they hold. *)
Theorem sliceField3_unread_limbs (x0 x1 x2 x1' x2' : Z) (maxBits chunkSize : nat) :
  ((maxBits <= 176)%nat ->
     sliceField3 (x0, x1, x2) maxBits chunkSize
     = sliceField3 (x0, x1, x2') maxBits chunkSize)
  /\ ((maxBits <= 88)%nat ->
      sliceField3 (x0, x1, x2) maxBits chunkSize
      = sliceField3 (x0, x1', x2') maxBits chunkSize).
Proof.
  unfold sliceField3. change (Z.to_nat l) with 88%nat.
  destruct (assert _) as [[]|e]; cbn [bind]; [|split; reflexivity].
  destruct (sliceField x0 _ _ None) as [[p0 r0]|e]; cbn [bind]; [|split; reflexivity].
  split; intros Hm.
  - destruct (Nat.leb_spec maxBits 88); [reflexivity|].
    destruct (sliceField x1 _ _ (Some r0)) as [[p1 r1]|e]; cbn [bind]; [|reflexivity].
    destruct (Nat.leb_spec (maxBits - 88) 88); [reflexivity | lia].
  - destruct (Nat.leb_spec maxBits 88); [reflexivity | lia].
Qed.

(** ** [ForeignGroup] *)

Lemma forEach_Ok_iff {A : Type} (f : A -> result unit) (xs : list A) :
  forEach f xs = Ok tt <-> Forall (fun a => f a = Ok tt) xs.
Proof.
  induction xs as [|a rest IH]; cbn [forEach].
  - split; constructor.
  - destruct (f a) as [[]|e] eqn:Ea; cbn [bind].
    + rewrite IH. split; [intros H; constructor; assumption|].
      intros H. inversion H. assumption.
    + split; [discriminate|]. intros H. inversion H. congruence.
Qed.

Lemma assertEqualBn254_iff (this : ForeignGroup.t) (otherX : ForeignField.t) :
  length (ForeignField.value otherX)
  = length (ForeignField.value (ForeignGroup.x this)) ->
  assertEqualBn254 this otherX = Ok tt
  <-> tl (ForeignField.value otherX) = tl (ForeignField.value (ForeignGroup.x this)).
Proof.
  intros Hl. unfold assertEqualBn254, foreignFieldtoFieldsBn254.
  rewrite !map_id.
  set (a := tl (ForeignField.value (ForeignGroup.x this))).
  set (b := tl (ForeignField.value otherX)).
  assert (Hab : length b = length a) by (subst a b; rewrite !length_tl; lia).
  clearbody a b. clear Hl.
  rewrite forEach_Ok_iff, Forall_forall. split.
  - intros H. apply nth_error_ext. intros i.
    destruct (Nat.lt_ge_cases i (length a)) as [Hi | Hi].
    + specialize (H i ltac:(apply in_seq; lia)).
      destruct (nth_error a i) as [u|]; [|discriminate].
      destruct (nth_error b i) as [v|]; [|discriminate].
      unfold assertEquals in H.
      destruct (Z.eqb_spec u v); [congruence | discriminate].
    + rewrite (proj2 (nth_error_None a i)), (proj2 (nth_error_None b i)) by lia.
      reflexivity.
  - intros -> i Hi. apply in_seq in Hi.
    destruct (nth_error a i) as [u|] eqn:Eu.
    + unfold assertEquals. now rewrite Z.eqb_refl.
    + apply nth_error_None in Eu. lia.
Qed.

(** X16.  [ForeignGroup.assertEquals(other)] compares the limbs of [this.x] with
    those of [other.x] and then, again, the limbs of [this.x] with those of
    [other.y]: it succeeds exactly when both coordinates of [other] have
    the limbs of [this.x], and [this.y] plays no part in the outcome. *)
Theorem ForeignGroup_assertEquals_spec (this other : ForeignGroup.t) :
  length (ForeignField.value (ForeignGroup.x other))
  = length (ForeignField.value (ForeignGroup.x this)) ->
  length (ForeignField.value (ForeignGroup.y other))
  = length (ForeignField.value (ForeignGroup.x this)) ->
  (ForeignGroup_assertEquals this other = Ok tt
   <-> tl (ForeignField.value (ForeignGroup.x other))
       = tl (ForeignField.value (ForeignGroup.x this))
       /\ tl (ForeignField.value (ForeignGroup.y other))
          = tl (ForeignField.value (ForeignGroup.x this)))
  /\ (forall y' : ForeignField.t,
        ForeignGroup_assertEquals (ForeignGroup.mk (ForeignGroup.x this) y') other
        = ForeignGroup_assertEquals this other).
Proof.
  intros Hx Hy. split; [|reflexivity].
  unfold ForeignGroup_assertEquals.
  rewrite <- (assertEqualBn254_iff this (ForeignGroup.x other) Hx).
  rewrite <- (assertEqualBn254_iff this (ForeignGroup.y other) Hy).
  destruct (assertEqualBn254 this (ForeignGroup.x other)) as [[]|e]; cbn [bind].
  - split; [intros H; split; [reflexivity | exact H] | intros [_ H]; exact H].
  - split; [discriminate | intros [H _]; discriminate].
Qed.

(** X17.  [fromFields(toFields(g))] is [g], and [toFields(g)] has
    [sizeInFields()] entries, for every serialisation of the coordinate
    field that writes three field elements and is inverted by its
    deserialisation. *)
Theorem ForeignGroup_fromFields_toFields
        (toFieldsBn254 : ForeignField.t -> list Z)
        (fromFieldsBn254 : list Z -> ForeignField.t) (g : ForeignGroup.t) :
  length (toFieldsBn254 (ForeignGroup.x g)) = 3%nat ->
  length (toFieldsBn254 (ForeignGroup.y g)) = 3%nat ->
  fromFieldsBn254 (toFieldsBn254 (ForeignGroup.x g)) = ForeignGroup.x g ->
  fromFieldsBn254 (toFieldsBn254 (ForeignGroup.y g)) = ForeignGroup.y g ->
  ForeignGroup_fromFields fromFieldsBn254 (ForeignGroup_toFields toFieldsBn254 g) = g
  /\ length (ForeignGroup_toFields toFieldsBn254 g) = ForeignGroup_sizeInFields.
Proof.
  intros Lx Ly Rx Ry. unfold ForeignGroup_fromFields, ForeignGroup_toFields.
  split.
  - rewrite firstn_app, skipn_app, Lx.
    rewrite firstn_all2, skipn_all2 by (rewrite Lx; apply Nat.le_refl).
    change (3 - 3)%nat with 0%nat. cbn [firstn skipn app].
    rewrite app_nil_r, Rx, Ry. destruct g. reflexivity.
  - rewrite length_app, Lx, Ly. reflexivity.
Qed.

End NativeField.

(** * Instances at the concrete native moduli *)

Ltac limbs_in_range :=
  unfold almostReduced, rangeChecked, limb2, Field3_from, lMask, l, l2;
  cbn; lia.

Ltac modulus_bound := unfold bn254_order, pallas_order; lia.

(** C6 (code defect).  [sliceField3] returns after the first limb when
    [maxBits <= 88] and never looks at the two upper limbs: on the
    range-checked input [[0, 1, 0]], whose value is [2^88], with
    [maxBits = 88] and [chunkSize = 8], it succeeds and returns eleven zero
    chunks, whose weighted sum is not the value; it is not a range check to
    [maxBits] bits of the 3-limb input. *)
Theorem sliceField3_skips_upper_limbs :
  rangeChecked (0, 1, 0)
  /\ 2 ^ 88 <= Field3_toBigint (0, 1, 0)
  /\ sliceField3 bn254_order (0, 1, 0) 88 8 = Ok (repeat 0 11)
  /\ weightedSum 8 0 (repeat 0 11) <> Field3_toBigint (0, 1, 0).
Proof.
  split; [limbs_in_range|].
  split; [vm_compute; discriminate|].
  split; [vm_compute; reflexivity|].
  vm_compute. discriminate.
Qed.

(** A leftover that is longer than the bits sliced from the next limb
    makes [sliceField] read past the end of its bit array: with
    [maxBits = 90] and [chunkSize = 16] the call throws on every input. *)
Lemma sliceField3_leftover_overrun :
  sliceField3 bn254_order (0, 0, 0) 90 16 = Err TypeError.
Proof. vm_compute. reflexivity. Qed.

(** With all three limbs sliced, chunks that straddle a limb boundary are
    completed from the next limb: 100-bit chunks of a 264-bit value. *)
Example sliceField3_straddling_chunks :
  sliceField3 bn254_order (2 ^ 88 - 1, 2 ^ 88 - 1, 3) 264 100
  = Ok [2 ^ 100 - 1; 2 ^ 78 - 1; 0]
  /\ weightedSum 100 0 [2 ^ 100 - 1; 2 ^ 78 - 1; 0]
     = Field3_toBigint (2 ^ 88 - 1, 2 ^ 88 - 1, 3).
Proof. split; vm_compute; reflexivity. Qed.

(** With [maxBits > 176] the third limb is sliced too, and a value of
    [2^256] or more is rejected by the sum assertion on that limb. *)
Example sliceField3_rejects_257_bits :
  sliceField3 bn254_order (0, 0, 2 ^ 80) 256 8 = Err ConstraintUnsatisfied.
Proof. vm_compute. reflexivity. Qed.

(** With [maxBits = 264] every limb is sliced in full: for 48-bit chunks,
    which straddle both limb boundaries, every range-checked input yields
    chunks that add up to the value. *)
Lemma sliceField3_264_by_48 (x : Field3) :
  rangeChecked x ->
  exists cs, sliceField3 bn254_order x 264 48 = Ok cs
             /\ Forall (fun c => 0 <= c < 2 ^ 48) cs
             /\ weightedSum 48 0 cs = Field3_toBigint x.
Proof.
  intros Hx.
  assert (Hp : 2 ^ 88 <= bn254_order) by modulus_bound.
  destruct (sliceField3_three_limbs bn254_order x 264 48 2 8 2 16 Hp Hx) as [H _].
  - split; [apply Nat.lt_0_succ | apply Nat.leb_le; reflexivity].
  - split; [apply Nat.ltb_lt; reflexivity | apply Nat.le_refl].
  - reflexivity.
  - reflexivity.
  - reflexivity.
  - reflexivity.
  - apply Nat.leb_le. reflexivity.
  - apply H. apply (Field3_toBigint_range x Hx).
Qed.

(** A [chunkSize] of zero never advances the loop. *)
Example sliceField3_zero_chunkSize :
  sliceField3 bn254_order (7, 0, 0) 10 0 = Err Diverges.
Proof. vm_compute. reflexivity. Qed.

(** C1, counterexample: the check on [2^88 - x2 - (f2 + 1)] passes for
    [x2 = 5], [f2 = 0], where [x2 <= f2] does not hold. *)
Lemma almostReducedBound_check_not_le :
  0 <= 5 < 2 ^ 88 /\ 0 <= 0 < 2 ^ 88
  /\ rangeCheckPrimitive l (almostReducedBound bn254_order 5 0) = Ok tt
  /\ ~ 5 <= 0.
Proof.
  split; [lia|]. split; [lia|]. split; [vm_compute; reflexivity | lia].
Qed.

Lemma almostReducedBound_check_witness :
  2 ^ 89 <= bn254_order /\ 0 <= 3 < 2 ^ 88 /\ 0 <= 7 < 2 ^ 88
  /\ ((rangeCheckPrimitive l (almostReducedBound bn254_order 3 7) = Ok tt
       <-> 3 + 7 < 2 ^ 88)
      /\ (rangeCheckPrimitive l
            (Fsub bn254_order (Fadd bn254_order 3 (Ffrom bn254_order (2 ^ l)))
                  (Ffrom bn254_order (7 + 1))) = Ok tt
          <-> 3 <= 7)).
Proof.
  assert (Hp : 2 ^ 89 <= bn254_order) by modulus_bound.
  assert (Hx : 0 <= 3 < 2 ^ 88) by lia.
  assert (Hf : 0 <= 7 < 2 ^ 88) by lia.
  split; [exact Hp|]. split; [exact Hx|]. split; [exact Hf|].
  exact (almostReducedBound_check bn254_order 3 7 Hp Hx Hf).
Defined.


(** The same operands as constants: [sub] short-circuits to plain
    arithmetic and returns [16 = (0 - 2^88) mod 17]. *)
Lemma sub_constants_below_minus_f :
  sub bn254_order (Fields3_from bn254_order 0) (Fields3_from bn254_order (2 ^ 88)) 17
  = Ok (Fields3_from bn254_order 16).
Proof. vm_compute. reflexivity. Qed.

(** The variables [x = y = 2^100] are almost-reduced modulo [f = 17]; the
    quotient of their product has a top limb above the one of [f], and
    [mul(x, y, f)] produces no value. *)
Lemma mul_fails_on_quotient_bound :
  almostReduced (Fields3_toBigints (Fields3_variables (0, 2 ^ 12, 0))) 17
  /\ mul bn254_order (Fields3_variables (0, 2 ^ 12, 0)) (Fields3_variables (0, 2 ^ 12, 0)) 17
     = Err RangeViolation.
Proof. split; [limbs_in_range|]. vm_compute. reflexivity. Qed.

(** The scenarios of the documentation: [9 + 10 = 2] and [4 + 5 - 10 = 16]
    modulo 17, and [(f - 1) * (f - 2) = 2] modulo the secp256k1 prime. *)
Lemma add_sum_mul_scenarios :
  add bn254_order (Fields3_variables (Field3_from 9)) (Fields3_variables (Field3_from 10)) 17
  = Ok (Fields3_variables (2, 0, 0))
  /\ sum bn254_order [Fields3_variables (Field3_from 4); Fields3_variables (Field3_from 5);
                      Fields3_variables (Field3_from 10)] [1; -1] 17
     = Ok (Fields3_variables (16, 0, 0))
  /\ (let f := 2 ^ 256 - 2 ^ 32 - 977 in
      mul bn254_order (Fields3_variables (Field3_from (f - 1)))
                      (Fields3_variables (Field3_from (f - 2))) f
      = Ok (Fields3_variables (2, 0, 0))).
Proof. repeat split; vm_compute; reflexivity. Qed.




(** C4, counterexample: [5] is below [2^8], and [rangeCheckN(8, 5)] is
    rejected because 8 is not a multiple of 16. *)
Lemma rangeCheckN_rejects_width_8 :
  0 <= 5 < 2 ^ 8 /\ 0 <= 5 < bn254_order
  /\ rangeCheckN bn254_order 8 5 = Err AssertionError.
Proof.
  split; [lia|]. split; [modulus_bound|]. vm_compute. reflexivity.
Qed.

Lemma rangeCheckN_spec_witness :
  0 <= 70000 < bn254_order /\ 0 < 32 /\ 32 mod 16 = 0
  /\ rangeCheckN bn254_order 32 70000 = Ok tt
  /\ rangeCheck16 70000 = Err RangeViolation.
Proof.
  assert (Hx : 0 <= 70000 < bn254_order) by modulus_bound.
  assert (Hn : 0 < 32) by lia.
  assert (Hm : 32 mod 16 = 0) by reflexivity.
  split; [exact Hx|]. split; [exact Hn|]. split; [exact Hm|].
  destruct (rangeCheckN_spec bn254_order 70000 Hx) as (HN & _ & H16 & _).
  split.
  - apply (proj1 (HN 32 Hn Hm)). lia.
  - apply (proj2 H16). lia.
Defined.

Lemma compactMultiRangeCheck_spec_witness :
  0 <= 2 ^ 100 + 3 < bn254_order /\ 0 <= 7 < bn254_order
  /\ 2 ^ 100 + 3 < 2 ^ 176 /\ 7 < 2 ^ 88
  /\ (exists a b, compactMultiRangeCheck bn254_order (2 ^ 100 + 3) 7 = Ok (a, b, 7)
                  /\ a + 2 ^ 88 * b = 2 ^ 100 + 3
                  /\ 0 <= a < 2 ^ 88 /\ 0 <= b < 2 ^ 88 /\ 0 <= 7 < 2 ^ 88).
Proof.
  assert (Hxy : 0 <= 2 ^ 100 + 3 < bn254_order) by modulus_bound.
  assert (Hz : 0 <= 7 < bn254_order) by modulus_bound.
  assert (H1 : 2 ^ 100 + 3 < 2 ^ 176) by lia.
  assert (H2 : 7 < 2 ^ 88) by lia.
  split; [exact Hxy|]. split; [exact Hz|]. split; [exact H1|]. split; [exact H2|].
  exact (proj1 (compactMultiRangeCheck_spec bn254_order (2 ^ 100 + 3) 7 Hxy Hz) H1 H2).
Defined.

(** C7, counterexample: thirty-two bytes [0xff] pack to [2^256 - 1], which
    wraps around the native modulus; [wordToBytes] succeeds on the wrapped
    word and returns its bytes, not the original ones. *)
Lemma wordToBytes_bytesToWord_32_bytes :
  Forall (fun b => 0 <= b < 2 ^ 8) (repeat 255 32)
  /\ isOk (wordToBytes bn254_order (bytesToWord bn254_order (repeat 255 32))
                       (length (repeat 255 32))) = true
  /\ wordToBytes bn254_order (bytesToWord bn254_order (repeat 255 32))
                 (length (repeat 255 32))
     <> Ok (repeat 255 32).
Proof.
  split.
  - cbn [repeat]. repeat (constructor; [lia|]). constructor.
  - split; [vm_compute; reflexivity|].
    vm_compute. intros H. discriminate H.
Qed.

Lemma wordToBytes_bytesToWord_roundtrip_witness :
  0 < bn254_order
  /\ Forall (fun b => 0 <= b < 2 ^ 8) [1; 2; 255]
  /\ 2 ^ (8 * Z.of_nat (length [1; 2; 255])) <= bn254_order
  /\ wordToBytes bn254_order (bytesToWord bn254_order [1; 2; 255]) (length [1; 2; 255])
     = Ok [1; 2; 255].
Proof.
  assert (Hp : 0 < bn254_order) by modulus_bound.
  assert (HB : Forall (fun b => 0 <= b < 2 ^ 8) [1; 2; 255])
    by (repeat (constructor; [lia|]); constructor).
  assert (Hk : 2 ^ (8 * Z.of_nat (length [1; 2; 255])) <= bn254_order)
    by (cbn; modulus_bound).
  split; [exact Hp|]. split; [exact HB|]. split; [exact Hk|].
  exact (proj2 (wordToBytes_bytesToWord_roundtrip bn254_order [1; 2; 255] Hp HB) Hk).
Defined.

Lemma divMod32_spec_witness :
  0 <= Z.shiftl 1 32 + 8 < pallas_order /\ Z.shiftl 1 32 + 8 < 2 ^ 64
  /\ (exists out,
        divMod32_default pallas_order (mkField false (Z.shiftl 1 32 + 8)) = Ok out
        /\ toBigInt (remainder out) = 8 /\ toBigInt (quotient out) = 1).
Proof.
  assert (Hn : 0 <= toBigInt (mkField false (Z.shiftl 1 32 + 8)) < pallas_order)
    by (cbn; modulus_bound).
  assert (H64 : toBigInt (mkField false (Z.shiftl 1 32 + 8)) < 2 ^ 64) by (cbn; lia).
  split; [exact Hn|]. split; [exact H64|].
  destruct (divMod32_spec pallas_order (mkField false (Z.shiftl 1 32 + 8)) Hn H64)
    as (out & Hout & _ & _ & Hscen).
  exists out. split; [exact Hout|]. apply Hscen. reflexivity.
Defined.

(** C9, counterexample: on the constants [2^33] and [2^33], whose sum is
    not below [2^33], [addMod32] succeeds (and returns 0). *)
Lemma addMod32_constants_above_33_bits :
  2 ^ 33 <= 2 ^ 33 + 2 ^ 33
  /\ addMod32 pallas_order (mkField true (2 ^ 33)) (mkField true (2 ^ 33))
     = Ok (mkField true 0).
Proof. split; [lia | vm_compute; reflexivity]. Qed.

Lemma addMod32_spec_witness :
  2 ^ 66 <= pallas_order /\ 0 <= 2 ^ 32 + 5 < 2 ^ 64 /\ 0 <= 2 ^ 32 - 1 < 2 ^ 64
  /\ addMod32 pallas_order (mkField false (2 ^ 32 + 5)) (mkField true (2 ^ 32 - 1))
     = Err ConstraintUnsatisfied
  /\ addMod32 pallas_order (mkField false 7) (mkField true (2 ^ 32 - 1))
     = Ok (mkField false 6).
Proof.
  assert (Hp : 2 ^ 66 <= pallas_order) by modulus_bound.
  assert (Hx : 0 <= 2 ^ 32 + 5 < 2 ^ 64) by lia.
  assert (Hx' : 0 <= 7 < 2 ^ 64) by lia.
  assert (Hy : 0 <= 2 ^ 32 - 1 < 2 ^ 64) by lia.
  split; [exact Hp|]. split; [exact Hx|]. split; [exact Hy|]. split.
  - apply (proj1 (addMod32_spec pallas_order (mkField false (2 ^ 32 + 5))
                                (mkField true (2 ^ 32 - 1)) Hp Hx Hy)).
    + reflexivity.
    + cbn. lia.
  - apply (proj1 (addMod32_spec pallas_order (mkField false 7)
                                (mkField true (2 ^ 32 - 1)) Hp Hx' Hy)).
    + reflexivity.
    + cbn. lia.
Defined.

Lemma wordToBytes_spec_witness :
  0 <= 258 < bn254_order
  /\ wordToBytes bn254_order 258 2 = Ok [2; 1]
  /\ wordToBytes bn254_order 258 1 = Err ConstraintUnsatisfied.
Proof.
  assert (Hw : 0 <= 258 < bn254_order) by modulus_bound.
  split; [exact Hw|]. split.
  - apply (proj1 (wordToBytes_spec bn254_order 258 2 Hw)). cbn. lia.
  - apply (proj2 (wordToBytes_spec bn254_order 258 1 Hw)). cbn. lia.
Defined.

(** ** Instances of the further properties *)

Lemma divMod32_equivalent_to_helper_witness :
  0 <= 2 ^ 32 + 8 < pallas_order /\ 0 <= 2 ^ 64 + 5 < pallas_order
  /\ (exists out,
        divMod32_default pallas_order (mkField true (2 ^ 32 + 8)) = Ok out
        /\ divMod32Expected (2 ^ 32 + 8)
           = Ok (toBigInt (remainder out), toBigInt (quotient out)))
  /\ divMod32Expected (2 ^ 64 + 5) = Err AssertionError
  /\ divMod32_default pallas_order (mkField false (2 ^ 64 + 5)) = Err RangeViolation.
Proof.
  assert (Hn : 0 <= toBigInt (mkField true (2 ^ 32 + 8)) < pallas_order)
    by (cbn; modulus_bound).
  assert (Hm : 0 <= toBigInt (mkField false (2 ^ 64 + 5)) < pallas_order)
    by (cbn; modulus_bound).
  split; [exact Hn|]. split; [exact Hm|]. split.
  - destruct (proj1 (divMod32_equivalent_to_helper pallas_order
                       (mkField true (2 ^ 32 + 8)) Hn))
      as (out & Hout & Hexp & _); [cbn; lia|].
    exists out. split; [exact Hout | exact Hexp].
  - apply (proj2 (divMod32_equivalent_to_helper pallas_order
                    (mkField false (2 ^ 64 + 5)) Hm)).
    cbn. lia.
Defined.

Lemma addMod32_associative_witness :
  2 ^ 33 <= pallas_order /\ 0 <= 2 ^ 32 - 1 < 2 ^ 32 /\ 0 <= 5 < 2 ^ 32
  /\ bind (addMod32 pallas_order (mkField false (2 ^ 32 - 1)) (mkField true (2 ^ 32 - 1)))
          (fun xy => addMod32 pallas_order xy (mkField false 5))
     = Ok (mkField false 3)
  /\ bind (addMod32 pallas_order (mkField true (2 ^ 32 - 1)) (mkField false 5))
          (fun yz => addMod32 pallas_order (mkField false (2 ^ 32 - 1)) yz)
     = bind (addMod32 pallas_order (mkField false (2 ^ 32 - 1)) (mkField true (2 ^ 32 - 1)))
            (fun xy => addMod32 pallas_order xy (mkField false 5)).
Proof.
  assert (Hp : 2 ^ 33 <= pallas_order) by modulus_bound.
  assert (Hx : 0 <= 2 ^ 32 - 1 < 2 ^ 32) by lia.
  assert (Hz : 0 <= 5 < 2 ^ 32) by lia.
  split; [exact Hp|]. split; [exact Hx|]. split; [exact Hz|].
  exact (addMod32_associative pallas_order (mkField false (2 ^ 32 - 1))
           (mkField true (2 ^ 32 - 1)) (mkField false 5) Hp Hx Hx Hz).
Defined.

Lemma divMod32_quotientBits_witness :
  0 <= 2 ^ 48 + 7 < pallas_order /\ 0 < 16 /\ 16 mod 16 = 0
  /\ divMod32 pallas_order (mkField false (2 ^ 48 + 7)) 16 = Err RangeViolation
  /\ divMod32 pallas_order (mkField false (2 ^ 47 + 7)) 16
     = Ok {| remainder := mkField false 7; quotient := mkField false (2 ^ 15) |}
  /\ divMod32 pallas_order (mkField true (2 ^ 48 + 7)) 16
     = divMod32 pallas_order (mkField true (2 ^ 48 + 7)) 32.
Proof.
  assert (Hn : 0 <= toBigInt (mkField false (2 ^ 48 + 7)) < pallas_order)
    by (cbn; modulus_bound).
  assert (Hm : 0 <= toBigInt (mkField false (2 ^ 47 + 7)) < pallas_order)
    by (cbn; modulus_bound).
  assert (Hk : 0 <= toBigInt (mkField true (2 ^ 48 + 7)) < pallas_order)
    by (cbn; modulus_bound).
  assert (Hq : 0 < 16) by lia.
  assert (Hmod : 16 mod 16 = 0) by reflexivity.
  split; [exact Hn|]. split; [exact Hq|]. split; [exact Hmod|]. split; [|split].
  - apply (proj1 (divMod32_quotientBits pallas_order (mkField false (2 ^ 48 + 7)) 16
                    Hn Hq Hmod) eq_refl).
    cbn. lia.
  - apply (proj1 (divMod32_quotientBits pallas_order (mkField false (2 ^ 47 + 7)) 16
                    Hm Hq Hmod) eq_refl).
    cbn. lia.
  - exact (proj2 (divMod32_quotientBits pallas_order (mkField true (2 ^ 48 + 7)) 16
                    Hk Hq Hmod) eq_refl).
Defined.

Lemma wordsToBytes_spec_witness :
  Forall (fun w => 0 <= w < bn254_order) [258; 3]
  /\ Forall (fun w => 0 <= w < bn254_order) [258; 70000]
  /\ wordsToBytes bn254_order [258; 3] 2 = Ok [2; 1; 3; 0]
  /\ wordsToBytes bn254_order [258; 70000] 2 = Err ConstraintUnsatisfied.
Proof.
  assert (H1 : Forall (fun w => 0 <= w < bn254_order) [258; 3])
    by (repeat apply Forall_cons; try apply Forall_nil; modulus_bound).
  assert (H2 : Forall (fun w => 0 <= w < bn254_order) [258; 70000])
    by (repeat apply Forall_cons; try apply Forall_nil; modulus_bound).
  split; [exact H1|]. split; [exact H2|]. split.
  - apply (proj1 (wordsToBytes_spec bn254_order [258; 3] 2 H1)).
    repeat apply Forall_cons; try apply Forall_nil; cbn; lia.
  - apply (proj1 (proj2 (wordsToBytes_spec bn254_order [258; 70000] 2 H2))).
    apply Exists_cons_tl, Exists_cons_hd. cbn. lia.
Defined.

Lemma bytesToWords_wordsToBytes_roundtrip_witness :
  (1 <= 2)%nat
  /\ Forall (fun w => 0 <= w < bn254_order) [258; 3]
  /\ Forall (fun w => w < 2 ^ (8 * Z.of_nat 2)) [258; 3]
  /\ bind (wordsToBytes bn254_order [258; 3] 2)
          (fun bytes => bytesToWords bn254_order bytes 2)
     = Ok [258; 3].
Proof.
  assert (Hk : (1 <= 2)%nat) by lia.
  assert (H1 : Forall (fun w => 0 <= w < bn254_order) [258; 3])
    by (repeat apply Forall_cons; try apply Forall_nil; modulus_bound).
  assert (H2 : Forall (fun w => w < 2 ^ (8 * Z.of_nat 2)) [258; 3])
    by (repeat apply Forall_cons; try apply Forall_nil; cbn; lia).
  split; [exact Hk|]. split; [exact H1|]. split; [exact H2|].
  exact (bytesToWords_wordsToBytes_roundtrip bn254_order [258; 3] 2 Hk H1 H2).
Defined.

Lemma wordsToBytes_bytesToWords_roundtrip_witness :
  (1 <= 2)%nat /\ 2 ^ (8 * Z.of_nat 2) <= bn254_order
  /\ length [1; 2; 255; 0] = (2 * 2)%nat
  /\ Forall (fun b => 0 <= b < 2 ^ 8) [1; 2; 255; 0]
  /\ bind (bytesToWords bn254_order [1; 2; 255; 0] 2)
          (fun words => wordsToBytes bn254_order words 2)
     = Ok [1; 2; 255; 0].
Proof.
  assert (Hk : (1 <= 2)%nat) by lia.
  assert (Hp : 2 ^ (8 * Z.of_nat 2) <= bn254_order) by (cbn; modulus_bound).
  assert (Hl : length [1; 2; 255; 0] = (2 * 2)%nat) by reflexivity.
  assert (Hb : Forall (fun b => 0 <= b < 2 ^ 8) [1; 2; 255; 0])
    by (repeat apply Forall_cons; try apply Forall_nil; lia).
  split; [exact Hk|]. split; [exact Hp|]. split; [exact Hl|]. split; [exact Hb|].
  exact (wordsToBytes_bytesToWords_roundtrip bn254_order [1; 2; 255; 0] 2 2 Hk Hp Hl Hb).
Defined.

Lemma sliceField_range_check_witness :
  0 <= 1000 < bn254_order /\ 0 <= 1024 < bn254_order /\ (1 <= 4)%nat
  /\ (exists cs lo,
        sliceField bn254_order 1000 10 4 None
        = Ok ([], {| chunks := cs; leftoverSize := lo |})
        /\ weightedSum (Z.of_nat 4) 0 cs = 1000
        /\ (length cs * 4 = 10 + lo)%nat)
  /\ sliceField bn254_order 1024 10 4 None = Err ConstraintUnsatisfied.
Proof.
  assert (Hx : 0 <= 1000 < bn254_order) by modulus_bound.
  assert (Hy : 0 <= 1024 < bn254_order) by modulus_bound.
  assert (Hc : (1 <= 4)%nat) by lia.
  split; [exact Hx|]. split; [exact Hy|]. split; [exact Hc|]. split.
  - destruct (proj1 (sliceField_range_check bn254_order 1000 10 4 Hx Hc))
      as (cs & lo & Hrun & _ & Hsum & Hlen & _); [cbn; lia|].
    exists cs, lo. split; [exact Hrun|]. split; [exact Hsum | exact Hlen].
  - apply (proj2 (sliceField_range_check bn254_order 1024 10 4 Hy Hc)). cbn. lia.
Defined.

Lemma sliceField_last_chunk_witness :
  0 <= 1000 < bn254_order /\ (1 <= 4)%nat
  /\ sliceField bn254_order 1000 10 4 None
     = Ok ([], {| chunks := [8; 14; 3]; leftoverSize := 2 |})
  /\ lastChunk [8; 14; 3] = Some 3
  /\ 0 <= 3 < 2 ^ Z.of_nat (4 - 2).
Proof.
  assert (Hx : 0 <= 1000 < bn254_order) by modulus_bound.
  assert (Hc : (1 <= 4)%nat) by lia.
  assert (Hrun : sliceField bn254_order 1000 10 4 None
                 = Ok ([], {| chunks := [8; 14; 3]; leftoverSize := 2 |}))
    by (vm_compute; reflexivity).
  assert (Hlast : lastChunk (chunks {| chunks := [8; 14; 3]; leftoverSize := 2 |}) = Some 3)
    by reflexivity.
  split; [exact Hx|]. split; [exact Hc|]. split; [exact Hrun|]. split; [exact Hlast|].
  exact (sliceField_last_chunk bn254_order 1000 10 4
           {| chunks := [8; 14; 3]; leftoverSize := 2 |} 3 Hx Hc Hrun Hlast).
Defined.

Lemma sliceField3_leftover_out_of_bounds_witness :
  2 ^ 88 <= bn254_order /\ 0 <= 5 < 2 ^ 88
  /\ (1 <= 16)%nat /\ (88 < 90 <= 264)%nat
  /\ (Nat.min 88 (90 - 88) < chunkCount 88 16 0 * 16 - 88)%nat
  /\ sliceField3 bn254_order (5, 7, 9) 90 16 = Err TypeError.
Proof.
  assert (Hp : 2 ^ 88 <= bn254_order) by modulus_bound.
  assert (Hx : 0 <= 5 < 2 ^ 88) by lia.
  assert (Hc : (1 <= 16)%nat) by lia.
  assert (Hm : (88 < 90 <= 264)%nat) by lia.
  assert (Hover : (Nat.min 88 (90 - 88) < chunkCount 88 16 0 * 16 - 88)%nat)
    by (vm_compute; lia).
  split; [exact Hp|]. split; [exact Hx|]. split; [exact Hc|]. split; [exact Hm|].
  split; [exact Hover|].
  exact (sliceField3_leftover_out_of_bounds bn254_order 5 7 9 90 16 Hp Hx Hc Hm Hover).
Defined.

Lemma sliceField3_zero_chunkSize_never_ends_witness :
  (1 <= 10 <= 264)%nat
  /\ sliceField3 bn254_order (7, 0, 0) 10 0 = Err Diverges.
Proof.
  assert (Hm : (1 <= 10 <= 264)%nat) by lia.
  split; [exact Hm|].
  exact (proj1 (sliceField3_zero_chunkSize_never_ends bn254_order (7, 0, 0) 10 Hm)).
Defined.

Lemma sliceField3_aligned_witness :
  2 ^ 88 <= bn254_order
  /\ rangeChecked (2 ^ 88 - 1, 5, 0) /\ rangeChecked (0, 0, 2 ^ 24)
  /\ (8 * 11 = 88)%nat /\ (100 <= 264)%nat /\ (200 <= 264)%nat
  /\ sliceField3 bn254_order (2 ^ 88 - 1, 5, 0) 100 8
     = Ok (digits 8 13 (6 * 2 ^ 88 - 1))
  /\ sliceField3 bn254_order (0, 0, 2 ^ 24) 200 8 = Err ConstraintUnsatisfied.
Proof.
  assert (Hp : 2 ^ 88 <= bn254_order) by modulus_bound.
  assert (Hx : rangeChecked (2 ^ 88 - 1, 5, 0)) by limbs_in_range.
  assert (Hy : rangeChecked (0, 0, 2 ^ 24)) by limbs_in_range.
  assert (Hk : (8 * 11 = 88)%nat) by reflexivity.
  assert (Hm : (100 <= 264)%nat) by lia.
  assert (Hn : (200 <= 264)%nat) by lia.
  split; [exact Hp|]. split; [exact Hx|]. split; [exact Hy|]. split; [exact Hk|].
  split; [exact Hm|]. split; [exact Hn|]. split.
  - apply (proj1 (sliceField3_aligned bn254_order (2 ^ 88 - 1, 5, 0) 100 8 11
                    Hp Hx Hk Hm)).
    vm_compute. reflexivity.
  - apply (proj2 (sliceField3_aligned bn254_order (0, 0, 2 ^ 24) 200 8 11
                    Hp Hy Hk Hn)).
    + lia.
    + vm_compute. discriminate.
Defined.

Lemma sliceField3_chunk_count_witness :
  (1 <= 4)%nat
  /\ sliceField3 bn254_order (1000, 0, 0) 10 4 = Ok [8; 14; 3]
  /\ (10 <= length [8; 14; 3] * 4)%nat
  /\ (length [8; 14; 3] * 4 < 10 + 4)%nat.
Proof.
  assert (Hc : (1 <= 4)%nat) by lia.
  assert (Hrun : sliceField3 bn254_order (1000, 0, 0) 10 4 = Ok [8; 14; 3])
    by (vm_compute; reflexivity).
  split; [exact Hc|]. split; [exact Hrun|].
  destruct (sliceField3_chunk_count bn254_order (1000, 0, 0) 10 4 [8; 14; 3] Hc Hrun)
    as (H1 & H2 & _).
  split; [exact H1 | exact H2].
Defined.

Lemma sliceField3_straddling_digits_witness :
  2 ^ 88 <= bn254_order /\ rangeChecked (2 ^ 88 - 1, 2 ^ 88 - 1, 3)
  /\ (1 <= 48 <= 88)%nat /\ (176 < 264 <= 264)%nat
  /\ (chunkCount 88 48 0 * 48 - 88
      + chunkCount 88 48 (chunkCount 88 48 0 * 48 - 88) * 48 - 88 <= 264 - 176)%nat
  /\ sliceField3 bn254_order (2 ^ 88 - 1, 2 ^ 88 - 1, 3) 264 48
     = Ok (digits 48 6 (2 ^ 178 - 1)).
Proof.
  assert (Hp : 2 ^ 88 <= bn254_order) by modulus_bound.
  assert (Hx : rangeChecked (2 ^ 88 - 1, 2 ^ 88 - 1, 3)) by limbs_in_range.
  assert (Hc : (1 <= 48 <= 88)%nat) by lia.
  assert (Hm : (176 < 264 <= 264)%nat) by lia.
  assert (Hfit : (chunkCount 88 48 0 * 48 - 88
                  + chunkCount 88 48 (chunkCount 88 48 0 * 48 - 88) * 48 - 88
                  <= 264 - 176)%nat)
    by (vm_compute; lia).
  split; [exact Hp|]. split; [exact Hx|]. split; [exact Hc|]. split; [exact Hm|].
  split; [exact Hfit|].
  apply (proj1 (sliceField3_straddling_digits bn254_order (2 ^ 88 - 1, 2 ^ 88 - 1, 3)
                  264 48 Hp Hx Hc Hm Hfit)).
  vm_compute. reflexivity.
Defined.

Lemma sliceField_chained_witness :
  2 ^ Z.of_nat 4 <= bn254_order /\ 0 <= 1000 < bn254_order /\ 0 <= 5 < bn254_order
  /\ (1 <= 4)%nat /\ (1 <= 10)%nat
  /\ sliceField bn254_order 1000 10 4 None
     = Ok ([], {| chunks := [8; 14; 3]; leftoverSize := 2 |})
  /\ (2 <= 6)%nat
  /\ exists prev' r1,
       sliceField bn254_order 5 6 4 (Some {| chunks := [8; 14; 3]; leftoverSize := 2 |})
       = Ok (prev', r1)
       /\ prev' ++ chunks r1 = [8; 14; 7; 1].
Proof.
  assert (Hpc : 2 ^ Z.of_nat 4 <= bn254_order) by (cbn; modulus_bound).
  assert (Hx : 0 <= 1000 < bn254_order) by modulus_bound.
  assert (Hy : 0 <= 5 < bn254_order) by modulus_bound.
  assert (Hc : (1 <= 4)%nat) by lia.
  assert (Hm : (1 <= 10)%nat) by lia.
  assert (Hrun : sliceField bn254_order 1000 10 4 None
                 = Ok ([], {| chunks := [8; 14; 3]; leftoverSize := 2 |}))
    by (vm_compute; reflexivity).
  assert (Hs : (leftoverSize {| chunks := [8; 14; 3]%Z; leftoverSize := 2 |} <= 6)%nat)
    by (cbn; lia).
  split; [exact Hpc|]. split; [exact Hx|]. split; [exact Hy|]. split; [exact Hc|].
  split; [exact Hm|]. split; [exact Hrun|]. split; [exact Hs|].
  destruct (proj1 (sliceField_chained bn254_order 1000 5 10 6 4
                     {| chunks := [8; 14; 3]; leftoverSize := 2 |}
                     Hpc Hx Hy Hc Hm Hrun Hs))
    as (prev' & r1 & Hnext & Hall); [cbn; lia|].
  exists prev', r1. split; [exact Hnext | exact Hall].
Defined.

Lemma sliceField3_unread_limbs_witness :
  (88 <= 176)%nat
  /\ sliceField3 bn254_order (0, 1, 0) 88 8 = sliceField3 bn254_order (0, 0, 0) 88 8.
Proof.
  assert (Hm : (88 <= 176)%nat) by lia.
  split; [exact Hm|].
  exact (proj2 (sliceField3_unread_limbs bn254_order 0 1 0 0 0 88 8) (Nat.le_refl 88)).
Defined.

Lemma ForeignGroup_assertEquals_spec_witness :
  ForeignGroup_assertEquals
    (ForeignGroup.mk (ForeignField.mk [0; 1; 2; 3]) (ForeignField.mk [0; 4; 5; 6]))
    (ForeignGroup.mk (ForeignField.mk [0; 1; 2; 3]) (ForeignField.mk [0; 1; 2; 3]))
  = Ok tt
  /\ ForeignGroup_assertEquals
       (ForeignGroup.mk (ForeignField.mk [0; 1; 2; 3]) (ForeignField.mk [0; 4; 5; 6]))
       (ForeignGroup.mk (ForeignField.mk [0; 1; 2; 3]) (ForeignField.mk [0; 4; 5; 6]))
     <> Ok tt.
Proof.
  split.
  - apply (proj1 (ForeignGroup_assertEquals_spec
                    (ForeignGroup.mk (ForeignField.mk [0; 1; 2; 3])
                                     (ForeignField.mk [0; 4; 5; 6]))
                    (ForeignGroup.mk (ForeignField.mk [0; 1; 2; 3])
                                     (ForeignField.mk [0; 1; 2; 3]))
                    eq_refl eq_refl)).
    split; reflexivity.
  - intros Hok.
    apply (proj1 (ForeignGroup_assertEquals_spec
                    (ForeignGroup.mk (ForeignField.mk [0; 1; 2; 3])
                                     (ForeignField.mk [0; 4; 5; 6]))
                    (ForeignGroup.mk (ForeignField.mk [0; 1; 2; 3])
                                     (ForeignField.mk [0; 4; 5; 6]))
                    eq_refl eq_refl)) in Hok.
    destruct Hok as [_ Hy]. discriminate Hy.
Defined.

Lemma ForeignGroup_fromFields_toFields_witness :
  ForeignGroup_fromFields (fun fs => ForeignField.mk (0 :: fs))
    (ForeignGroup_toFields (fun f => tl (ForeignField.value f))
       (ForeignGroup.mk (ForeignField.mk [0; 1; 2; 3]) (ForeignField.mk [0; 4; 5; 6])))
  = ForeignGroup.mk (ForeignField.mk [0; 1; 2; 3]) (ForeignField.mk [0; 4; 5; 6])
  /\ length (ForeignGroup_toFields (fun f => tl (ForeignField.value f))
       (ForeignGroup.mk (ForeignField.mk [0; 1; 2; 3]) (ForeignField.mk [0; 4; 5; 6])))
     = ForeignGroup_sizeInFields.
Proof.
  exact (ForeignGroup_fromFields_toFields
           (fun f => tl (ForeignField.value f)) (fun fs => ForeignField.mk (0 :: fs))
           (ForeignGroup.mk (ForeignField.mk [0; 1; 2; 3]) (ForeignField.mk [0; 4; 5; 6]))
           eq_refl eq_refl eq_refl eq_refl).
Defined.

